(** * Verification of the FICO Xpress example notebooks

    The notebooks are client scripts of an external solver.  The only
    algorithmic code they own is in [basic_api_examples/callback_newnode.ipynb]:
    the callback [storeBBnode], which records the branch-and-bound tree in the
    dictionaries [left], [right] and [nodes], and the two recursive functions
    [postorder_count] and [setpos], which lay the recorded tree out for
    plotting.  This file embeds that code, and the call structure of the
    notebooks, and proves the properties stated about them.

    Conventions of the embedding.
    - Python [int] is [Z]; a [dict] with integer keys is a [gmap Z _];
      [k in d.keys()] is [d !! k] being [Some _]; [d[k]] raises [KeyError]
      when the key is absent; [d[k] = v] is [<[k:=v]> d]; [len d] is [size d].
    - Python [float] arithmetic is kept abstract behind the class [PyFloat],
      with two instances: IEEE binary64 ([PrimFloat.float], what CPython
      computes with) and exact rationals ([Q]).
    - A function that can raise returns a [result]; the recursion depth is
      bounded by a [fuel] argument, and running out of it is Python's
      [RecursionError].  Sequencing is stdpp's [x ← r; k]. *)

From Stdlib Require Import ZArith QArith Lia Lqa Floats.
From stdpp Require Import gmap list relations strings.

Set Warnings "-inexact-float,-register-all".
Set Default Proof Using "Type".

Local Open Scope Z_scope.

(** ** Python results and exceptions *)

Module Py.

Inductive exn := KeyError | ZeroDivisionError | RecursionError.

Inductive result (A : Type) :=
| Ok (a : A)
| Raise (e : exn).
Arguments Ok {A} a.
Arguments Raise {A} e.

#[global] Instance result_ret : MRet result := @Ok.

#[global] Instance result_bind : MBind result := λ A B k r,
  match r with
  | Ok a => k a
  | Raise e => Raise e
  end.

(** [d[k]] *)
Definition getitem {V} (d : gmap Z V) (k : Z) : result V :=
  match d !! k with
  | Some v => Ok v
  | None => Raise KeyError
  end.

End Py.
Import Py.

(** ** Floating-point arithmetic, as far as the notebook uses it *)

Class PyFloat (F : Type) := {
  float_of_int : Z → F;       (* implicit int -> float conversion *)
  fadd : F → F → F;
  fsub : F → F → F;
  fmul : F → F → F;
  fdiv : F → F → F;           (* true division by a non-zero divisor *)
  lit_0_01 : F;               (* the literal 0.01 *)
  lit_0_7 : F;                (* the literal .7 *)
  lit_0_5 : F;                (* the literals .5 and 0.5 *)
  fle : F → F → Prop;         (* x <= y *)
  flt : F → F → Prop;         (* x < y *)
}.

(** IEEE 754 binary64 with round-to-nearest-even, CPython's [float].  The
    conversion of an [int] rounds correctly (CPython raises [OverflowError]
    above the largest finite float, where this conversion gives infinity). *)
Definition binary64_of_Z (z : Z) : float :=
  SF2Prim (binary_normalize prec emax z 0 false).

#[export] Instance binary64 : PyFloat float := {
  float_of_int := binary64_of_Z;
  fadd := PrimFloat.add;
  fsub := PrimFloat.sub;
  fmul := PrimFloat.mul;
  fdiv := PrimFloat.div;
  lit_0_01 := 0.01%float;
  lit_0_7 := 0.7%float;
  lit_0_5 := 0.5%float;
  fle x y := PrimFloat.leb x y = true;
  flt x y := PrimFloat.ltb x y = true;
}.

(** The rational number a finite binary64 value stands for. *)
Definition Q_of_binary64 (f : float) : Q :=
  match Prim2SF f with
  | S754_finite s m e =>
      ((if s then -1 else 1) * inject_Z (Z.pos m) * 2 ^ e)%Q
  | _ => 0%Q
  end.

(** The same expressions read over the rationals: no rounding. *)
#[export] Instance exact : PyFloat Q := {
  float_of_int := inject_Z;
  fadd := Qplus;
  fsub := Qminus;
  fmul := Qmult;
  fdiv := Qdiv;
  lit_0_01 := 1 # 100;
  lit_0_7 := 7 # 10;
  lit_0_5 := 1 # 2;
  fle := Qle;
  flt := Qlt;
}.

(** ** The part of [networkx.Graph] the notebook uses

    A graph keeps, for every node, its attribute dictionary (here only the
    attribute [pos], absent or a pair) and its set of neighbours. *)

Module Nx.
Section graph.
Context {F : Type}.

Record Graph := mkGraph {
  node_attr : gmap Z (option (F * Z));   (* G.nodes[n].get('pos') *)
  adj : gmap Z (gset Z);                 (* G.adj *)
}.

(** [nx.Graph()] *)
Definition empty : Graph := mkGraph ∅ ∅.

(** A node gets an entry in [G.adj] when it is created. *)
Definition touch (n : Z) (a : gmap Z (gset Z)) : gmap Z (gset Z) :=
  match a !! n with
  | Some _ => a
  | None => <[n := ∅]> a
  end.

(** [G.add_node(n, pos=xy)]: the node is created if need be and its
    attribute [pos] is set, replacing an earlier one. *)
Definition add_node (n : Z) (xy : F * Z) (G : Graph) : Graph :=
  mkGraph (<[n := Some xy]> (node_attr G)) (touch n (adj G)).

(** A node created by [add_edge] has no attribute. *)
Definition ensure_node (n : Z) (na : gmap Z (option (F * Z)))
    : gmap Z (option (F * Z)) :=
  match na !! n with
  | Some _ => na
  | None => <[n := None]> na
  end.

Definition link (u v : Z) (a : gmap Z (gset Z)) : gmap Z (gset Z) :=
  <[u := {[v]} ∪ default ∅ (a !! u)]> a.

(** [G.add_edge(u, v)]: missing end points are created without
    attributes; the edge is undirected. *)
Definition add_edge (u v : Z) (G : Graph) : Graph :=
  mkGraph (ensure_node v (ensure_node u (node_attr G)))
          (link v u (link u v (adj G))).

(** [nx.get_node_attributes(G, 'pos')] *)
Definition get_node_attributes_pos (G : Graph) : gmap Z (F * Z) :=
  omap id (node_attr G).

(** [G.neighbors(u)], empty for a node the graph does not have. *)
Definition neighbors (G : Graph) (u : Z) : gset Z := default ∅ (adj G !! u).

(** [G.has_edge(u, v)] *)
Definition has_edge (G : Graph) (u v : Z) : Prop :=
  v ∈ neighbors G u ∧ u ∈ neighbors G v.

End graph.
Arguments Graph F : clear implicits.
End Nx.

(** ** [callback_newnode.ipynb]: the recorded tree and its layout *)

Module CallbackNewnode.

(** A finite binary tree: what the dictionaries [left] and [right] unfold to
    from a node when no cycle is met. *)
Inductive btree :=
| Leaf
| Node (l : btree) (n : Z) (r : btree).

Fixpoint tree_size (t : btree) : nat :=
  match t with
  | Leaf => 0
  | Node l _ r => S (tree_size l + tree_size r)
  end.

Fixpoint tree_height (t : btree) : nat :=
  match t with
  | Leaf => 0
  | Node l _ r => S (Nat.max (tree_height l) (tree_height r))
  end.

(** Node identifiers in preorder. *)
Fixpoint labels (t : btree) : list Z :=
  match t with
  | Leaf => []
  | Node l n r => n :: labels l ++ labels r
  end.

(** Node identifiers with their depth, the root of [t] being at depth [d]. *)
Fixpoint levels (d : Z) (t : btree) : list (Z * Z) :=
  match t with
  | Leaf => []
  | Node l n r => (n, d) :: levels (d + 1) l ++ levels (d + 1) r
  end.

Definition root (t : btree) : option Z :=
  match t with
  | Leaf => None
  | Node _ n _ => Some n
  end.

(** Parent/child pairs. *)
Fixpoint edges (t : btree) : list (Z * Z) :=
  match t with
  | Leaf => []
  | Node l n r =>
      (from_option (λ c, [(n, c)]) [] (root l) ++ edges l) ++
      (from_option (λ c, [(n, c)]) [] (root r) ++ edges r)
  end.

(** [card_subtree] of a child, [0] when there is no child. *)
Definition child_card (card_subtree : gmap Z Z) (o : option Z) : Z :=
  match o with
  | Some c => default 0 (card_subtree !! c)
  | None => 0
  end.

Section layout.
Context {F : Type} `{!PyFloat F}.
Variables left right : gmap Z Z.

(** [c] is recorded as a child of [p]. *)
Definition child (p c : Z) : Prop :=
  left !! p = Some c ∨ right !! p = Some c.

(** No node lies on a cycle of the recorded parent/child links. *)
Definition acyclic : Prop := ∀ n, ¬ tc child n n.

(** [unfolds (Some n) t]: following [left] and [right] from [n] ends, and
    [t] is the tree met. *)
Inductive unfolds : option Z → btree → Prop :=
| unfolds_absent : unfolds None Leaf
| unfolds_node n l r :
    unfolds (left !! n) l → unfolds (right !! n) r →
    unfolds (Some n) (Node l n r).

(** No node is recorded as a child twice, be it of two parents or on both
    sides of one. *)
Definition single_parent : Prop :=
  ∀ c p1 p2 (b1 b2 : bool),
    (if b1 then left else right) !! p1 = Some c →
    (if b2 then left else right) !! p2 = Some c →
    p1 = p2 ∧ b1 = b2.

(** The mapping is a tree below [n]: it unfolds to a finite tree in which
    no node identifier occurs twice (no node has two parents). *)
Definition tree_from (n : Z) (t : btree) : Prop :=
  unfolds (Some n) t ∧ NoDup (labels t).

(** [def postorder_count(node)], the global [card_subtree] being passed in
    and handed back. *)
Fixpoint postorder_count (fuel : nat) (node : Z) (card_subtree : gmap Z Z)
    : result (gmap Z Z) :=
  match fuel with
  | O => Raise RecursionError
  | S fuel =>
      let card := 0 in
      '(card, card_subtree) ←
        match left !! node with
        | Some l =>
            card_subtree ← postorder_count fuel l card_subtree;
            c ← getitem card_subtree l;
            mret (card + c, card_subtree)
        | None => mret (card, card_subtree)
        end;
      '(card, card_subtree) ←
        match right !! node with
        | Some r =>
            card_subtree ← postorder_count fuel r card_subtree;
            c ← getitem card_subtree r;
            mret (card + c, card_subtree)
        | None => mret (card, card_subtree)
        end;
      mret (<[node := 1 + card]> card_subtree)
  end.

(** [x / n] for a float [x] and an int [n]. *)
Definition truediv (x : F) (n : Z) : result F :=
  if decide (n = 0) then Raise ZeroDivisionError
  else Ok (fdiv x (float_of_int n)).

(** [alpha = 0.01] *)
Definition alpha : F := lit_0_01.

(** [st_width * (alpha * c + (1 - alpha) * card_child / card_node)], with
    [c] the literal [.7] for a left child and [.5] for a right child. *)
Definition child_width (c : F) (st_width : F) (card_child card_node : Z)
    : result F :=
  q ← truediv (fmul (fsub (float_of_int 1) alpha) (float_of_int card_child))
              card_node;
  mret (fmul st_width (fadd (fmul alpha c) q)).

(** [curpos - (st_width - leftwidth) / 2] *)
Definition leftpos (curpos st_width leftwidth : F) : F :=
  fsub curpos (fdiv (fsub st_width leftwidth) (float_of_int 2)).

(** [curpos + (st_width - rightwidth) / 2] *)
Definition rightpos (curpos st_width rightwidth : F) : F :=
  fadd curpos (fdiv (fsub st_width rightwidth) (float_of_int 2)).

(** [def setpos(T, node, curpos, st_width, depth)].  The graph [T] is
    mutated in place in the notebook; here it is passed in and handed back.
    The cardinalities are looked up, child first, before the division. *)
Fixpoint setpos (card_subtree : gmap Z Z) (fuel : nat) (T : Nx.Graph F)
    (node : Z) (curpos st_width : F) (depth : Z) : result (Nx.Graph F) :=
  match fuel with
  | O => Raise RecursionError
  | S fuel =>
      let T := if decide (node = 1)
               then Nx.add_node node (lit_0_5, 1) T else T in
      T ← match left !! node with
          | Some l =>
              cl ← getitem card_subtree l;
              cn ← getitem card_subtree node;
              leftwidth ← child_width lit_0_7 st_width cl cn;
              let leftpos := leftpos curpos st_width leftwidth in
              let T := Nx.add_node l (leftpos, - depth) T in
              let T := Nx.add_edge node l T in
              setpos card_subtree fuel T l leftpos leftwidth (depth + 1)
          | None => mret T
          end;
      match right !! node with
      | Some r =>
          cr ← getitem card_subtree r;
          cn ← getitem card_subtree node;
          rightwidth ← child_width lit_0_5 st_width cr cn;
          let rightpos := rightpos curpos st_width rightwidth in
          let T := Nx.add_node r (rightpos, - depth) T in
          let T := Nx.add_edge node r T in
          setpos card_subtree fuel T r rightpos rightwidth (depth + 1)
      | None => mret T
      end
  end.

(** *** Vocabulary for the layout's geometry *)

(** [card_subtree] holds the number of nodes of the subtree of every node
    below [n]. *)
Definition correct_cards (card_subtree : gmap Z Z) (n : Z) : Prop :=
  ∀ m, rtc child n m →
    ∃ tm, unfolds (Some m) tm ∧
          card_subtree !! m = Some (Z.of_nat (tree_size tm)).

(** The calls [setpos(T, node, curpos, st_width, _)] that the initial call
    [setpos(T, 1, 0.5, 1, 0)] leads to. *)
Inductive called (card_subtree : gmap Z Z) : Z → F → F → Prop :=
| called_initial : called card_subtree 1 lit_0_5 (float_of_int 1)
| called_left node curpos st_width l cl cn leftwidth :
    called card_subtree node curpos st_width →
    left !! node = Some l →
    card_subtree !! l = Some cl → card_subtree !! node = Some cn →
    child_width lit_0_7 st_width cl cn = Ok leftwidth →
    called card_subtree l (leftpos curpos st_width leftwidth) leftwidth
| called_right node curpos st_width r cr cn rightwidth :
    called card_subtree node curpos st_width →
    right !! node = Some r →
    card_subtree !! r = Some cr → card_subtree !! node = Some cn →
    child_width lit_0_5 st_width cr cn = Ok rightwidth →
    called card_subtree r (rightpos curpos st_width rightwidth) rightwidth.

(** The horizontal band [[pos - w/2, pos + w/2]] of a subtree drawn at
    [pos] with width [w]. *)
Definition band_lo (pos w : F) : F := fsub pos (fdiv w (float_of_int 2)).
Definition band_hi (pos w : F) : F := fadd pos (fdiv w (float_of_int 2)).

Definition band_within (cpos cw ppos pw : F) : Prop :=
  fle (band_lo ppos pw) (band_lo cpos cw) ∧
  fle (band_hi cpos cw) (band_hi ppos pw).

(** The child [ch] of [node] is given a width that is positive and smaller
    than [st_width], and a band inside the band of [node]. *)
Definition child_step_ok (c : F) (posf : F → F → F → F)
    (card_subtree : gmap Z Z) (node ch : Z) (curpos st_width : F) : Prop :=
  ∃ cc cn cw,
    card_subtree !! ch = Some cc ∧ card_subtree !! node = Some cn ∧
    child_width c st_width cc cn = Ok cw ∧
    flt (float_of_int 0) cw ∧ flt cw st_width ∧
    band_within (posf curpos st_width cw) cw curpos st_width.

(** Every call places its node in [[0, 1]] and hands its children smaller
    positive widths and nested bands. *)
Definition bands_nest (card_subtree : gmap Z Z) : Prop :=
  ∀ node curpos st_width,
    called card_subtree node curpos st_width →
    fle (float_of_int 0) curpos ∧ fle curpos (float_of_int 1) ∧
    (∀ l, left !! node = Some l →
       child_step_ok lit_0_7 leftpos card_subtree node l curpos st_width) ∧
    (∀ r, right !! node = Some r →
       child_step_ok lit_0_5 rightpos card_subtree node r curpos st_width).

End layout.

(** *** The notebook's global state and the callback *)

(** The notebook's global variables, and the problem object [p] (of a type
    [P] this development knows nothing about: it belongs to the solver). *)
Record globals (F P : Type) := Globals {
  T : Nx.Graph F;
  card_subtree : gmap Z Z;
  pos : gmap Z (F * Z);
  left : gmap Z Z;
  right : gmap Z Z;
  nodes : gmap Z Z;
  p : P;
}.
Arguments Globals {F P}.
Arguments T {F P}.
Arguments card_subtree {F P}.
Arguments pos {F P}.
Arguments left {F P}.
Arguments right {F P}.
Arguments nodes {F P}.
Arguments p {F P}.

(** One report of the solver to the new-node callback. *)
Record event := Event { parent : Z; newnode : Z; branch : Z }.

Section callback.
Context {F : Type} `{!PyFloat F} {P : Type}.

(** The state after [T = nx.Graph()] ... [nodes = {1: 1}], with the problem
    object the solver hands out. *)
Definition initial (p0 : P) : globals F P :=
  Globals Nx.empty ∅ ∅ ∅ ∅ {[1 := 1]} p0.

Definition set_nodes (v : gmap Z Z) (g : globals F P) : globals F P :=
  Globals (T g) (card_subtree g) (pos g) (left g) (right g) v (p g).

Definition set_left (v : gmap Z Z) (g : globals F P) : globals F P :=
  Globals (T g) (card_subtree g) (pos g) v (right g) (nodes g) (p g).

Definition set_right (v : gmap Z Z) (g : globals F P) : globals F P :=
  Globals (T g) (card_subtree g) (pos g) (left g) v (nodes g) (p g).

(** [def storeBBnode(prob, Tree, parent, newnode, branch)].  The result [tt]
    is Python's [None]. *)
Definition storeBBnode (prob : P) (Tree : Nx.Graph F)
    (parent newnode branch : Z) (g : globals F P) : unit * globals F P :=
  let g := set_nodes (<[newnode := Z.of_nat (size (nodes g)) + 1]> (nodes g)) g in
  if decide (branch = 0) then
    (tt, set_left (<[parent := newnode]> (left g)) g)
  else
    (tt, set_right (<[parent := newnode]> (right g)) g).

(** The solver invokes the registered callback with the problem and with the
    object given at registration, [p.addcbnewnode(storeBBnode, T)]. *)
Definition invoke (g : globals F P) (e : event) : globals F P :=
  snd (storeBBnode (p g) (T g) (parent e) (newnode e) (branch e) g).

Definition run_events (es : list event) (g : globals F P) : globals F P :=
  foldl invoke g es.

(** *** Vocabulary for what the callback records *)

(** A report is for the left side when [branch == 0]. *)
Definition is_left (e : event) : bool := bool_decide (branch e = 0).

Definition side (b : bool) (g : globals F P) : gmap Z Z :=
  if b then left g else right g.

(** The edge of report [e] is in the dictionaries. *)
Definition recorded (g : globals F P) (e : event) : Prop :=
  side (is_left e) g !! parent e = Some (newnode e).

(** [left] and [right] contain exactly one edge per report of [es]. *)
Definition one_edge_per_event (es : list event) (g : globals F P) : Prop :=
  (∀ e, e ∈ es → recorded g e) ∧
  (size (left g) + size (right g))%nat = length es.

(** The slot of the dictionaries a report writes to. *)
Definition slot (e : event) : Z * bool := (parent e, is_left e).

(** Every reported [newnode] is an identifier not met before: it differs
    from the parent it is reported under and from the parents and new nodes
    in [seen], which collects those of the earlier reports. *)
Fixpoint fresh_newnodes (seen : gset Z) (es : list event) : Prop :=
  match es with
  | [] => True
  | e :: es =>
      (newnode e ∉ seen) ∧ (newnode e ≠ parent e) ∧
      fresh_newnodes ({[parent e; newnode e]} ∪ seen) es
  end.

(** An invocation of the callback leaves nothing behind in the notebook's
    variables. *)
Definition nothing_persists : Prop :=
  ∀ (g : globals F P) (e : event), invoke g e = g.

(** The last code cell after the two function definitions:
    [postorder_count(1)], [setpos(T, 1, 0.5, 1, 0)] and
    [pos = nx.get_node_attributes(T, 'pos')]. *)
Definition layout (fuel : nat) (g : globals F P) : result (globals F P) :=
  cs ← postorder_count (left g) (right g) fuel 1 (card_subtree g);
  T' ← setpos (left g) (right g) cs fuel (T g) 1 lit_0_5 (float_of_int 1) 0;
  mret (Globals T' cs (Nx.get_node_attributes_pos T')
                (left g) (right g) (nodes g) (p g)).

End callback.

(** *** Sample runs *)

(** A root with two children, as the solver reports them. *)
Definition two_children : list event := [Event 1 2 0; Event 1 3 1].

(** The state after these reports, with exact arithmetic and no problem
    object to speak of. *)
Definition g3 : globals Q unit := run_events two_children (initial tt).

Definition t3 : btree := Node (Node Leaf 2 Leaf) 1 (Node Leaf 3 Leaf).

(** [card_subtree] after [postorder_count(1)] on that tree. *)
Definition cards3 : gmap Z Z := <[1 := 3]> (<[3 := 1]> (<[2 := 1]> ∅)).

(** A branch into three children: the third report has [branch == 2]. *)
Definition three_children : list event :=
  [Event 1 2 0; Event 1 3 1; Event 1 4 2].

End CallbackNewnode.
Import CallbackNewnode.

(** ** The notebooks as scripts over the solver library

    Each notebook is embedded as the sequence of its statements that call
    into the solver library or that print or plot, in the order in which
    running all cells executes them.  Pure Python computations on data
    (building lists, arithmetic, string formatting, the expression
    operators of the modelling layer) are left out. *)

Module Notebooks.

Local Open Scope string_scope.

(** Calls into the solver library, by the name of the method or attribute. *)
Inductive xp_call :=
| problem                         (* obj = xp.problem(...) *)
| read
| loadproblem
| write
| addVariable
| addVariables
| getVariable
| addConstraint
| addIndicator
| getindicators
| addSOS
| delSOS
| addpwlcons
| setObjective
| addObjective
| nlpsetinitval
| addcbnewnode (callback : string)
| set_control (name : string)     (* obj.controls.name = value *)
| get_control (name : string)     (* obj.controls.name *)
| optimize
| getSolution
| get_attribute (name : string)   (* obj.attributes.name *)
| evaluate.                       (* xp.evaluate(..., problem=obj) *)

(** What a [print] or a plot shows: [Solution] for values obtained from a
    solve (solution values, objective value, statuses, the recorded search
    tree), [Info] for anything else (input data, model information,
    timings, messages). *)
Inductive content := Info | Solution.

Inductive device := Print | Plot.

Inductive stmt :=
| Call (obj : string) (c : xp_call)
| Output (d : device) (what : content) (obj : string)
| For (n : N) (body : list stmt)            (* a loop of [n] iterations *)
| If (then_ else_ : list stmt)              (* a test on a value read from the solver *)
| Try (body handler : list stmt).           (* try: ... except: ... *)

Abbreviation script := (list stmt).

(** *** The notebooks *)

(** [basic_api_examples/callback_newnode.ipynb] *)
Definition callback_newnode : script :=
  [ Call "p" problem;
    Call "p" read;                              (* p.read('mc11.mps.gz') *)
    Call "p" (addcbnewnode "storeBBnode");      (* p.addcbnewnode(storeBBnode, T) *)
    Call "p" (set_control "maxnode");           (* p.controls.maxnode = 10 *)
    Call "p" (set_control "threads");           (* p.controls.threads = 1 *)
    Call "p" optimize;
    (* postorder_count(1); setpos(T, 1, 0.5, 1, 0); nx.draw(...); plt.show() *)
    Output Plot Solution "p" ].

(** [basic_api_examples/indicators.ipynb] *)
Definition indicators : script :=
  [ Call "p" problem;
    Call "p" (set_control "miprelstop");
    Call "p" addVariable; Call "p" addVariable;
    Call "p" addVariable; Call "p" addVariable;
    Call "p" addIndicator;
    Call "p" addIndicator;
    Call "p" getindicators;
    Output Print Info "p";
    Call "p" setObjective;
    Call "p" optimize;
    Call "p" getSolution; Call "p" getSolution; Call "p" getSolution;
    Call "p" (get_attribute "objval");
    Output Print Solution "p" ].

(** [basic_api_examples/logic_cons.ipynb] *)
Definition logic_cons : script :=
  [ Call "p" problem;
    For 10 [ Call "p" addVariable ];
    Call "p" addConstraint;
    Call "p" (set_control "timelimit");
    Call "p" optimize;
    Call "p" getSolution;
    Output Print Solution "p" ].

(** [basic_api_examples/write_read.ipynb] *)
Definition write_read : script :=
  [ Call "p" problem;
    Call "p" addVariable; Call "p" addVariable; Call "p" addVariable;
    Call "p" addVariable; Call "p" addVariable;
    Call "p" setObjective;
    Call "p" addConstraint;
    Call "p" write;
    Call "p2" problem;
    Call "p2" read;
    Call "p2" optimize;
    Call "p2" (get_attribute "objval");
    Output Print Solution "p2";
    Call "p2" getSolution;
    Output Print Solution "p2" ].

(** [modeling_examples/bin_packing.ipynb] *)
Definition bin_packing : script :=
  [ Call "p" problem;
    Call "p" addVariables; Call "p" addVariables;
    Call "p" setObjective;
    Call "p" addConstraint; Call "p" addConstraint;
    Call "p" (set_control "outputlog");
    Call "p" optimize;
    Call "p" getSolution; Call "p" getSolution;
    Output Print Solution "p";
    For 11 [ If [ Output Print Solution "p" ] [] ];     (* if used[b]: print *)
    Output Plot Solution "p" ].

(** [modeling_examples/circle_packing.ipynb] *)
Definition circle_packing : script :=
  [ Call "p" problem;
    Call "p" addVariables; Call "p" addVariables; Call "p" addVariables;
    Call "p" addConstraint; Call "p" addConstraint; Call "p" addConstraint;
    Call "p" addConstraint; Call "p" addConstraint;
    Call "p" setObjective;
    Call "p" (set_control "feastol");
    Call "p" (set_control "timelimit");
    Call "p" (set_control "nlpsolver");
    Call "p" optimize;
    Call "p" getSolution; Call "p" getSolution; Call "p" getSolution;
    Call "p" (get_attribute "objval");
    Output Print Solution "p";
    For 6 [ Output Print Solution "p" ];
    Call "p" (get_attribute "objval");
    Output Print Solution "p";
    Output Plot Solution "p" ].

(** [modeling_examples/markowitz_multiobj.ipynb] *)
Definition markowitz_multiobj : script :=
  [ Call "p" problem;
    Call "p" addVariables;
    Call "p" addVariable;
    Call "p" addConstraint;
    Call "p" setObjective;
    Call "p" addObjective;
    For 100 [ Call "p" setObjective; Call "p" setObjective;
              Call "p" optimize;
              Call "p" getSolution; Call "p" getSolution ];
    Output Plot Solution "p";
    Call "p" setObjective; Call "p" setObjective;
    Call "p" optimize;
    Call "p" getSolution; Call "p" getSolution;
    Output Plot Solution "p" ].

(** [modeling_examples/max_flow.ipynb] *)
Definition max_flow : script :=
  [ Call "p" problem;
    Call "p" addVariables;
    Call "p" setObjective;
    Call "p" addConstraint; Call "p" addConstraint; Call "p" addConstraint;
    Call "p" (set_control "outputlog");
    Call "p" optimize;
    Call "p" (get_attribute "objval");
    Output Print Solution "p";
    Call "p" getSolution;
    For 11 [ If [ Output Print Solution "p" ] [] ];     (* one line per path *)
    Output Plot Solution "p" ].

(** [modeling_examples/pairwise_distance.ipynb] *)
Definition pairwise_distance : script :=
  [ Call "p" problem;
    Call "p" addVariables;
    Call "p" addVariable; Call "p" addVariable; Call "p" addVariable;
    Call "p" addConstraint; Call "p" addConstraint;
    Call "p" addConstraint; Call "p" addConstraint;
    Call "p" setObjective;
    Call "p" (set_control "timelimit");
    Call "p" optimize;
    Call "p" (get_attribute "solstatus");
    If [ Call "p" getSolution; Output Print Solution "p";
         Call "p" getSolution; Call "p" getSolution;
         Output Print Solution "p";
         Call "p" getSolution;
         For 12 [ For 3 [ Output Print Solution "p" ] ] ]
       [ Output Print Info "p" ];                 (* "No solution found ..." *)
    Call "p" getSolution;
    Output Print Solution "p";
    Call "p" (get_control "feastol");
    For 12 [ For 12 [ Call "p" getSolution ] ];
    Output Plot Solution "p";
    Call "p" (get_control "feastol");
    For 132 [ Call "p" getSolution ];             (* the pairs with i != j *)
    Output Plot Solution "p" ].

(** [modeling_examples/sudoku.ipynb]; the second copy of the notebook in
    the sources makes the same calls. *)
Definition sudoku : script :=
  [ Call "prob" problem;
    Call "prob" addVariables;
    Call "prob" addConstraint; Call "prob" addConstraint;
    Call "prob" addConstraint; Call "prob" addConstraint;
    Call "prob" addConstraint;
    Call "prob" optimize;
    Call "prob" getSolution;
    Output Plot Solution "prob" ].

(** [print_sol(prob)] of [unitcommitment_indicators.ipynb], with its 25
    units and 7 periods. *)
Definition print_sol (prob : string) : script :=
  [ Output Print Info prob;
    For 7 [ Output Print Info prob ];
    For 25
      [ Output Print Info prob;
        For 7 [ Call prob getSolution; Output Print Solution prob ];
        Output Print Info prob;
        For 7 [ Call prob getSolution;
                If [ Output Print Solution prob ]
                   [ Call prob getSolution;
                     If [ Output Print Solution prob ]
                        [ Output Print Solution prob ] ] ];
        Output Print Info prob;
        For 7 [ Call prob getSolution; Output Print Solution prob ];
        Output Print Info prob;
        For 7 [ Call prob getSolution; Output Print Solution prob ] ] ].

(** [plot_sol(prob)]: per generator type (10, 4, 8 and 3 units) and
    period, the units of the type are asked for their state and, when
    working, for their output. *)
Definition plot_sol (prob : string) : script :=
  let unit := [ Call prob getSolution; If [ Call prob getSolution ] [] ] in
  [ For 7 [ For 10 unit ];
    For 7 [ For 4 unit ];
    For 7 [ For 8 unit ];
    For 7 [ For 3 unit ];
    Output Plot Solution prob ].

(** [modeling_examples/unitcommitment_indicators.ipynb] *)
Definition unitcommitment_indicators : script :=
  [ Call "p" problem;
    Call "p" addVariables; Call "p" addVariables;
    Call "p" addVariables; Call "p" addVariables;
    Call "p" addConstraint; Call "p" addConstraint; Call "p" addConstraint;
    Call "p" addConstraint; Call "p" addConstraint; Call "p" addConstraint;
    Call "p" addConstraint;
    Call "p" setObjective;
    Call "p" optimize;
    Call "p" getSolution; Output Print Solution "p";
    Call "p" getSolution; Output Print Solution "p";
    Call "p" (get_attribute "objval"); Output Print Solution "p" ]
  ++ print_sol "p" ++ plot_sol "p" ++
  [ For 25 [ For 7 [ Call "p" addIndicator; Call "p" addIndicator ] ];
    Call "p" (set_control "outputlog");
    Call "p" optimize;
    Call "p" getSolution; Output Print Solution "p";
    Call "p" getSolution; Output Print Solution "p";
    Call "p" (get_attribute "objval"); Output Print Solution "p" ]
  ++ print_sol "p" ++ plot_sol "p".

(** [numpy_arrays.ipynb] *)
Definition numpy_arrays : script :=
  [ Call "p" problem;
    Call "p" addVariables;
    Call "p" addConstraint;
    Call "p" setObjective;
    Call "p" optimize;
    Call "p" write ].

(** [modeling.ipynb] *)
Definition modeling : script :=
  [ Call "p" problem;
    For 4 [ Call "p" addVariable ];
    Call "p" addVariable; Call "p" addVariable; Call "p" addVariable;
    Call "p" addConstraint;
    Call "p" setObjective;
    Call "p" optimize;
    (* if solvestatus == xp.SolveStatus.COMPLETED: print(...) else: print(...) *)
    If [ Output Print Solution "p" ] [ Output Print Solution "p" ];
    Call "p" getSolution;
    Output Print Solution "p" ].

(** [loadlp.ipynb] *)
Definition loadlp : script :=
  [ Call "p" problem;
    Call "p" loadproblem;
    Call "p" write;
    Call "p" optimize;
    Call "p" getVariable;
    Call "p" setObjective;
    Call "p" optimize;
    Call "p" write ].

(** [sos.ipynb] *)
Definition sos : script :=
  [ Call "m" problem;
    Call "m" (set_control "miprelstop");
    Call "m" addVariable; Call "m" addVariable;
    For 2 [ Call "m" addVariable ];
    Call "m" addConstraint;
    Call "m" addSOS;
    Output Print Info "m";
    Call "m" setObjective;
    Call "m" optimize;
    Call "m" getSolution; Call "m" getSolution; Call "m" getSolution;
    Call "m" (get_attribute "objval");
    Output Print Solution "m";
    Call "m" write;
    Call "m" delSOS;
    Call "m" write;
    Call "m" optimize ].

(** [load_problem.ipynb]: both [p.optimize()] lines are commented out. *)
Definition load_problem : script :=
  [ Call "p" problem;
    Call "p" loadproblem;
    Output Print Info "p";                      (* model building time *)
    Call "p" problem;
    For 1000000 [ Call "p" addVariable ];
    Call "p" addConstraint;
    Call "p" setObjective;
    Output Print Info "p" ].                    (* model building time *)

(** [piecewise_linear.ipynb] *)
Definition piecewise_linear : script :=
  [ Call "p" problem;
    Call "p" addVariable; Call "p" addVariable;
    Call "p" addpwlcons;
    Call "p" setObjective;
    Call "p" optimize;
    Call "p" getSolution; Output Print Solution "p";
    Call "p" evaluate; Output Print Solution "p";
    Call "p" (get_attribute "objval"); Output Print Solution "p";
    Call "p" getSolution; Call "p" getSolution;
    Output Plot Solution "p";
    Call "p" problem;
    Call "p" addVariable;
    Call "p" setObjective;
    Call "p" optimize;
    Call "p" getSolution; Output Print Solution "p";
    Call "p" evaluate; Output Print Solution "p";
    Call "p" (get_attribute "objval"); Output Print Solution "p";
    Call "p" getSolution; Call "p" getSolution;
    Output Plot Solution "p" ].

(** [inscribed_square.ipynb] *)
Definition inscribed_square : script :=
  [ Call "p" problem;
    Call "p" addVariable; Call "p" addVariable;
    Call "p" addVariable; Call "p" addVariable;
    Call "p" addVariable; Call "p" addVariable;
    Call "p" addVariable; Call "p" addVariable;
    Call "p" nlpsetinitval;
    Call "p" addConstraint; Call "p" addConstraint;
    Call "p" addConstraint; Call "p" addConstraint;
    Call "p" addConstraint; Call "p" addConstraint;
    Call "p" addConstraint; Call "p" addConstraint;
    Call "p" setObjective;
    Call "p" (set_control "nlpsolver");
    Call "p" (set_control "localsolver");
    Call "p" optimize;
    Call "p" getSolution; Call "p" getSolution;
    Call "p" getSolution; Call "p" getSolution;
    Output Plot Solution "p";
    Call "p" getSolution; Call "p" getSolution;
    Call "p" getSolution; Call "p" getSolution;
    Call "p" getSolution; Call "p" getSolution;
    Call "p" getSolution; Call "p" getSolution;
    Output Print Solution "p" ].

(** [firestation_scipy.ipynb] *)
Definition firestation_scipy : script :=
  [ Output Print Info "p"; Output Print Info "p";
    Call "p" problem;
    Call "p" addVariables;
    Call "p" addConstraint;
    Call "p" setObjective;
    Call "p" (set_control "outputlog");
    Call "p" optimize;
    Call "p" write;
    Call "p" (get_attribute "objval");
    Output Print Solution "p";
    For 6 [ Call "p" getSolution ];
    Output Print Solution "p";
    Output Print Info "p"; Output Print Info "p";
    Call "p" problem;
    Call "p" addVariables;
    Call "p" addConstraint;
    Output Print Info "p";
    Call "p" addConstraint;
    Output Print Info "p" ].

(** [n_queens.ipynb] *)
Definition n_queens : script :=
  [ Call "prob" problem;
    Call "prob" addVariables;
    Call "prob" setObjective;
    Call "prob" addConstraint; Call "prob" addConstraint;
    Call "prob" addConstraint;
    Call "prob" optimize;
    Call "prob" (get_attribute "objval");
    Output Print Solution "prob";
    Call "prob" getSolution;
    For 8 [ For 8 [ If [ Output Print Solution "prob" ] [] ] ];
    Output Plot Solution "prob" ].

(** The notebooks of the sources, by name. *)
Definition all_notebooks : list (string * script) :=
  [ ("callback_newnode", callback_newnode);
    ("indicators", indicators);
    ("logic_cons", logic_cons);
    ("write_read", write_read);
    ("bin_packing", bin_packing);
    ("circle_packing", circle_packing);
    ("markowitz_multiobj", markowitz_multiobj);
    ("max_flow", max_flow);
    ("pairwise_distance", pairwise_distance);
    ("sudoku", sudoku);
    ("sudoku_copy", sudoku);
    ("unitcommitment_indicators", unitcommitment_indicators);
    ("numpy_arrays", numpy_arrays);
    ("modeling", modeling);
    ("loadlp", loadlp);
    ("sos", sos);
    ("load_problem", load_problem);
    ("piecewise_linear", piecewise_linear);
    ("inscribed_square", inscribed_square);
    ("firestation_scipy", firestation_scipy);
    ("n_queens", n_queens) ].

(** *** Running a script against the solver

    The library is a black box: its [k]-th call returns or raises, and the
    [j]-th test on a value it returned goes one way or the other. *)

Section exec.
Context {E : Type}.

Record solver := Solver {
  raises : nat → option E;
  test : nat → bool;
}.

Record run_state := RunState { ncalls : nat; ntests : nat }.

(** The state reached, and the exception in flight if there is one. *)
Definition outcome : Type := run_state * option E.

Definition exec_seq (exec : stmt → run_state → outcome)
    : script → run_state → outcome :=
  fix go (l : script) (st : run_state) : outcome :=
    match l with
    | [] => (st, None)
    | s :: l =>
        match exec s st with
        | (st, None) => go l st
        | failed => failed
        end
    end.

Fixpoint exec (w : solver) (s : stmt) (st : run_state) : outcome :=
  match s with
  | Call _ _ => (RunState (S (ncalls st)) (ntests st), raises w (ncalls st))
  | Output _ _ _ => (st, None)
  | For n body =>
      N.iter n (λ r : outcome,
                  match r with
                  | (st, None) => exec_seq (exec w) body st
                  | failed => failed
                  end) (st, None)
  | If then_ else_ =>
      let st' := RunState (ncalls st) (S (ntests st)) in
      if test w (ntests st) then exec_seq (exec w) then_ st'
      else exec_seq (exec w) else_ st'
  | Try body handler =>
      match exec_seq (exec w) body st with
      | (st, Some _) => exec_seq (exec w) handler st
      | returned => returned
      end
  end.

Definition run (w : solver) (s : script) : outcome :=
  exec_seq (exec w) s (RunState 0 0).

(** [r] is reached from [st] by calls of which only the last may have
    raised, and then it raised what [r] carries: an exception in flight is
    the one raised by the last call made, no call before it raised, and
    without an exception in flight no call raised at all. *)
Definition reached (w : solver) (st : run_state) (r : outcome) : Prop :=
  (ncalls st ≤ ncalls r.1)%nat ∧
  match r.2 with
  | Some e =>
      (ncalls st < ncalls r.1)%nat ∧
      raises w (ncalls r.1 - 1) = Some e ∧
      ∀ k, (ncalls st ≤ k < ncalls r.1 - 1)%nat → raises w k = None
  | None => ∀ k, (ncalls st ≤ k < ncalls r.1)%nat → raises w k = None
  end.

(** The outcome of the script is what the library did, whatever that is
    and wherever the script is started. *)
Definition propagates (s : script) : Prop :=
  ∀ w st, reached w st (exec_seq (exec w) s st).

End exec.
Arguments solver E : clear implicits.

(** No [try] statement anywhere in the script. *)
Fixpoint handler_free (s : stmt) : bool :=
  match s with
  | Call _ _ | Output _ _ _ => true
  | For _ body => forallb handler_free body
  | If a b => forallb handler_free a && forallb handler_free b
  | Try _ _ => false
  end.

(** The callbacks a script registers. *)
Fixpoint callbacks (s : stmt) : list string :=
  match s with
  | Call _ (addcbnewnode f) => [f]
  | Call _ _ | Output _ _ _ => []
  | For _ body => flat_map callbacks body
  | If a b => flat_map callbacks a ++ flat_map callbacks b
  | Try a b => flat_map callbacks a ++ flat_map callbacks b
  end.

(** *** Load, solve, report

    A problem object is [Empty] when created, [Built] once a model has
    been loaded or built into it or changed, and [Solved] after
    [optimize]. *)

Inductive phase := Empty | Built | Solved.

Inductive call_kind := Creates | Builds | Solves | ReadsSolution | Neutral.

Definition kind (c : xp_call) : call_kind :=
  match c with
  | problem => Creates
  | read | loadproblem | addVariable | addVariables | addConstraint
  | addIndicator | addSOS | delSOS | addpwlcons | setObjective
  | addObjective => Builds
  | optimize => Solves
  | getSolution | evaluate | get_attribute _ => ReadsSolution
  | write | getVariable | getindicators | nlpsetinitval | addcbnewnode _
  | set_control _ | get_control _ => Neutral
  end.

Record progress := Progress {
  phases : gmap string phase;
  solved_once : bool;
  reported_once : bool;
}.

Definition start : progress := Progress ∅ false false.

Definition phase_meet (a b : phase) : phase :=
  match a, b with
  | Solved, Solved => Solved
  | Empty, _ | _, Empty => Empty
  | _, _ => Built
  end.

(** What is known after either of two branches. *)
Definition meet (a b : progress) : progress :=
  Progress (intersection_with (λ x y, Some (phase_meet x y)) (phases a) (phases b))
           (solved_once a && solved_once b)
           (reported_once a && reported_once b).

Definition scan_seq (scan : stmt → progress → option progress)
    : script → progress → option progress :=
  fix go (l : script) (g : progress) : option progress :=
    match l with
    | [] => Some g
    | s :: l => g ← scan s g; go l g
    end.

(** [scan s g] follows [s] on all its paths; it is [None] when the solver
    is invoked on a problem without a model, or a solution is read, printed
    or plotted from a problem that is not solved ([try] statements are not
    followed: no notebook has one). *)
Fixpoint scan (s : stmt) (g : progress) : option progress :=
  match s with
  | Call obj c =>
      match kind c with
      | Creates =>
          Some (Progress (<[obj := Empty]> (phases g))
                         (solved_once g) (reported_once g))
      | Builds =>
          Some (Progress (<[obj := Built]> (phases g))
                         (solved_once g) (reported_once g))
      | Solves =>
          match phases g !! obj with
          | Some Built | Some Solved =>
              Some (Progress (<[obj := Solved]> (phases g))
                             true (reported_once g))
          | _ => None
          end
      | ReadsSolution =>
          match phases g !! obj with
          | Some Solved => Some g
          | _ => None
          end
      | Neutral => Some g
      end
  | Output _ Info _ => Some g
  | Output _ Solution obj =>
      match phases g !! obj with
      | Some Solved => Some (Progress (phases g) (solved_once g) true)
      | _ => None
      end
  | For n body => N.iter n (λ r, g ← r; scan_seq scan body g) (Some g)
  | If a b =>
      ga ← scan_seq scan a g; gb ← scan_seq scan b g; Some (meet ga gb)
  | Try _ _ => None                           (* not followed *)
  end.

(** The script loads or builds a model, then invokes the solver, then
    prints or plots a solution, on every path. *)
Definition load_solve_report (s : script) : bool :=
  match scan_seq scan s start with
  | Some g => solved_once g && reported_once g
  | None => false
  end.

(** Nothing is out of order: the solver is only invoked on a model, and
    solutions are only read and shown once solved. *)
Definition in_order (s : script) : bool :=
  bool_decide (is_Some (scan_seq scan s start)).

Definition invokes_solver (s : script) : bool :=
  match scan_seq scan s start with
  | Some g => solved_once g
  | None => false
  end.

End Notebooks.
Import Notebooks.

(** * The other notebooks

    The modelling notebooks hand the solver variables and constraints that
    they generate with comprehensions over index ranges, and they
    post-process the solution the solver returns with loops of their own.
    What the solver does is not this repository's code; which variables each
    constraint sums, and what the loops compute from a solution, is.  A
    constraint [xp.Sum(x[...] for ...) <= 1], or [== 1], is embedded as the
    list of the index tuples it sums, in the order of the comprehension; a
    solution is a dictionary or an array of [float]s as the solver returns
    it. *)

(** ** More of Python: ranges, list indexing, more exceptions *)

Module Python.

Inductive exc :=
  IndexError | KeyError | ZeroDivisionError | ValueError | UnboundLocalError.

Inductive res (A : Type) :=
| Val (a : A)
| Exc (e : exc).
Arguments Val {A} a.
Arguments Exc {A} e.

#[global] Instance res_ret : MRet res := @Val.

#[global] Instance res_bind : MBind res := λ A B k r,
  match r with
  | Val a => k a
  | Exc e => Exc e
  end.

(** [range(a, b)], empty when [b <= a]. *)
Definition range (a b : Z) : list Z := seqZ a (b - a).

(** The position [l[i]] stands for: a negative index counts from the end;
    [None] when it is out of range. *)
Definition position {A} (l : list A) (i : Z) : option nat :=
  let n := Z.of_nat (length l) in
  let i := if decide (i < 0) then i + n else i in
  if decide (0 ≤ i < n) then Some (Z.to_nat i) else None.

(** [l[i]] *)
Definition item {A} (l : list A) (i : Z) : res A :=
  match position l i with
  | Some k => from_option Val (Exc IndexError) (l !! k)
  | None => Exc IndexError
  end.

(** [l[i] = x] *)
Definition setitem {A} (l : list A) (i : Z) (x : A) : res (list A) :=
  match position l i with
  | Some k => Val (<[k := x]> l)
  | None => Exc IndexError
  end.

(** [d[k]] for a dictionary. *)
Definition lookup_key `{Countable K} {A} (d : gmap K A) (k : K) : res A :=
  from_option Val (Exc KeyError) (d !! k).

(** [max(l)], which raises [ValueError] on an empty sequence. *)
Definition max_of (l : list Z) : res Z :=
  match l with
  | [] => Exc ValueError
  | x :: l => Val (foldr Z.max x l)
  end.

(** A loop [for x in l: ...] over a state, stopped by an exception. *)
Definition for_each {A S} (body : S → A → res S) (l : list A) (s : S)
    : res S :=
  foldl (λ r x, s ← r; body s x) (Val s) l.

End Python.

(** ** [n_queens.ipynb] *)

Module NQueens.
Import Python.

(** [xp.Sum(place[i,j] for j in N) <= 1 for i in N] *)
Definition rows (n : Z) : list (list (Z * Z)) :=
  (λ i, (λ j, (i, j)) <$> range 0 n) <$> range 0 n.

(** [xp.Sum(place[i,j] for i in N) <= 1 for j in N] *)
Definition columns (n : Z) : list (list (Z * Z)) :=
  (λ j, (λ i, (i, j)) <$> range 0 n) <$> range 0 n.

(** [[xp.Sum(place[k-j, j] for j in range(max(0, k-n+1), min(k+1, n))) <= 1
      for k in range(1, 2*n-2)]] *)
Definition diagonal1 (n : Z) : list (list (Z * Z)) :=
  (λ k, (λ j, (k - j, j)) <$> range (Z.max 0 (k - n + 1)) (Z.min (k + 1) n))
    <$> range 1 (2 * n - 2).

(** [[xp.Sum(place[k+j, j] for j in range(max(0, -k), min(n-k, n))) <= 1
      for k in range(2-n, n-1)]] *)
Definition diagonal2 (n : Z) : list (list (Z * Z)) :=
  (λ k, (λ j, (k + j, j)) <$> range (Z.max 0 (- k)) (Z.min (n - k) n))
    <$> range (2 - n) (n - 1).

(** All the constraints the notebook adds, each as the cells it sums. *)
Definition constraints (n : Z) : list (list (Z * Z)) :=
  rows n ++ columns n ++ diagonal1 n ++ diagonal2 n.

(** A value of the binary variables: where the queens are. *)
Definition placement := Z * Z → bool.

(** [xp.Sum(cells) <= 1] holds: at most one of the cells has a queen. *)
Definition at_most_one (queen : placement) (cells : list (Z * Z)) : Prop :=
  (length (filter (λ c, queen c = true) cells) ≤ 1)%nat.

Definition on_board (n : Z) (c : Z * Z) : Prop :=
  0 ≤ c.1 < n ∧ 0 ≤ c.2 < n.

(** Two cells from which queens attack each other: on one row, one column
    or one diagonal. *)
Definition attack (a b : Z * Z) : Prop :=
  a.1 = b.1 ∨ a.2 = b.2 ∨ a.1 + a.2 = b.1 + b.2 ∨ a.1 - a.2 = b.1 - b.2.

End NQueens.

(** ** [max_flow.ipynb] *)

Module MaxFlow.

(** The loop that makes the arcs bidirectional:
    [for u, v in base_arcs: ARCS.append((u, v)); ARCS.append((v, u))]. *)
Definition arcs (base_arcs : list (Z * Z)) : list (Z * Z) :=
  foldl (λ ARCS '(u, v), (ARCS ++ [(u, v)]) ++ [(v, u)]) [] base_arcs.

(** [sol.get((a, b)) is not None and sol.get((a, b)) > 0.5], for [sol] the
    dictionary [p.getSolution(flow)], whose keys are the keys of [flow]. *)
Definition carries (sol : gmap (Z * Z) float) (a b : Z) : bool :=
  match sol !! (a, b) with
  | Some v => PrimFloat.ltb 0.5 v
  | None => false
  end.

(** The loop [for m in NODES: if ...: path.append(m); curr = m; break]
    finds the first node of [NODES] that an arc with flow leads to. *)
Definition next_node (NODES : list Z) (sol : gmap (Z * Z) float) (curr : Z)
    : option Z :=
  head (filter (λ m, carries sol curr m = true) NODES).

(** The loop [while curr != SINK: ...].  [fuel] bounds the number of its
    iterations; [None] means that the loop is still running. *)
Fixpoint follow (fuel : nat) (NODES : list Z) (SINK : Z)
    (sol : gmap (Z * Z) float) (path : list Z) (curr : Z)
    : option (list Z) :=
  if decide (curr = SINK) then Some path
  else
    match fuel with
    | O => None
    | S fuel =>
        match next_node NODES sol curr with
        | Some m => follow fuel NODES SINK sol (path ++ [m]) m
        | None => follow fuel NODES SINK sol path curr
        end
    end.

(** The loop [for n in NODES: if (SOURCE, n) in flow and
    sol[(SOURCE, n)] > 0.5: ...; paths.append(path)]. *)
Definition extract_paths (fuel : nat) (NODES : list Z) (SOURCE SINK : Z)
    (sol : gmap (Z * Z) float) : option (list (list Z)) :=
  foldl (λ acc n,
           paths ← acc;
           if carries sol SOURCE n then
             path ← follow fuel NODES SINK sol [SOURCE; n] n;
             Some (paths ++ [path])
           else Some paths)
        (Some []) NODES.

(** The nodes the [while] loop goes through from [curr], when it ends. *)
Inductive trail (NODES : list Z) (SINK : Z) (sol : gmap (Z * Z) float)
    : Z → list Z → Prop :=
| trail_end : trail NODES SINK sol SINK []
| trail_step curr m ms :
    curr ≠ SINK → next_node NODES sol curr = Some m →
    trail NODES SINK sol m ms → trail NODES SINK sol curr (m :: ms).

End MaxFlow.

(** ** [facility_location.ipynb]: what [draw_sol] draws

    The notebook follows [max_flow.ipynb] in the file of that name.  Of
    [draw_sol(n, m, prob, x, y)] the edges [E] and the list [node_col] of
    node colours are embedded; the coordinates and the drawing itself belong
    to numpy and networkx.  The notebook calls the function in two ways:
    [draw_sol(n, m)], here [sol = None], and
    [draw_sol(n, m, prob, serves, build)] after a solve, here [sol] holding
    [xsol = prob.getSolution(serves)] and [ysol = prob.getSolution(build)],
    dictionaries with the keys of [serves] and [build]. *)

Module FacilityLocation.
Import Python.

(** ['#5555ff'], ['#ff5555'] and ['#a0a0a0'] *)
Inductive colour := Blue | Red | Grey.

(** The colour the merged dictionary has for a site of value [v] after a
    solve: the grey entry, from the last dictionary, before the red one. *)
Definition site_colour (v : float) : option colour :=
  if PrimFloat.ltb v 0.5 then Some Grey
  else if PrimFloat.ltb 0.5 v then Some Red
  else None.

Record solution := Solution {
  xsol : gmap (Z * Z) float;
  ysol : gmap Z float;
}.

(** A comprehension [{key(j): value(j) for j in js if cond(j)}]: [entry j]
    is the key and value of [j], or [None] when the condition fails. *)
Definition dict_of {A} (js : list Z) (entry : Z → res (option (Z * A)))
    : res (gmap Z A) :=
  for_each (λ d j, e ← entry j;
                   Val (match e with Some (k, a) => <[k := a]> d | None => d end))
           js ∅.

(** A comprehension [[f(i) for i in js]]. *)
Definition list_of {A} (js : list Z) (f : Z → res A) : res (list A) :=
  for_each (λ l j, a ← f j; Val (l ++ [a])) js [].

Section draw_sol.
(** The globals [num_schools] and [num_sites], with
    [SCHOOLS = range(num_schools)] and [SITES = range(num_sites)]. *)
Variables (num_schools num_sites : Z).

Definition SCHOOLS : list Z := range 0 num_schools.
Definition SITES : list Z := range 0 num_sites.

(** [E = []], and with a solution
    [E = [(i, n + j) for i in SCHOOLS for j in SITES if xsol[i,j] > 0.5]]. *)
Definition E (n : Z) (sol : option solution) : res (list (Z * Z)) :=
  match sol with
  | None => Val []
  | Some s =>
      for_each (λ E i,
        for_each (λ E j,
          v ← lookup_key (xsol s) (i, j);
          Val (if PrimFloat.ltb 0.5 v then E ++ [(i, n + j)] else E))
          SITES E)
        SCHOOLS []
  end.

(** [{i: '#5555ff' for i in SCHOOLS}] *)
Definition node_colS : res (gmap Z colour) :=
  dict_of SCHOOLS (λ i, Val (Some (i, Blue))).

(** [{n + j: '#ff5555' for j in SITES if y and ysol[j] > 0.5}] *)
Definition node_colA1 (n : Z) (sol : option solution) : res (gmap Z colour) :=
  dict_of SITES (λ j,
    match sol with
    | None => Val None
    | Some s =>
        v ← lookup_key (ysol s) j;
        Val (if PrimFloat.ltb 0.5 v then Some (n + j, Red) else None)
    end).

(** [{n + j: '#a0a0a0' for j in SITES if not y or ysol[j] < 0.5}] *)
Definition node_colA0 (n : Z) (sol : option solution) : res (gmap Z colour) :=
  dict_of SITES (λ j,
    match sol with
    | None => Val (Some (n + j, Grey))
    | Some s =>
        v ← lookup_key (ysol s) j;
        Val (if PrimFloat.ltb v 0.5 then Some (n + j, Grey) else None)
    end).

(** [node_col = {**node_colS, **node_colA1, **node_colA0}] and
    [node_col = [node_col[i] for i in range(n+m)]]; in a merged dictionary
    the later entry for a key wins. *)
Definition node_col (n m : Z) (sol : option solution) : res (list colour) :=
  dS ← node_colS;
  dA1 ← node_colA1 n sol;
  dA0 ← node_colA0 n sol;
  let node_col := dA0 ∪ dA1 ∪ dS in
  list_of (range 0 (n + m)) (lookup_key node_col).

End draw_sol.

End FacilityLocation.

(** ** [load_problem.ipynb]: from the column-wise arrays to row expressions *)

Module LoadProblem.
Import Python.

(** A linear expression built by [+=] from [0]: its terms [coef * variable]
    in the order in which they were added. *)
Abbreviation linexpr Var := (list (Z * Var)).

Section rows.
Context {Var : Type}.

(** [expr[rowind[i]] += rowcoef[i] * x[cnt]] *)
Definition add_entry (rowind rowcoef : list Z) (x : list Var) (cnt : Z)
    (expr : list (linexpr Var)) (i : Z) : res (list (linexpr Var)) :=
  r ← item rowind i;
  e ← item expr r;
  c ← item rowcoef i;
  v ← item x cnt;
  setitem expr r (e ++ [(c, v)]).

(** The body of [for j in start[:len(start)-1]]:
    [for i in range(start[cnt], start[cnt+1]): ...] and [cnt += 1]. *)
Definition add_column (start rowind rowcoef : list Z) (x : list Var)
    (st : list (linexpr Var) * Z) (j : Z) : res (list (linexpr Var) * Z) :=
  let '(expr, cnt) := st in
  lo ← item start cnt;
  hi ← item start (cnt + 1);
  expr ← for_each (add_entry rowind rowcoef x cnt) (range lo hi) expr;
  Val (expr, cnt + 1).

(** [expr = [0 for _ in range(C)]; cnt = 0; for j in start[:len(start)-1]:
    ...] of the cell that builds the model with the high-level interface. *)
Definition build_rows (C : Z) (start rowind rowcoef : list Z) (x : list Var)
    : res (list (linexpr Var)) :=
  let expr := replicate (Z.to_nat C) [] in
  st ← for_each (add_column start rowind rowcoef x)
                (take (length start - 1) start) (expr, 0);
  Val st.1.

(** *** The matrix the arrays stand for *)

(** The entry at position [i] of the arrays, in column [v]: its row, its
    coefficient and the variable of the column. *)
Definition entry (rowind rowcoef : list Z) (v : Var) (i : Z)
    : option (Z * (Z * Var)) :=
  r ← rowind !! Z.to_nat i; k ← rowcoef !! Z.to_nat i; Some (r, (k, v)).

(** The entries of column [c]: those at the positions from [start[c]] up to
    [start[c+1]]. *)
Definition column_entries (start rowind rowcoef : list Z) (x : list Var)
    (c : nat) : list (Z * (Z * Var)) :=
  match start !! c, start !! S c, x !! c with
  | Some lo, Some hi, Some v => omap (entry rowind rowcoef v) (range lo hi)
  | _, _, _ => []
  end.

(** The terms of row [r], column by column. *)
Definition row_terms (r : Z) (es : list (Z * (Z * Var))) : linexpr Var :=
  snd <$> filter (λ e, e.1 = r) es.

(** The arrays describe a matrix with [C] rows and one column per variable:
    every position of a column is a position of [rowind] and of [rowcoef],
    and names a row. *)
Definition well_formed (C : Z) (start rowind rowcoef : list Z) (x : list Var)
    : Prop :=
  length start = S (length x) ∧
  ∀ (c : nat) lo hi i,
    start !! c = Some lo → start !! S c = Some hi → lo ≤ i < hi →
    0 ≤ i ∧ ∃ r k, rowind !! Z.to_nat i = Some r ∧
                   rowcoef !! Z.to_nat i = Some k ∧ 0 ≤ r < C.

End rows.

End LoadProblem.

(** ** [unitcommitment_indicators.ipynb]: units and their types *)

Module UnitCommitment.
Import Python.

(** [TYPE = [i for i in TYPES for p in range(AVAIL[i])]], with
    [TYPES = range(ntypes)]. *)
Definition unit_types (ntypes : Z) (AVAIL : list Z) : res (list Z) :=
  for_each (λ TYPE i, a ← item AVAIL i; Val (TYPE ++ replicate (Z.to_nat a) i))
           (range 0 ntypes) [].

(** [sum(AVAIL)] *)
Definition total (AVAIL : list Z) : Z := foldr Z.add 0 AVAIL.

(** [UNITS = range(sum(AVAIL))] *)
Definition units (AVAIL : list Z) : list Z := range 0 (total AVAIL).

End UnitCommitment.

(** ** [pairwise_distance.ipynb]: the coordinates of each point *)

Module PairwiseDistance.
Import Python.

Section points.
Context {V : Type}.

(** [max(d for _, d in xsol.keys()) + 1] *)
Definition max_dim (xsol : list ((Z * Z) * V)) : res Z :=
  m ← max_of ((λ kv, kv.1.2) <$> xsol); Val (m + 1).

(** The body of [for (point_id, dimension), value in xsol.items()]. *)
Definition place (xsol : list ((Z * Z) * V))
    (points : gmap Z (list (option V))) (kv : (Z * Z) * V)
    : res (gmap Z (list (option V))) :=
  let '((point_id, dimension), value) := kv in
  points ←
    (if decide (is_Some (points !! point_id)) then Val points
     else
       max_dim ← max_dim xsol;
       Val (<[point_id := replicate (Z.to_nat max_dim) None]> points));
  row ← lookup_key points point_id;
  row ← setitem row dimension (Some value);
  Val (<[point_id := row]> points).

(** [points = {}; for (point_id, dimension), value in xsol.items(): ...],
    for [xsol] the items of the dictionary in its order. *)
Definition regroup (xsol : list ((Z * Z) * V))
    : res (gmap Z (list (option V))) :=
  for_each (place xsol) xsol ∅.

End points.

End PairwiseDistance.

(** ** [sudoku.ipynb]

    The binary variable [assign[i,j,k]] says that the cell in row [i] and
    column [j] holds the number [k + 1].  Every constraint of the notebook
    asks a sum of these variables to be 1. *)

Module Sudoku.
Import Python.

Definition key : Type := Z * Z * Z.

Section model.
Variable q : Z.

(** [n = q**2], [N = range(n)], [Q = range(q)] *)
Definition n : Z := q ^ 2.
Definition N : list Z := range 0 n.
Definition Q : list Z := range 0 q.

(** [assign[i,j,k]]: [assign = prob.addVariables(N, N, N, ...)] is a
    dictionary with the triples over [N] as keys. *)
Definition assign (c : key) : res key :=
  if decide (c.1.1 ∈ N ∧ c.1.2 ∈ N ∧ c.2 ∈ N) then Val c else Exc KeyError.

(** [xp.Sum(assign[i,j,k] for k in N) == 1 for i in N for j in N] *)
Definition cell_constraints : list (list key) :=
  i ← N; j ← N; [(λ k, (i, j, k)) <$> N].

(** [assign[i,j,grid[i][j] - 1] == 1 for i in N for j in N
       if grid[i][j] > 0] *)
Definition clue_constraints (grid : list (list Z)) : res (list (list key)) :=
  for_each (λ cs i,
    for_each (λ cs j,
      row ← item grid i;
      g ← item row j;
      if decide (g > 0)
      then v ← assign (i, j, g - 1); Val (cs ++ [[v]])
      else Val cs)
      N cs)
    N [].

(** [xp.Sum(assign[i,j,k] for j in N) == 1 for i in N for k in N] *)
Definition row_constraints : list (list key) :=
  i ← N; k ← N; [(λ j, (i, j, k)) <$> N].

(** [xp.Sum(assign[i,j,k] for i in N) == 1 for j in N for k in N] *)
Definition column_constraints : list (list key) :=
  j ← N; k ← N; [(λ i, (i, j, k)) <$> N].

(** [xp.Sum(assign[i+q*h,j+q*l,k] for i in Q for j in Q) == 1
       for h in Q for l in Q for k in N] *)
Definition block (h l k : Z) : list key :=
  i ← Q; j ← Q; [(i + q * h, j + q * l, k)].

Definition block_constraints : list (list key) :=
  h ← Q; l ← Q; k ← N; [block h l k].

(** The constraints the notebook adds, in its order, each as the variables
    it sums. *)
Definition all_constraints (grid : list (list Z)) : res (list (list key)) :=
  clues ← clue_constraints grid;
  Val (cell_constraints ++ clues ++ row_constraints ++ column_constraints
       ++ block_constraints).

(** The entry [grid[i][j]] of a grid that has it. *)
Definition clue (grid : list (list Z)) (i j : Z) : option Z :=
  row ← grid !! Z.to_nat i; row !! Z.to_nat j.

(** A filled grid solves the puzzle: the numbers are from 1 to [n], they
    are the given ones where the grid gives one, and no number repeats in a
    row, in a column or in a block. *)
Definition solves (grid : list (list Z)) (number : Z → Z → Z) : Prop :=
  (∀ i j, 0 ≤ i < n → 0 ≤ j < n → 1 ≤ number i j ≤ n) ∧
  (∀ i j g, 0 ≤ i < n → 0 ≤ j < n →
     clue grid i j = Some g → g > 0 → number i j = g) ∧
  (∀ i j j', 0 ≤ i < n → 0 ≤ j < n → 0 ≤ j' < n →
     number i j = number i j' → j = j') ∧
  (∀ i i' j, 0 ≤ i < n → 0 ≤ i' < n → 0 ≤ j < n →
     number i j = number i' j → i = i') ∧
  (∀ i j i' j', 0 ≤ i < n → 0 ≤ j < n → 0 ≤ i' < n → 0 ≤ j' < n →
     i / q = i' / q → j / q = j' / q →
     number i j = number i' j' → i = i' ∧ j = j').

End model.

(** The starting grids of the notebook, [0] for an empty cell. *)
Definition grid3x3 : list (list Z) :=
  [[8; 0; 0; 0; 0; 0; 0; 0; 0];
   [0; 0; 3; 6; 0; 0; 0; 0; 0];
   [0; 7; 0; 0; 9; 0; 2; 0; 0];
   [0; 5; 0; 0; 0; 7; 0; 0; 0];
   [0; 0; 0; 0; 4; 5; 7; 0; 0];
   [0; 0; 0; 1; 0; 0; 0; 3; 0];
   [0; 0; 1; 0; 0; 0; 0; 6; 8];
   [0; 0; 8; 5; 0; 0; 0; 1; 0];
   [0; 9; 0; 0; 0; 0; 4; 0; 0]].

Definition grid4x4 : list (list Z) :=
  [[ 0; 0;12; 0; 0; 2; 0; 0; 0; 7; 3; 0;13;15; 0; 0];
   [15; 0; 0; 0; 0; 3; 0; 0; 9; 0; 0; 0;12; 0; 0;10];
   [ 0; 0; 0; 0; 9; 0; 6; 0; 0; 0;12; 0; 0; 0; 2; 5];
   [ 6;11; 1; 0; 0;10; 5; 0; 0; 2; 0;15; 0; 0; 0; 0];
   [ 4; 6; 3; 0; 0; 0;13;14; 0; 0; 0; 0; 0; 7; 0; 0];
   [ 0;15;11; 0; 7; 0; 9; 0; 0; 0; 0; 0; 0; 0; 1; 0];
   [ 0; 1; 0;10;15; 0; 0; 0;11; 3;14; 0; 6; 0; 0; 0];
   [13; 0; 8; 7; 0; 5; 0; 0; 0; 1; 9;12; 0; 0; 0; 0];
   [ 0; 0; 0; 6; 3; 7;15; 4; 0; 0; 0; 0; 0;14; 0; 0];
   [ 0; 8; 0; 0; 0; 0; 0; 0; 0;11; 7; 0; 4; 0; 0; 0];
   [ 0; 0; 0; 0; 0; 0; 0; 0;13; 0; 0; 6; 9; 0; 3; 0];
   [ 0; 0; 0; 0; 2; 8;14; 0; 3; 0; 0;10; 0; 0;13; 7];
   [ 0; 0; 0; 8; 0; 0; 0; 7;10; 0; 0; 0; 0; 0; 5; 1];
   [ 0; 4;10; 1; 6; 0; 0; 0; 0;12; 0;14; 7; 3; 9;15];
   [ 3; 0;15; 0; 0; 0; 0; 8; 0; 0; 1; 0;14;12; 0; 0];
   [ 2; 0; 0; 9;12; 0; 0; 1; 0; 0; 0; 0; 0; 6; 8; 0]].

(** [xp.Sum(cells) == 1] holds for a value [a] of the binary variables. *)
Definition exactly_one (a : key → bool) (cells : list key) : Prop :=
  length (filter (λ c, a c = true) cells) = 1%nat.

End Sudoku.

(** * Properties *)

(** ** Unfoldings of the recorded tree *)

Section unfolding.
Variables left right : gmap Z Z.
Local Abbreviation child := (child left right).
Local Abbreviation unfolds := (unfolds left right).

Lemma unfolds_functional o t1 t2 : unfolds o t1 → unfolds o t2 → t1 = t2.
Proof.
  intros H1. revert t2.
  induction H1 as [|n l r _ IHl _ IHr]; inversion 1; subst; [done|].
  f_equal; auto.
Qed.

Lemma unfolds_Some_inv n t :
  unfolds (Some n) t →
  ∃ l r, t = Node l n r ∧ unfolds (left !! n) l ∧ unfolds (right !! n) r.
Proof. inversion 1; subst; eauto. Qed.

Lemma unfolds_None_inv t : unfolds None t → t = Leaf.
Proof. by inversion 1. Qed.

Lemma unfolds_root o t : unfolds o t → root t = o.
Proof. by destruct 1. Qed.

(** The nodes of the unfolding are the nodes reachable along child links,
    and their depth is the length of the path. *)
Lemma levels_nsteps o t :
  unfolds o t → ∀ d0 m d, (m, d) ∈ levels d0 t →
  ∃ n (k : nat), o = Some n ∧ nsteps child k n m ∧ d = d0 + Z.of_nat k.
Proof.
  induction 1 as [|n l r Hl IHl Hr IHr]; intros d0 m d; simpl.
  { by intros ?%elem_of_nil. }
  rewrite elem_of_cons, elem_of_app. intros [Heq|[Hin|Hin]].
  - injection Heq as -> ->. exists n, 0%nat. split_and!; [done|constructor|lia].
  - destruct (IHl _ _ _ Hin) as (c & k & Hc & Hk & ->).
    exists n, (S k). split_and!; [done| |lia].
    econstructor; [|done]. by left.
  - destruct (IHr _ _ _ Hin) as (c & k & Hc & Hk & ->).
    exists n, (S k). split_and!; [done| |lia].
    econstructor; [|done]. by right.
Qed.

Lemma nsteps_levels k : ∀ n m t d0,
  unfolds (Some n) t → nsteps child k n m → (m, d0 + Z.of_nat k) ∈ levels d0 t.
Proof.
  induction k as [|k IH]; intros n m t d0 Ht Hk.
  - inversion Hk; subst. apply unfolds_Some_inv in Ht as (l & r & -> & _ & _).
    simpl. rewrite Z.add_0_r. apply elem_of_cons. by left.
  - inversion Hk as [|? ? c ? Hc Hk']; subst.
    apply unfolds_Some_inv in Ht as (l & r & -> & Hl & Hr).
    simpl. rewrite elem_of_cons, elem_of_app. right.
    replace (d0 + Z.of_nat (S k)) with ((d0 + 1) + Z.of_nat k) by lia.
    destruct Hc as [Hc|Hc].
    + left. rewrite Hc in Hl. by eapply IH.
    + right. rewrite Hc in Hr. by eapply IH.
Qed.

Lemma labels_levels d t : labels t = (levels d t).*1.
Proof.
  revert d. induction t as [|l IHl n r IHr]; intros d; simpl; [done|].
  by rewrite fmap_app, <-IHl, <-IHr.
Qed.

Lemma labels_rtc n t m : unfolds (Some n) t → m ∈ labels t ↔ rtc child n m.
Proof.
  intros Ht. rewrite (labels_levels 0). split.
  - intros ((m' & d) & -> & Hin)%list_elem_of_fmap. simpl.
    destruct (levels_nsteps _ _ Ht _ _ _ Hin) as (n' & k & [= <-] & Hk & _).
    by eapply rtc_nsteps_2.
  - intros (k & Hk)%rtc_nsteps_1. apply list_elem_of_fmap.
    exists (m, 0 + Z.of_nat k). split; [done|]. by eapply nsteps_levels.
Qed.

(** Every node of an unfolding unfolds itself, to a subtree. *)
Lemma unfolds_sub o t :
  unfolds o t → ∀ m, m ∈ labels t →
  ∃ tm, unfolds (Some m) tm ∧ (tree_height tm ≤ tree_height t)%nat
        ∧ labels tm ⊆ labels t.
Proof.
  induction 1 as [|n l r Hl IHl Hr IHr]; intros m; simpl.
  { by intros ?%elem_of_nil. }
  rewrite elem_of_cons, elem_of_app. intros [->|[Hin|Hin]].
  - exists (Node l n r). split_and!; [by constructor|done|done].
  - destruct (IHl _ Hin) as (tm & ? & ? & ?). exists tm.
    split_and!; [done|lia|]. set_solver.
  - destruct (IHr _ Hin) as (tm & ? & ? & ?). exists tm.
    split_and!; [done|lia|]. set_solver.
Qed.

End unfolding.

Section finite.
Variables left right : gmap Z Z.
Local Abbreviation child := (child left right).
Local Abbreviation unfolds := (unfolds left right).

Lemma tc_child_range n m :
  tc child n m → m ∈ (map_to_list left).*2 ++ (map_to_list right).*2.
Proof.
  intros Htc. assert (∃ q, child q m) as [q [Hq|Hq]].
  { induction Htc; eauto. }
  - apply elem_of_app. left. apply list_elem_of_fmap.
    exists (q, m). split; [done|]. by apply elem_of_map_to_list.
  - apply elem_of_app. right. apply list_elem_of_fmap.
    exists (q, m). split; [done|]. by apply elem_of_map_to_list.
Qed.

Lemma acyclic_sn : acyclic left right → ∀ n, sn child n.
Proof.
  intros Hac n. apply tc_finite_sn.
  - intros m. apply Hac.
  - eexists. intros m. apply tc_child_range.
Qed.

Lemma sn_unfolds n : sn child n → ∃ t, unfolds (Some n) t.
Proof.
  induction 1 as [n _ IH].
  assert (∀ o, (∀ c, o = Some c → child n c) → ∃ t, unfolds o t) as Hsub.
  { intros [c|] Hc; [|exists Leaf; constructor]. apply IH, Hc. done. }
  destruct (Hsub (left !! n)) as [l Hl]; [intros c Hc; by left|].
  destruct (Hsub (right !! n)) as [r Hr]; [intros c Hc; by right|].
  exists (Node l n r). by constructor.
Qed.

Lemma acyclic_unfolds : acyclic left right → ∀ n, ∃ t, unfolds (Some n) t.
Proof. intros Hac n. by apply sn_unfolds, acyclic_sn. Qed.

End finite.

Section postorder.
Variables left right : gmap Z Z.
Local Abbreviation child := (child left right).
Local Abbreviation unfolds := (unfolds left right).

(** One of the two [if node in ... keys()] blocks of [postorder_count]. *)
Local Abbreviation visit fuel o card cs :=
  (match o with
   | Some c =>
       card_subtree ← postorder_count left right fuel c cs;
       k ← getitem card_subtree c;
       mret (card + k, card_subtree)
   | None => mret (card, cs)
   end).

Lemma postorder_count_S fuel node cs :
  postorder_count left right (S fuel) node cs =
    ('(card, cs) ← visit fuel (left !! node) 0 cs;
     '(card, cs) ← visit fuel (right !! node) card cs;
     mret (<[node := 1 + card]> cs)).
Proof. reflexivity. Qed.

Lemma visit_spec o t :
  unfolds o t → ∀ fuel card cs, (tree_height t ≤ fuel)%nat →
  ∃ cs', visit fuel o card cs = Ok (card + Z.of_nat (tree_size t), cs') ∧
    (∀ m, m ∉ labels t → cs' !! m = cs !! m) ∧
    (∀ m tm, m ∈ labels t → unfolds (Some m) tm →
       cs' !! m = Some (Z.of_nat (tree_size tm))).
Proof.
  induction 1 as [|n l r Hl IHl Hr IHr]; intros fuel card cs Hfuel.
  { exists cs. simpl. rewrite Z.add_0_r. split_and!; [done|done|].
    by intros ?? ?%elem_of_nil. }
  destruct fuel as [|fuel]; simpl in Hfuel; [lia|].
  destruct (IHl fuel 0 cs) as (cs1 & E1 & F1 & S1); [lia|].
  destruct (IHr fuel (0 + Z.of_nat (tree_size l)) cs1) as (cs2 & E2 & F2 & S2); [lia|].
  exists (<[n := 1 + (0 + Z.of_nat (tree_size l) + Z.of_nat (tree_size r))]> cs2).
  assert (∀ m tm, m ∈ labels (Node l n r) → unfolds (Some m) tm →
    <[n := 1 + (0 + Z.of_nat (tree_size l) + Z.of_nat (tree_size r))]> cs2 !! m
      = Some (Z.of_nat (tree_size tm))) as Hall.
  { intros m tm Hm Htm. destruct (decide (m = n)) as [->|Hne].
    - rewrite lookup_insert_eq.
      rewrite (unfolds_functional _ _ _ _ _ Htm (unfolds_node _ _ _ _ _ Hl Hr)).
      simpl. f_equal. lia.
    - rewrite lookup_insert_ne by done.
      simpl in Hm. rewrite elem_of_cons, elem_of_app in Hm.
      destruct (decide (m ∈ labels r)) as [Hr'|Hr']; [by apply S2|].
      rewrite F2 by done. apply S1; [|done]. naive_solver. }
  split_and!; [|intros m Hm|done].
  - rewrite postorder_count_S, E1. cbn [mbind result_bind].
    rewrite E2. cbn [mbind result_bind mret result_ret].
    unfold getitem. rewrite lookup_insert_eq. cbn [mbind result_bind mret result_ret tree_size]. do 2 f_equal. lia.
  - simpl in Hm. rewrite not_elem_of_cons, not_elem_of_app in Hm.
    destruct Hm as (? & ? & ?).
    rewrite lookup_insert_ne by done. rewrite F2, F1 by done. done.
Qed.

Lemma postorder_count_spec n t fuel cs :
  unfolds (Some n) t → (tree_height t ≤ fuel)%nat →
  ∃ cs', postorder_count left right fuel n cs = Ok cs' ∧
    (∀ m, m ∉ labels t → cs' !! m = cs !! m) ∧
    (∀ m tm, m ∈ labels t → unfolds (Some m) tm →
       cs' !! m = Some (Z.of_nat (tree_size tm))).
Proof.
  intros Ht Hfuel.
  destruct (visit_spec _ _ Ht fuel 0 cs Hfuel) as (cs' & E & Hframe & Hsize).
  exists cs'. split; [|done].
  destruct (postorder_count left right fuel n cs) as [cs1|e]; [|done].
  cbn [mbind result_bind] in E.
  destruct (getitem cs1 n); [|done]. by injection E as _ ->.
Qed.

Lemma tree_size_labels t : tree_size t = length (labels t).
Proof.
  induction t as [|l IHl n r IHr]; simpl; [done|].
  rewrite length_app. lia.
Qed.

End postorder.

Section cardinalities.
Variables left right : gmap Z Z.
Local Abbreviation child := (child left right).
Local Abbreviation unfolds := (unfolds left right).

Lemma child_card_unfolds (cs : gmap Z Z) o l :
  unfolds o l →
  (∀ c, o = Some c → cs !! c = Some (Z.of_nat (tree_size l))) →
  child_card cs o = Z.of_nat (tree_size l).
Proof.
  destruct 1 as [|c ll lr Hl Hr]; intros Hc; [done|].
  unfold child_card. by rewrite (Hc c eq_refl).
Qed.

Lemma unfolds_Leaf_iff o t : unfolds o t → tree_size t = 0%nat ↔ o = None.
Proof. destruct 1; simpl; split; (done || lia). Qed.

(** C3.  On an acyclic [left]/[right] mapping, [postorder_count(n)] returns
    (given a recursion depth above the height of the tree below [n]), and
    afterwards [card_subtree] maps every node [m] of the subtree rooted at [n]
    to the number of nodes of the subtree rooted at [m]: one more than the
    entries of its children, at least 1, and 1 exactly when [m] has no
    child. *)
Theorem postorder_count_cardinalities (n : Z) (cs : gmap Z Z) :
  acyclic left right →
  ∃ fuel0 : nat, ∀ fuel : nat, (fuel0 ≤ fuel)%nat →
    ∃ cs', postorder_count left right fuel n cs = Ok cs' ∧
      ∀ m, rtc child n m →
        ∃ tm k, unfolds (Some m) tm ∧
          cs' !! m = Some k ∧
          k = Z.of_nat (length (labels tm)) ∧
          k = 1 + child_card cs' (left !! m) + child_card cs' (right !! m) ∧
          1 ≤ k ∧
          (k = 1 ↔ left !! m = None ∧ right !! m = None).
Proof.
  intros Hac. destruct (acyclic_unfolds _ _ Hac n) as [t Ht].
  exists (tree_height t). intros fuel Hfuel.
  destruct (postorder_count_spec _ _ _ _ fuel cs Ht Hfuel) as (cs' & E & _ & Hsize).
  exists cs'. split; [done|]. intros m Hm.
  apply (labels_rtc _ _ _ _ _ Ht) in Hm.
  destruct (unfolds_sub _ _ _ _ Ht _ Hm) as (tm & Htm & _ & Hsub).
  exists tm, (Z.of_nat (tree_size tm)).
  pose proof (Hsize _ _ Hm Htm) as Hk.
  apply unfolds_Some_inv in Htm as Hinv. destruct Hinv as (l & r & -> & Hl & Hr).
  assert (child_card cs' (left !! m) = Z.of_nat (tree_size l)) as El.
  { apply child_card_unfolds; [done|]. intros c Hc. rewrite Hc in Hl.
    apply Hsize; [|done]. apply Hsub. simpl.
    apply unfolds_Some_inv in Hl as (? & ? & -> & _). set_solver. }
  assert (child_card cs' (right !! m) = Z.of_nat (tree_size r)) as Er.
  { apply child_card_unfolds; [done|]. intros c Hc. rewrite Hc in Hr.
    apply Hsize; [|done]. apply Hsub. simpl.
    apply unfolds_Some_inv in Hr as (? & ? & -> & _). set_solver. }
  split_and!; [done|done|by rewrite tree_size_labels| | |].
  - rewrite El, Er. simpl. lia.
  - simpl. lia.
  - rewrite <-(unfolds_Leaf_iff _ _ Hl), <-(unfolds_Leaf_iff _ _ Hr).
    simpl. lia.
Qed.

End cardinalities.

(** ** The graph operations *)

Section nx_facts.
Context {F : Type}.
Implicit Types (G : Nx.Graph F) (xy : F * Z).

Lemma node_attr_add_node_eq n xy G :
  Nx.node_attr (Nx.add_node n xy G) !! n = Some (Some xy).
Proof. apply lookup_insert_eq. Qed.

Lemma node_attr_add_node_ne n xy G k :
  k ≠ n → Nx.node_attr (Nx.add_node n xy G) !! k = Nx.node_attr G !! k.
Proof. intros. simpl. by rewrite lookup_insert_ne. Qed.

Lemma ensure_node_present n (na : gmap Z (option (F * Z))) k :
  is_Some (na !! k) → Nx.ensure_node n na !! k = na !! k.
Proof.
  intros Hk. unfold Nx.ensure_node. destruct (na !! n) eqn:E; [done|].
  rewrite lookup_insert_ne; [done|]. intros ->. rewrite E in Hk. by destruct Hk.
Qed.

Lemma ensure_node_ne n (na : gmap Z (option (F * Z))) k :
  k ≠ n → Nx.ensure_node n na !! k = na !! k.
Proof.
  intros Hk. unfold Nx.ensure_node. destruct (na !! n); [done|].
  by rewrite lookup_insert_ne.
Qed.

Lemma node_attr_add_edge_present u v G k :
  is_Some (Nx.node_attr G !! k) →
  Nx.node_attr (Nx.add_edge u v G) !! k = Nx.node_attr G !! k.
Proof.
  intros Hk. simpl. rewrite !ensure_node_present; [done..|].
  by rewrite ensure_node_present.
Qed.

Lemma node_attr_add_edge_ne u v G k :
  k ≠ u → k ≠ v →
  Nx.node_attr (Nx.add_edge u v G) !! k = Nx.node_attr G !! k.
Proof. intros. simpl. by rewrite !ensure_node_ne. Qed.

Lemma neighbors_touch n (a : gmap Z (gset Z)) u :
  default ∅ (Nx.touch n a !! u) = default ∅ (a !! u).
Proof.
  unfold Nx.touch. destruct (a !! n) eqn:E; [done|].
  destruct (decide (u = n)) as [->|].
  - by rewrite lookup_insert_eq, E.
  - by rewrite lookup_insert_ne.
Qed.

Lemma neighbors_link u v (a : gmap Z (gset Z)) k :
  default ∅ (Nx.link u v a !! k) =
    if decide (k = u) then {[v]} ∪ default ∅ (a !! k) else default ∅ (a !! k).
Proof.
  unfold Nx.link. destruct (decide (k = u)) as [->|].
  - by rewrite lookup_insert_eq.
  - by rewrite lookup_insert_ne.
Qed.

Lemma neighbors_add_node n xy G u :
  Nx.neighbors (Nx.add_node n xy G) u = Nx.neighbors G u.
Proof. apply neighbors_touch. Qed.

Lemma neighbors_add_edge u v G k :
  Nx.neighbors G k ⊆ Nx.neighbors (Nx.add_edge u v G) k.
Proof.
  unfold Nx.neighbors. simpl. rewrite !neighbors_link.
  repeat case_decide; set_solver.
Qed.

Lemma has_edge_add_node n xy G u v :
  Nx.has_edge G u v → Nx.has_edge (Nx.add_node n xy G) u v.
Proof. unfold Nx.has_edge. by rewrite !neighbors_add_node. Qed.

Lemma has_edge_add_edge_mono u v G a b :
  Nx.has_edge G a b → Nx.has_edge (Nx.add_edge u v G) a b.
Proof.
  intros [? ?]. split; by apply neighbors_add_edge.
Qed.

Lemma has_edge_add_edge u v G : Nx.has_edge (Nx.add_edge u v G) u v.
Proof.
  unfold Nx.has_edge, Nx.neighbors. simpl. rewrite !neighbors_link.
  repeat case_decide; set_solver.
Qed.

End nx_facts.

(** ** [setpos] on a tree *)

Ltac py_simpl := cbn [mbind result_bind mret result_ret].

Section setpos_facts.
Context {F : Type} `{!PyFloat F}.
Variables (left right : gmap Z Z) (cs : gmap Z Z).
Local Abbreviation child := (child left right).
Local Abbreviation unfolds := (unfolds left right).
Implicit Types (T : Nx.Graph F) (t s : btree).

(** One of the two [if node in ... keys()] blocks of [setpos]. *)
Local Abbreviation place c posf fuel node curpos w depth o T :=
  (match o with
   | Some ch =>
       cc ← getitem cs ch;
       cn ← getitem cs node;
       cw ← child_width c w cc cn;
       setpos left right cs fuel
         (Nx.add_edge node ch (Nx.add_node ch (posf curpos w cw, - depth) T))
         ch (posf curpos w cw) cw (depth + 1)
   | None => mret T
   end).

Lemma setpos_S fuel T node curpos w depth :
  setpos left right cs (S fuel) T node curpos w depth =
   (T1 ← place lit_0_7 leftpos fuel node curpos w depth (left !! node)
           (if decide (node = 1) then Nx.add_node node (lit_0_5, 1) T else T);
    place lit_0_5 rightpos fuel node curpos w depth (right !! node) T1).
Proof. reflexivity. Qed.

(** The cardinalities of the nodes of [t] are in [cs]. *)
Local Abbreviation cards_ok t :=
  (∀ m tm, m ∈ labels t → unfolds (Some m) tm →
     cs !! m = Some (Z.of_nat (tree_size tm))).

Lemma child_width_Ok c w cc cn :
  cn ≠ 0 → ∃ cw, child_width c w cc cn = Ok cw.
Proof.
  intros Hcn. unfold child_width, truediv.
  destruct (decide (cn = 0)); [done|]. py_simpl. eauto.
Qed.

Local Abbreviation setpos_post T T' n t depth :=
  ((∀ m, m ∉ labels t → Nx.node_attr T' !! m = Nx.node_attr T !! m) ∧
   (if decide (n = 1) then Nx.node_attr T' !! n = Some (Some (lit_0_5, 1))
    else is_Some (Nx.node_attr T !! n) →
         Nx.node_attr T' !! n = Nx.node_attr T !! n) ∧
   (∀ m d, (m, d) ∈ levels depth t → m ≠ n →
      ∃ x, Nx.node_attr T' !! m = Some (Some (x, - (d - 1)))) ∧
   (∀ q c, (q, c) ∈ edges t → Nx.has_edge T' q c) ∧
   (∀ a b, Nx.has_edge T a b → Nx.has_edge T' a b)).

Local Abbreviation setpos_ok t :=
  (∀ n fuel T curpos w depth,
     unfolds (Some n) t → NoDup (labels t) → (1 ∈ labels t → n = 1) →
     cards_ok t → (tree_height t ≤ fuel)%nat →
     ∃ T', setpos left right cs fuel T n curpos w depth = Ok T' ∧
           setpos_post T T' n t depth).

Lemma place_spec c (posf : F → F → F → F) fuel n curpos w depth o s T cn :
  setpos_ok s →
  unfolds o s → NoDup (labels s) → n ∉ labels s → 1 ∉ labels s →
  cards_ok s → cs !! n = Some cn → cn ≠ 0 → (tree_height s ≤ fuel)%nat →
  ∃ T', place c posf fuel n curpos w depth o T = Ok T' ∧
    (∀ m, m ∉ labels s → m ≠ n → Nx.node_attr T' !! m = Nx.node_attr T !! m) ∧
    (is_Some (Nx.node_attr T !! n) →
       Nx.node_attr T' !! n = Nx.node_attr T !! n) ∧
    (∀ m d, (m, d) ∈ levels (depth + 1) s →
       ∃ x, Nx.node_attr T' !! m = Some (Some (x, - (d - 1)))) ∧
    (∀ q k, (q, k) ∈ from_option (λ k, [(n, k)]) [] (root s) ++ edges s →
       Nx.has_edge T' q k) ∧
    (∀ a b, Nx.has_edge T a b → Nx.has_edge T' a b).
Proof.
  intros IH Hs Hnd Hn H1 Hcs Hcn Hcn0 Hfuel.
  destruct Hs as [|ch sl sr Hsl Hsr].
  { exists T. split_and!; [reflexivity|done|done| | |done]; simpl.
    - by intros ?? ?%elem_of_nil.
    - by intros ?? ?%elem_of_nil. }
  pose proof (unfolds_node _ _ _ _ _ Hsl Hsr) as Hs.
  assert (ch ≠ n) as Hchn by (intros ->; apply Hn; simpl; set_solver).
  assert (ch ≠ 1) as Hch1 by (intros ->; apply H1; simpl; set_solver).
  unfold getitem at 1 2.
  rewrite (Hcs ch _ ltac:(simpl; set_solver) Hs), Hcn. py_simpl.
  destruct (child_width_Ok c w (Z.of_nat (tree_size (Node sl ch sr))) cn Hcn0)
    as [cw ->]. py_simpl.
  set (T2 := Nx.add_edge n ch (Nx.add_node ch (posf curpos w cw, - depth) T)).
  destruct (IH ch fuel T2 (posf curpos w cw) cw (depth + 1) Hs Hnd
              ltac:(done) Hcs Hfuel) as (T' & -> & Hfr & Hself & Hdesc & Hed & Hmono).
  exists T'. split; [done|].
  assert (Nx.node_attr T2 !! ch = Some (Some (posf curpos w cw, - depth))) as Hch.
  { unfold T2. rewrite node_attr_add_edge_present;
      rewrite node_attr_add_node_eq; done. }
  destruct (decide (ch = 1)) as [|_]; [done|].
  rewrite Hch in Hself. specialize (Hself ltac:(done)).
  split_and!.
  - intros m Hm Hmn. rewrite Hfr by done. unfold T2.
    assert (m ≠ ch) by (intros ->; apply Hm; simpl; set_solver).
    rewrite node_attr_add_edge_ne by done.
    by rewrite node_attr_add_node_ne.
  - intros Hpres. rewrite Hfr by done. unfold T2.
    rewrite node_attr_add_edge_present;
      rewrite node_attr_add_node_ne by done; done.
  - intros m d Hmd. simpl in Hmd. apply elem_of_cons in Hmd as [Heq|Hmd].
    + injection Heq as -> ->. exists (posf curpos w cw). rewrite Hself.
      do 3 f_equal. lia.
    + apply Hdesc; [simpl; set_solver|].
      intros ->. simpl in Hnd. apply NoDup_cons in Hnd as [Hnd _]. apply Hnd.
      rewrite (labels_levels (depth + 1 + 1) sl),
        (labels_levels (depth + 1 + 1) sr), <-fmap_app.
      apply list_elem_of_fmap. by exists (ch, d).
  - intros q k. simpl. rewrite elem_of_cons. intros [Heq|Hqk].
    + injection Heq as -> ->. apply Hmono. unfold T2. apply has_edge_add_edge.
    + by apply Hed.
  - intros a b Hab. apply Hmono. unfold T2.
    by apply has_edge_add_edge_mono, has_edge_add_node.
Qed.

Lemma setpos_spec t : setpos_ok t.
Proof.
  induction t as [|l IHl n' r IHr]; intros n fuel T curpos w depth Ht Hnd H1 Hcs Hfuel.
  { by inversion Ht. }
  apply unfolds_Some_inv in Ht as Hinv.
  destruct Hinv as (l' & r' & Heq & Hl & Hr). injection Heq as <- -> <-.
  destruct fuel as [|fuel]; simpl in Hfuel; [lia|].
  simpl in Hnd. apply NoDup_cons in Hnd as [Hn Hnd].
  apply NoDup_app in Hnd as (Hndl & Hlr & Hndr).
  rewrite not_elem_of_app in Hn. destruct Hn as [Hnl Hnr].
  assert (1 ∉ labels l ∧ 1 ∉ labels r) as [H1l H1r].
  { split; intros Hin; (rewrite <-H1 in Hin by (simpl; set_solver)); done. }
  pose proof (Hcs n _ ltac:(simpl; set_solver) Ht) as Hcn.
  assert (Z.of_nat (tree_size (Node l n r)) ≠ 0) as Hcn0 by (simpl; lia).
  set (T0 := if decide (n = 1) then Nx.add_node n (lit_0_5, 1) T else T).
  destruct (place_spec lit_0_7 leftpos fuel n curpos w depth _ l T0
              (Z.of_nat (tree_size (Node l n r))) IHl Hl)
    as (T1 & E1 & Hfr1 & Hself1 & Hdesc1 & Hed1 & Hmono1);
    [done|done|done|intros; apply Hcs; [simpl; set_solver|done]|done|done|lia|].
  destruct (place_spec lit_0_5 rightpos fuel n curpos w depth _ r T1
              (Z.of_nat (tree_size (Node l n r))) IHr Hr)
    as (T2 & E2 & Hfr2 & Hself2 & Hdesc2 & Hed2 & Hmono2);
    [done|done|done|intros; apply Hcs; [simpl; set_solver|done]|done|done|lia|].
  exists T2. split.
  { rewrite setpos_S. fold T0. rewrite E1. py_simpl. exact E2. }
  assert (∀ m, m ≠ n → Nx.node_attr T0 !! m = Nx.node_attr T !! m) as HT0.
  { intros m Hm. unfold T0. case_decide; [|done].
    by rewrite node_attr_add_node_ne. }
  split_and!.
  - intros m Hm. simpl in Hm. rewrite not_elem_of_cons, not_elem_of_app in Hm.
    destruct Hm as (? & ? & ?). by rewrite Hfr2, Hfr1, HT0.
  - case_decide as Hn1.
    + assert (Nx.node_attr T0 !! n = Some (Some (lit_0_5, 1))) as E0.
      { unfold T0. apply node_attr_add_node_eq. }
      assert (Nx.node_attr T1 !! n = Nx.node_attr T0 !! n) as E1'.
      { apply Hself1. by rewrite E0. }
      rewrite Hself2; rewrite E1', E0; done.
    + intros Hpres. change T0 with T in *.
      rewrite Hself2; rewrite Hself1; done.
  - intros m d Hmd Hmn. simpl in Hmd.
    rewrite elem_of_cons, elem_of_app in Hmd.
    destruct Hmd as [?|[Hmd|Hmd]]; [naive_solver| |by apply Hdesc2].
    destruct (Hdesc1 _ _ Hmd) as [x Hx]. exists x. rewrite Hfr2; [done| |done].
    intros Hmr. apply (Hlr m); [|done].
    rewrite (labels_levels (depth + 1)). apply list_elem_of_fmap. by exists (m, d).
  - intros q k. simpl. rewrite elem_of_app. intros [Hqk|Hqk].
    + by apply Hmono2, Hed1.
    + by apply Hed2.
  - intros a b Hab. apply Hmono2, Hmono1. unfold T0. case_decide; [|done].
    by apply has_edge_add_node.
Qed.

End setpos_facts.

Lemma fst_NoDup_functional {A B} (l : list (A * B)) x y1 y2 :
  NoDup (l.*1) → (x, y1) ∈ l → (x, y2) ∈ l → y1 = y2.
Proof.
  induction l as [|[a b] l IH]; simpl.
  { by intros _ ?%elem_of_nil. }
  rewrite NoDup_cons, !elem_of_cons. intros [Ha Hnd] [E1|H1] [E2|H2].
  - congruence.
  - injection E1 as <- <-. destruct Ha. apply list_elem_of_fmap. by exists (x, y2).
  - injection E2 as <- <-. destruct Ha. apply list_elem_of_fmap. by exists (x, y1).
  - by apply IH.
Qed.

Section edges_facts.
Variables left right : gmap Z Z.

Lemma edges_child o t q c :
  unfolds left right o t → q ∈ labels t → child left right q c → (q, c) ∈ edges t.
Proof.
  induction 1 as [|n l r Hl IHl Hr IHr]; simpl.
  { by intros ?%elem_of_nil. }
  rewrite elem_of_cons, elem_of_app. intros [->|[Hq|Hq]] Hc.
  - destruct Hc as [Hc|Hc].
    + rewrite Hc in Hl. apply unfolds_root in Hl. rewrite Hl. simpl. set_solver.
    + rewrite Hc in Hr. apply unfolds_root in Hr. rewrite Hr. simpl. set_solver.
  - specialize (IHl Hq Hc). set_solver.
  - specialize (IHr Hq Hc). set_solver.
Qed.
End edges_facts.

Section layout_facts.
Context {F : Type} `{!PyFloat F} {P : Type}.

(** C2.  When [left] and [right] form a tree rooted at node 1, running
    [postorder_count(1)] and then [setpos(T, 1, 0.5, 1, 0)] returns (given a
    recursion depth above the height of the tree) and leaves every node of
    the tree in the graph [T] with a position attribute and an edge to its
    parent; the root is at (0.5, 1) and a node at depth [d >= 1] has
    y-coordinate [1 - d].  This holds whatever the float arithmetic. *)
Theorem layout_places_tree (g : globals F P) (t : btree) :
  tree_from (left g) (right g) 1 t →
  ∃ fuel0 : nat, ∀ fuel : nat, (fuel0 ≤ fuel)%nat →
    ∃ g', layout fuel g = Ok g' ∧
      Nx.node_attr (T g') !! 1 = Some (Some (lit_0_5, 1)) ∧
      ∀ (d : nat) (m : Z), nsteps (child (left g) (right g)) d 1 m →
        (∃ x y, Nx.node_attr (T g') !! m = Some (Some (x, y)) ∧
                pos g' !! m = Some (x, y) ∧
                ((1 ≤ d)%nat → y = 1 - Z.of_nat d)) ∧
        (∀ q, rtc (child (left g) (right g)) 1 q →
              child (left g) (right g) q m → Nx.has_edge (T g') q m).
Proof.
  intros [Ht Hnd]. exists (tree_height t). intros fuel Hfuel.
  destruct (postorder_count_spec _ _ _ _ fuel (card_subtree g) Ht Hfuel)
    as (cs & Ecs & _ & Hcs).
  destruct (setpos_spec (left g) (right g) cs t 1 fuel (T g) lit_0_5
              (float_of_int 1) 0 Ht Hnd ltac:(done) Hcs Hfuel)
    as (T' & ET & _ & Hroot & Hdesc & Hedges & _).
  rewrite decide_True in Hroot by done.
  eexists. split; [|split].
  { unfold layout. rewrite Ecs. py_simpl. rewrite ET. py_simpl. reflexivity. }
  { done. }
  cbn [T pos]. intros d m Hd. split.
  - pose proof (nsteps_levels _ _ _ _ _ _ 0 Ht Hd) as Hmd.
    destruct d as [|d].
    + inversion Hd; subst. exists lit_0_5, 1.
      split_and!; [done| |lia].
      unfold Nx.get_node_attributes_pos. by rewrite lookup_omap, Hroot.
    + assert (m ≠ 1) as Hm1.
      { intros ->. apply unfolds_Some_inv in Ht as Hinv.
        destruct Hinv as (l & r & -> & _).
        assert ((1, 0) ∈ levels 0 (Node l 1 r)) as H0 by (simpl; set_solver).
        rewrite (labels_levels 0) in Hnd.
        pose proof (fst_NoDup_functional _ _ _ _ Hnd H0 Hmd). lia. }
      destruct (Hdesc _ _ Hmd Hm1) as [x Hx].
      exists x, (- (0 + Z.of_nat (S d) - 1)). split_and!; [done| |lia].
      unfold Nx.get_node_attributes_pos. by rewrite lookup_omap, Hx.
  - intros q Hq Hc. apply Hedges. eapply edges_child; [done| |done].
    by apply (labels_rtc _ _ _ _ _ Ht).
Qed.

End layout_facts.

(** ** The geometry of the layout *)

Example cards3_computed : postorder_count (left g3) (right g3) 2 1 ∅ = Ok cards3.
Proof. vm_compute. reflexivity. Qed.

(** The left child of a root with two leaves, in binary64: its width, its
    position, and where its band and the band of the root start. *)
Example binary64_left_child :
  child_width (F := float) lit_0_7 (float_of_int 1) 1 3 = Ok 0.337%float ∧
  leftpos (F := float) lit_0_5 (float_of_int 1) 0.337%float
    = 0.16849999999999998%float ∧
  band_lo (F := float) 0.16849999999999998%float 0.337%float
    = (-0x1p-55)%float ∧
  band_lo (F := float) lit_0_5 (float_of_int 1) = 0%float.
Proof. vm_compute. repeat split. Qed.

(** The same start of the band, computed without rounding from the two
    binary64 values: it is negative. *)
Example binary64_left_child_exact :
  (Q_of_binary64 0.16849999999999998 - Q_of_binary64 0.337 / 2 < 0)%Q.
Proof. vm_compute. reflexivity. Qed.

(** ** Exact arithmetic *)

Local Open Scope Q_scope.

Lemma child_width_exact (c w : Q) (cc cn : Z) :
  cn ≠ 0%Z →
  child_width (F := Q) c w cc cn =
    Ok (w * ((1 # 100) * c + ((inject_Z 1 - (1 # 100)) * inject_Z cc) / inject_Z cn)).
Proof.
  intros Hcn. unfold child_width, truediv.
  destruct (decide (cn = 0%Z)); [done|]. reflexivity.
Qed.

Lemma ratio_bounds (cc cn : Z) :
  (1 ≤ cc < cn)%Z →
  0 < ((inject_Z 1 - (1 # 100)) * inject_Z cc) / inject_Z cn < 99 # 100.
Proof.
  intros [Hcc Hcn].
  assert (0 < inject_Z cc) as H1 by (unfold Qlt; simpl; lia).
  assert (inject_Z cc < inject_Z cn) as H2 by (unfold Qlt; simpl; lia).
  assert (0 < inject_Z cn) as H3 by lra.
  split.
  - apply Qlt_shift_div_l; [done|]. change (inject_Z 1) with 1. lra.
  - apply Qlt_shift_div_r; [done|]. change (inject_Z 1) with 1. lra.
Qed.

Lemma child_width_bounds (c w : Q) (cc cn : Z) :
  0 < w → 0 < c → c <= 7 # 10 → (1 ≤ cc < cn)%Z →
  ∃ cw, child_width (F := Q) c w cc cn = Ok cw ∧ 0 < cw ∧ cw < w.
Proof.
  intros Hw Hc0 Hc Hcard. rewrite child_width_exact by lia.
  eexists. split; [done|].
  pose proof (ratio_bounds cc cn Hcard) as Hr.
  set (r := ((inject_Z 1 - (1 # 100)) * inject_Z cc) / inject_Z cn) in *.
  split; nra.
Qed.

Lemma leftpos_band (curpos w lw : Q) :
  0 < lw → lw < w → band_within (F := Q) (leftpos curpos w lw) lw curpos w.
Proof.
  intros H1 H2. unfold band_within, band_lo, band_hi, leftpos.
  cbn [fle fsub fadd fdiv float_of_int exact].
  change (inject_Z 2) with 2. unfold Qdiv. change (/ 2) with (1 # 2).
  split; lra.
Qed.

Lemma rightpos_band (curpos w rw : Q) :
  0 < rw → rw < w → band_within (F := Q) (rightpos curpos w rw) rw curpos w.
Proof.
  intros H1 H2. unfold band_within, band_lo, band_hi, rightpos.
  cbn [fle fsub fadd fdiv float_of_int exact].
  change (inject_Z 2) with 2. unfold Qdiv. change (/ 2) with (1 # 2).
  split; lra.
Qed.

Local Close Scope Q_scope.

Section called_facts.
Context {F : Type} `{!PyFloat F}.
Variables (left right : gmap Z Z) (cs : gmap Z Z).
Local Abbreviation child := (child left right).
Local Abbreviation unfolds := (unfolds left right).
Local Abbreviation called := (called left right cs).

Lemma called_reachable n curpos w : called n curpos w → rtc child 1 n.
Proof.
  induction 1 as [|n curpos w l ? ? ? _ IH Hl|n curpos w r ? ? ? _ IH Hr];
    [done|..]; (eapply rtc_r; [done|]); [by left|by right].
Qed.

(** With correct cardinalities a child counts at least one node and fewer
    nodes than its parent. *)
Lemma cards_child_lt n c cc cn :
  correct_cards left right cs 1 → rtc child 1 n → child n c →
  cs !! c = Some cc → cs !! n = Some cn → 1 ≤ cc < cn.
Proof.
  intros Hcs Hn Hc Hcc Hcn.
  destruct (Hcs n Hn) as (tn & Htn & En).
  destruct (Hcs c ltac:(by eapply rtc_r)) as (tc & Htc & Ec).
  rewrite Hcc in Ec. rewrite Hcn in En. injection Ec as ->. injection En as ->.
  apply unfolds_Some_inv in Htn as (l & r & -> & Hl & Hr).
  apply unfolds_Some_inv in Htc as Hinv. destruct Hinv as (? & ? & Etc & _).
  destruct Hc as [Hc|Hc].
  - rewrite Hc in Hl. rewrite (unfolds_functional _ _ _ _ _ Hl Htc).
    rewrite Etc. simpl. lia.
  - rewrite Hc in Hr. rewrite (unfolds_functional _ _ _ _ _ Hr Htc).
    rewrite Etc. simpl. lia.
Qed.

Lemma node_attr_add_edge_Some u v (G : Nx.Graph F) k xy :
  Nx.node_attr (Nx.add_edge u v G) !! k = Some (Some xy) →
  Nx.node_attr G !! k = Some (Some xy).
Proof.
  simpl. unfold Nx.ensure_node.
  repeat case_match; rewrite ?lookup_insert; repeat case_decide; naive_solver.
Qed.

(** Every position [setpos] writes is the position of a call. *)
Lemma setpos_called fuel : ∀ (T T' : Nx.Graph F) n curpos w depth,
  called n curpos w →
  setpos left right cs fuel T n curpos w depth = Ok T' →
  ∀ m x y, Nx.node_attr T' !! m = Some (Some (x, y)) →
    Nx.node_attr T !! m = Some (Some (x, y)) ∨ ∃ w', called m x w'.
Proof.
  induction fuel as [|fuel IH]; intros T T' n curpos w depth Hcall; [done|].
  rewrite setpos_S.
  set (T0 := if decide (n = 1) then Nx.add_node n (lit_0_5, 1) T else T).
  assert (∀ m x y, Nx.node_attr T0 !! m = Some (Some (x, y)) →
    Nx.node_attr T !! m = Some (Some (x, y)) ∨ ∃ w', called m x w') as H0.
  { intros m x y. unfold T0. case_decide as Hn; [|by left]. subst n.
    destruct (decide (m = 1)) as [->|].
    - rewrite node_attr_add_node_eq. intros [= <- <-]. right.
      eexists. apply called_initial.
    - rewrite node_attr_add_node_ne by done. by left. }
  clearbody T0.
  assert (∀ c (posf : F → F → F → F) o (Ta Tb : Nx.Graph F),
    (∀ ch cc cn cw, o = Some ch → cs !! ch = Some cc → cs !! n = Some cn →
       child_width c w cc cn = Ok cw → called ch (posf curpos w cw) cw) →
    match o with
    | Some ch =>
        cc ← getitem cs ch;
        cn ← getitem cs n;
        cw ← child_width c w cc cn;
        setpos left right cs fuel
          (Nx.add_edge n ch (Nx.add_node ch (posf curpos w cw, - depth) Ta))
          ch (posf curpos w cw) cw (depth + 1)
    | None => mret Ta
    end = Ok Tb →
    (∀ m x y, Nx.node_attr Ta !! m = Some (Some (x, y)) →
       Nx.node_attr T !! m = Some (Some (x, y)) ∨ ∃ w', called m x w') →
    ∀ m x y, Nx.node_attr Tb !! m = Some (Some (x, y)) →
       Nx.node_attr T !! m = Some (Some (x, y)) ∨ ∃ w', called m x w') as Hblock.
  { intros c posf [ch|] Ta Tb Hch; [|by intros [= <-]].
    unfold getitem.
    destruct (cs !! ch) as [cc|] eqn:Ecc; [|done].
    destruct (cs !! n) as [cn|] eqn:Ecn; [|done]. py_simpl.
    destruct (child_width c w cc cn) as [cw|] eqn:Ecw; [|done]. py_simpl.
    intros Hrec Ha m x y Hm.
    pose proof (Hch ch cc cn cw eq_refl Ecc eq_refl Ecw) as Hcalled.
    destruct (IH _ _ _ _ _ _ Hcalled Hrec m x y Hm) as [Hm'|?]; [|by right].
    apply node_attr_add_edge_Some in Hm'.
    destruct (decide (m = ch)) as [->|].
    - rewrite node_attr_add_node_eq in Hm'. injection Hm' as <- <-.
      right. by eexists.
    - rewrite node_attr_add_node_ne in Hm' by done. by apply Ha. }
  destruct (match left !! n with Some _ => _ | None => _ end) as [T1|] eqn:E1;
    [|done].
  py_simpl. intros E2.
  eapply (Hblock lit_0_5 rightpos (right !! n) T1 T'); [|exact E2|].
  { intros ch cc cn cw Hr ???. by eapply called_right. }
  eapply (Hblock lit_0_7 leftpos (left !! n) T0 T1); [|exact E1|exact H0].
  intros ch cc cn cw Hl ???. by eapply called_left.
Qed.

End called_facts.

Section termination.
Context {F : Type} `{!PyFloat F}.
Variables (left right : gmap Z Z).
Local Abbreviation unfolds := (unfolds left right).

(** [setpos] never exhausts a recursion depth above the height of the tree,
    whatever [card_subtree] holds. *)
Lemma setpos_no_RecursionError cs t :
  ∀ n fuel (T : Nx.Graph F) curpos w depth,
    unfolds (Some n) t → (tree_height t ≤ fuel)%nat →
    setpos left right cs fuel T n curpos w depth ≠ Raise RecursionError.
Proof.
  induction t as [|l IHl n' r IHr]; intros n fuel T curpos w depth Ht Hfuel.
  { by inversion Ht. }
  apply unfolds_Some_inv in Ht as (l' & r' & Heq & Hl & Hr).
  injection Heq as <- -> <-.
  destruct fuel as [|fuel]; simpl in Hfuel; [lia|].
  rewrite setpos_S.
  set (T0 := if decide (n = 1) then Nx.add_node n (lit_0_5, 1) T else T).
  clearbody T0.
  assert (∀ c (posf : F → F → F → F) o s (Ta : Nx.Graph F),
    unfolds o s → (tree_height s ≤ fuel)%nat →
    (∀ n fuel (T : Nx.Graph F) curpos w depth,
       unfolds (Some n) s → (tree_height s ≤ fuel)%nat →
       setpos left right cs fuel T n curpos w depth ≠ Raise RecursionError) →
    match o with
    | Some ch =>
        cc ← getitem cs ch;
        cn ← getitem cs n;
        cw ← child_width c w cc cn;
        setpos left right cs fuel
          (Nx.add_edge n ch (Nx.add_node ch (posf curpos w cw, - depth) Ta))
          ch (posf curpos w cw) cw (depth + 1)
    | None => mret Ta
    end ≠ Raise RecursionError) as Hblock.
  { intros c posf o s Ta Hs Hh IH. destruct Hs as [|ch sl sr Hsl Hsr]; [done|].
    unfold getitem.
    destruct (cs !! ch) as [cc|]; [|done].
    destruct (cs !! n) as [cn|]; [|done]. py_simpl.
    unfold child_width, truediv. destruct (decide (cn = 0)); [done|]. py_simpl.
    apply IH; [by constructor|done]. }
  destruct (match left !! n with Some _ => _ | None => _ end) as [T1|e] eqn:E1.
  - py_simpl. eapply (Hblock _ _ _ r); [done|lia|done].
  - py_simpl. rewrite <-E1. eapply (Hblock _ _ _ l); [done|lia|done].
Qed.

(** With the cardinalities of the tree in [cs], [setpos] returns. *)
Lemma setpos_returns cs t :
  ∀ n fuel (T : Nx.Graph F) curpos w depth,
    unfolds (Some n) t →
    (∀ m tm, m ∈ labels t → unfolds (Some m) tm →
       cs !! m = Some (Z.of_nat (tree_size tm))) →
    (tree_height t ≤ fuel)%nat →
    ∃ T', setpos left right cs fuel T n curpos w depth = Ok T'.
Proof.
  induction t as [|l IHl n' r IHr]; intros n fuel T curpos w depth Ht Hcs Hfuel.
  { by inversion Ht. }
  apply unfolds_Some_inv in Ht as Hinv.
  destruct Hinv as (l' & r' & Heq & Hl & Hr). injection Heq as <- -> <-.
  destruct fuel as [|fuel]; simpl in Hfuel; [lia|].
  rewrite setpos_S.
  set (T0 := if decide (n = 1) then Nx.add_node n (lit_0_5, 1) T else T).
  clearbody T0.
  pose proof (Hcs n _ ltac:(simpl; set_solver) Ht) as Hcn.
  assert (∀ c (posf : F → F → F → F) o s (Ta : Nx.Graph F),
    unfolds o s → (tree_height s ≤ fuel)%nat → labels s ⊆ labels (Node l n r) →
    (∀ n fuel (T : Nx.Graph F) curpos w depth,
       unfolds (Some n) s →
       (∀ m tm, m ∈ labels s → unfolds (Some m) tm →
          cs !! m = Some (Z.of_nat (tree_size tm))) →
       (tree_height s ≤ fuel)%nat →
       ∃ T', setpos left right cs fuel T n curpos w depth = Ok T') →
    ∃ Tb,
    match o with
    | Some ch =>
        cc ← getitem cs ch;
        cn ← getitem cs n;
        cw ← child_width c w cc cn;
        setpos left right cs fuel
          (Nx.add_edge n ch (Nx.add_node ch (posf curpos w cw, - depth) Ta))
          ch (posf curpos w cw) cw (depth + 1)
    | None => mret Ta
    end = Ok Tb) as Hblock.
  { intros c posf o s Ta Hs Hh Hsub IH.
    destruct Hs as [|ch sl sr Hsl Hsr]; [by eexists|].
    pose proof (unfolds_node _ _ _ _ _ Hsl Hsr) as Hs.
    unfold getitem.
    rewrite (Hcs ch _ ltac:(apply Hsub; simpl; set_solver) Hs), Hcn. py_simpl.
    unfold child_width, truediv. rewrite decide_False by (simpl; lia). py_simpl.
    apply IH; [done| |done]. intros m tm Hm. apply Hcs. by apply Hsub. }
  destruct (Hblock lit_0_7 leftpos _ l T0 Hl) as [T1 ->];
    [lia|simpl; set_solver|done|].
  py_simpl. apply (Hblock lit_0_5 rightpos _ r T1 Hr);
    [lia|simpl; set_solver|done].
Qed.

End termination.

Section exact_layout.
Variables (left right : gmap Z Z) (cs : gmap Z Z).
Local Abbreviation child := (child left right).
Local Abbreviation called := (called (F := Q) left right cs).
Hypothesis Hcs : correct_cards left right cs 1.

Local Open Scope Q_scope.

Lemma child_step_exact (c : Q) (posf : Q → Q → Q → Q) n ch curpos w :
  (∀ cw, 0 < cw → cw < w → band_within (posf curpos w cw) cw curpos w) →
  0 < c → c <= 7 # 10 →
  rtc child 1%Z n → child n ch → 0 < w →
  child_step_ok c posf cs n ch curpos w.
Proof using Hcs.
  intros Hband Hc0 Hc Hn Hch Hw.
  destruct (Hcs n Hn) as (tn & _ & En).
  destruct (Hcs ch ltac:(by eapply rtc_r)) as (tc & _ & Ec).
  pose proof (cards_child_lt _ _ _ _ _ _ _ Hcs Hn Hch Ec En) as Hlt.
  destruct (child_width_bounds c w _ _ Hw Hc0 Hc Hlt) as (cw & Ecw & H0 & H1).
  exists (Z.of_nat (tree_size tc)), (Z.of_nat (tree_size tn)), cw.
  split_and!; [done|done|done|done|done|by apply Hband].
Qed.

Lemma called_band n curpos w :
  called n curpos w →
  0 < w ∧ 0 <= band_lo curpos w ∧ band_hi curpos w <= 1.
Proof using Hcs.
  induction 1 as [|n curpos w l cl cn lw Hcall IH Hl Hcl Hcn Hw
                   |n curpos w r cr cn rw Hcall IH Hr Hcr Hcn Hw].
  - unfold band_lo, band_hi. cbn [fsub fadd fdiv float_of_int lit_0_5 exact].
    change (inject_Z 1) with 1. change (inject_Z 2) with 2.
    unfold Qdiv. change (/ 2) with (1 # 2). split_and!; lra.
  - destruct IH as (Hw0 & Hlo & Hhi).
    pose proof (called_reachable _ _ _ _ _ _ Hcall) as Hn.
    destruct (child_step_exact lit_0_7 leftpos n l curpos w)
      as (cl' & cn' & lw' & Hcl' & Hcn' & Hw' & H0 & H1 & Hblo & Hbhi);
      [by apply leftpos_band|done|done|done|by left|done|].
    rewrite Hcl in Hcl'. rewrite Hcn in Hcn'.
    injection Hcl' as <-. injection Hcn' as <-.
    rewrite Hw in Hw'. injection Hw' as <-.
    cbn [fle flt exact] in *. split_and!; [done|lra|lra].
  - destruct IH as (Hw0 & Hlo & Hhi).
    pose proof (called_reachable _ _ _ _ _ _ Hcall) as Hn.
    destruct (child_step_exact lit_0_5 rightpos n r curpos w)
      as (cr' & cn' & rw' & Hcr' & Hcn' & Hw' & H0 & H1 & Hblo & Hbhi);
      [by apply rightpos_band|done|done|done|by right|done|].
    rewrite Hcr in Hcr'. rewrite Hcn in Hcn'.
    injection Hcr' as <-. injection Hcn' as <-.
    rewrite Hw in Hw'. injection Hw' as <-.
    cbn [fle flt exact] in *. split_and!; [done|lra|lra].
Qed.

Lemma called_unit n curpos w : called n curpos w → 0 <= curpos ∧ curpos <= 1.
Proof using Hcs.
  intros (Hw & Hlo & Hhi)%called_band. revert Hlo Hhi.
  unfold band_lo, band_hi. cbn [fsub fadd fdiv float_of_int exact].
  change (inject_Z 2) with 2. unfold Qdiv. change (/ 2) with (1 # 2).
  split; lra.
Qed.

End exact_layout.


(** ** The callback *)

Section callback_facts.
Context {F : Type} `{!PyFloat F} {P : Type}.
Implicit Types (g : globals F P) (e : event) (es : list event).

Lemma storeBBnode_left prob Tree parent newnode branch g :
  branch = 0 →
  left (storeBBnode prob Tree parent newnode branch g).2
    = <[parent := newnode]> (left g) ∧
  right (storeBBnode prob Tree parent newnode branch g).2 = right g.
Proof. intros ->. done. Qed.

Lemma storeBBnode_right prob Tree parent newnode branch g :
  branch ≠ 0 →
  right (storeBBnode prob Tree parent newnode branch g).2
    = <[parent := newnode]> (right g) ∧
  left (storeBBnode prob Tree parent newnode branch g).2 = left g.
Proof. intros Hb. unfold storeBBnode. by destruct (decide (branch = 0)). Qed.

Lemma storeBBnode_nodes prob Tree parent newnode branch g :
  nodes (storeBBnode prob Tree parent newnode branch g).2
    = <[newnode := Z.of_nat (size (nodes g)) + 1]> (nodes g).
Proof. unfold storeBBnode. by destruct (decide (branch = 0)). Qed.

Lemma storeBBnode_frame prob Tree parent newnode branch g :
  T (storeBBnode prob Tree parent newnode branch g).2 = T g ∧
  card_subtree (storeBBnode prob Tree parent newnode branch g).2
    = card_subtree g ∧
  pos (storeBBnode prob Tree parent newnode branch g).2 = pos g ∧
  p (storeBBnode prob Tree parent newnode branch g).2 = p g.
Proof. unfold storeBBnode. by destruct (decide (branch = 0)). Qed.

(** What one invocation does to the slot it writes and to the others. *)
Lemma side_invoke g e b k :
  side b (invoke g e) !! k =
    if decide ((k, b) = slot e) then Some (newnode e) else side b g !! k.
Proof.
  unfold invoke, slot, is_left, side.
  destruct (decide (branch e = 0)) as [Hb|Hb].
  - destruct (storeBBnode_left (p g) (T g) (parent e) (newnode e) _ g Hb)
      as [-> ->].
    rewrite bool_decide_true by done. destruct b.
    + rewrite lookup_insert. repeat case_decide; naive_solver.
    + rewrite decide_False; [done|]. naive_solver.
  - destruct (storeBBnode_right (p g) (T g) (parent e) (newnode e) _ g Hb)
      as [-> ->].
    rewrite bool_decide_false by done. destruct b.
    + rewrite decide_False; [done|]. naive_solver.
    + rewrite lookup_insert. repeat case_decide; naive_solver.
Qed.

Lemma edge_count_invoke g e :
  side (is_left e) g !! parent e = None →
  (size (left (invoke g e)) + size (right (invoke g e)) =
   S (size (left g) + size (right g)))%nat.
Proof.
  unfold invoke, is_left, side.
  destruct (decide (branch e = 0)) as [Hb|Hb].
  - destruct (storeBBnode_left (p g) (T g) (parent e) (newnode e) _ g Hb)
      as [-> ->].
    rewrite bool_decide_true by done. intros Hk.
    rewrite map_size_insert_None by done. lia.
  - destruct (storeBBnode_right (p g) (T g) (parent e) (newnode e) _ g Hb)
      as [-> ->].
    rewrite bool_decide_false by done. intros Hk.
    rewrite map_size_insert_None by done. lia.
Qed.

Lemma run_events_distinct_slots es : ∀ g,
  NoDup (slot <$> es) →
  (∀ e, e ∈ es → side (is_left e) g !! parent e = None) →
  (∀ e, e ∈ es → recorded (run_events es g) e) ∧
  (size (left (run_events es g)) + size (right (run_events es g)) =
   size (left g) + size (right g) + length es)%nat ∧
  (∀ k b, (k, b) ∉ slot <$> es →
     side b (run_events es g) !! k = side b g !! k).
Proof.
  induction es as [|e es IH]; intros g Hnd Hfree.
  { split_and!; [by intros ? ?%elem_of_nil|simpl; lia|done]. }
  rewrite fmap_cons, NoDup_cons in Hnd. destruct Hnd as [He Hnd].
  destruct (IH (invoke g e) Hnd) as (Hrec & Hsize & Hframe).
  { intros e' He'. rewrite side_invoke. rewrite decide_False.
    - apply Hfree. set_solver.
    - intros Heq. apply He. apply list_elem_of_fmap. exists e'. split; [|done].
      by rewrite <-Heq. }
  change (run_events (e :: es) g) with (run_events es (invoke g e)).
  split_and!.
  - intros e' [->|He']%elem_of_cons; [|by apply Hrec].
    unfold recorded. rewrite Hframe by done.
    rewrite side_invoke. by rewrite decide_True.
  - rewrite Hsize, edge_count_invoke; [simpl; lia|]. apply Hfree. set_solver.
  - intros k b Hkb. rewrite fmap_cons, not_elem_of_cons in Hkb.
    destruct Hkb as [Hne Hkb]. rewrite Hframe by done.
    rewrite side_invoke. by rewrite decide_False.
Qed.

Lemma nodes_invoke g e :
  nodes (invoke g e) = <[newnode e := Z.of_nat (size (nodes g)) + 1]> (nodes g).
Proof. apply storeBBnode_nodes. Qed.

Lemma run_events_labels es : ∀ g,
  NoDup (newnode <$> es) →
  (∀ e, e ∈ es → nodes g !! newnode e = None) →
  (∀ k, k ∉ newnode <$> es → nodes (run_events es g) !! k = nodes g !! k) ∧
  size (nodes (run_events es g)) = (size (nodes g) + length es)%nat ∧
  (∀ (i : nat) e, es !! i = Some e →
     nodes (run_events es g) !! newnode e
       = Some (Z.of_nat (size (nodes g) + i) + 1)).
Proof.
  induction es as [|e es IH]; intros g Hnd Hfree.
  { split_and!; [done|simpl; lia|by intros ??]. }
  rewrite fmap_cons, NoDup_cons in Hnd. destruct Hnd as [He Hnd].
  assert (nodes g !! newnode e = None) as Hnew by (apply Hfree; set_solver).
  destruct (IH (invoke g e) Hnd) as (Hframe & Hsize & Hlab).
  { intros e' He'. rewrite nodes_invoke, lookup_insert_ne.
    - apply Hfree. set_solver.
    - intros Heq. apply He. rewrite Heq. apply list_elem_of_fmap. eauto. }
  change (run_events (e :: es) g) with (run_events es (invoke g e)).
  rewrite nodes_invoke, map_size_insert_None in Hsize by done.
  split_and!.
  - intros k Hk. rewrite fmap_cons, not_elem_of_cons in Hk.
    destruct Hk as [Hne Hk]. by rewrite Hframe, nodes_invoke, lookup_insert_ne.
  - rewrite Hsize. simpl. lia.
  - intros [|i] e' Hi; simpl in Hi.
    + injection Hi as <-. rewrite Hframe by done.
      rewrite nodes_invoke, lookup_insert_eq. do 2 f_equal. lia.
    + rewrite (Hlab i e' Hi), nodes_invoke, map_size_insert_None by done.
      do 2 f_equal. lia.
Qed.

(** *** Acyclicity of what the callback records *)

Lemma child_insert_left (l r : gmap Z Z) pa c a b :
  child (<[pa := c]> l) r a b → child l r a b ∨ (a = pa ∧ b = c).
Proof.
  unfold child. rewrite lookup_insert_Some. naive_solver.
Qed.

Lemma child_insert_right (l r : gmap Z Z) pa c a b :
  child l (<[pa := c]> r) a b → child l r a b ∨ (a = pa ∧ b = c).
Proof.
  unfold child. rewrite lookup_insert_Some. naive_solver.
Qed.

Lemma tc_first_step {A} (R : relation A) a b : tc R a b → ∃ x, R a x.
Proof. destruct 1; eauto. Qed.

(** Adding an edge to a node without children closes no cycle. *)
Lemma acyclic_add_edge (R R' : relation Z) pa c :
  (∀ a b, R' a b → R a b ∨ (a = pa ∧ b = c)) →
  (∀ x, ¬ R' c x) →
  (∀ n, ¬ tc R n n) → ∀ n, ¬ tc R' n n.
Proof.
  intros Hsub Hleaf Hac.
  assert (∀ a b, tc R' a b → tc R a b ∨ b = c) as Hpath.
  { induction 1 as [a b Hab|a m b Ham Hmb IH].
    - destruct (Hsub _ _ Hab) as [?|[_ ->]]; [left; by apply tc_once|by right].
    - destruct IH as [IH| ->]; [|by right].
      destruct (Hsub _ _ Ham) as [?|[_ ->]]; [left; by eapply tc_l|].
      apply tc_first_step in Hmb as [x Hx]. by destruct (Hleaf x). }
  intros n Hn. destruct (Hpath _ _ Hn) as [?| ->]; [by eapply Hac|].
  apply tc_first_step in Hn as [x Hx]. by destruct (Hleaf x).
Qed.

(** The invariant of a run of reports with fresh new nodes: every node with
    a child has been seen, and there is no cycle. *)
Lemma invoke_acyclic g e (seen : gset Z) :
  (∀ a b, child (left g) (right g) a b → a ∈ seen) →
  acyclic (left g) (right g) →
  newnode e ∉ seen → newnode e ≠ parent e →
  (∀ a b, child (left (invoke g e)) (right (invoke g e)) a b →
     a ∈ ({[parent e; newnode e]} ∪ seen : gset Z)) ∧
  acyclic (left (invoke g e)) (right (invoke g e)).
Proof.
  intros Hseen Hac Hnew Hne.
  assert (∀ a b, child (left (invoke g e)) (right (invoke g e)) a b →
    child (left g) (right g) a b ∨ (a = parent e ∧ b = newnode e)) as Hsub.
  { intros a b. unfold invoke. destruct (decide (branch e = 0)) as [Hb|Hb].
    - destruct (storeBBnode_left (p g) (T g) (parent e) (newnode e) _ g Hb)
        as [-> ->]. apply child_insert_left.
    - destruct (storeBBnode_right (p g) (T g) (parent e) (newnode e) _ g Hb)
        as [-> ->]. apply child_insert_right. }
  split.
  - intros a b [Hab|[-> _]]%Hsub; [|set_solver].
    apply Hseen in Hab. set_solver.
  - unfold acyclic.
    eapply (acyclic_add_edge (child (left g) (right g)));
      [exact Hsub| |exact Hac].
    intros x [Hx|[? _]]%Hsub; [|done]. apply Hnew. by eapply Hseen.
Qed.

Lemma run_events_acyclic es : ∀ g (seen : gset Z),
  (∀ a b, child (left g) (right g) a b → a ∈ seen) →
  acyclic (left g) (right g) →
  fresh_newnodes seen es →
  acyclic (left (run_events es g)) (right (run_events es g)).
Proof.
  induction es as [|e es IH]; intros g seen Hseen Hac Hfresh; [done|].
  destruct Hfresh as (Hnew & Hne & Hfresh).
  destruct (invoke_acyclic g e seen Hseen Hac Hnew Hne) as [Hseen' Hac'].
  by apply (IH (invoke g e) _ Hseen' Hac').
Qed.

Lemma initial_acyclic (p0 : P) :
  acyclic (left (initial (F := F) p0)) (right (initial (F := F) p0)).
Proof.
  intros n [x [Hx|Hx]]%tc_first_step; simpl in Hx; by rewrite lookup_empty in Hx.
Qed.

End callback_facts.

(** ** Recorded trees are trees *)

Section single_parent_facts.
Variables left right : gmap Z Z.
Local Abbreviation child := (child left right).
Local Abbreviation unfolds := (unfolds left right).
Hypothesis Hac : acyclic left right.
Hypothesis Hsp : single_parent left right.

Lemma child_side p c :
  child p c ↔ ∃ b : bool, (if b then left else right) !! p = Some c.
Proof.
  split.
  - intros [H|H]; [by exists true|by exists false].
  - intros [[] H]; [by left|by right].
Qed.

Lemma child_parent_unique p1 p2 c : child p1 c → child p2 c → p1 = p2.
Proof using Hsp.
  intros [b1 H1]%child_side [b2 H2]%child_side.
  by destruct (Hsp _ _ _ _ _ H1 H2).
Qed.

(** Two ancestors of a node lie on one path. *)
Lemma ancestors_comparable a b m :
  rtc child a m → rtc child b m → rtc child a b ∨ rtc child b a.
Proof using Hsp.
  intros Ha. revert b. revert m Ha.
  apply (rtc_ind_r (λ m, ∀ b, rtc child b m → rtc child a b ∨ rtc child b a)).
  { intros b Hb. by right. }
  intros m' m Ham' Hm'm IH b Hb.
  apply rtc_inv_r in Hb as [->|(m'' & Hbm'' & Hm''m)].
  { left. by eapply rtc_r. }
  rewrite (child_parent_unique _ _ _ Hm''m Hm'm) in Hbm''. by apply IH.
Qed.

Lemma unfolds_NoDup o t : unfolds o t → NoDup (labels t).
Proof using Hac Hsp.
  induction 1 as [|n l r Hl IHl Hr IHr]; simpl; [constructor|].
  assert (∀ o s m, unfolds o s → m ∈ labels s →
            ∃ c, o = Some c ∧ rtc child c m) as Hreach.
  { intros o s m Hs Hm. destruct Hs as [|c sl sr Hsl Hsr]; [by apply elem_of_nil in Hm|].
    exists c. split; [done|].
    by apply (labels_rtc _ _ _ _ _ (unfolds_node _ _ _ _ _ Hsl Hsr)). }
  apply NoDup_cons. split; [|apply NoDup_app; split_and!; [done| |done]].
  - intros [Hn|Hn]%elem_of_app.
    + destruct (Hreach _ _ _ Hl Hn) as (c & Hc & Hcn).
      apply (Hac n). eapply tc_rtc_r; [apply tc_once; left; exact Hc|exact Hcn].
    + destruct (Hreach _ _ _ Hr Hn) as (c & Hc & Hcn).
      apply (Hac n). eapply tc_rtc_r; [apply tc_once; right; exact Hc|exact Hcn].
  - intros m Hml Hmr.
    destruct (Hreach _ _ _ Hl Hml) as (cl & Hcl & Hclm).
    destruct (Hreach _ _ _ Hr Hmr) as (cr & Hcr & Hcrm).
    assert (cl ≠ cr) as Hne.
    { intros ->. destruct (Hsp cr n n true false Hcl Hcr) as [_ ?].
      discriminate. }
    assert (∀ a b, child n a → child n b → a ≠ b → ¬ rtc child a b) as Hno.
    { intros a b Hna Hnb Hab Hrtc.
      apply rtc_inv_r in Hrtc as [->|(q & Haq & Hqb)]; [done|].
      rewrite (child_parent_unique _ _ _ Hqb Hnb) in Haq.
      apply (Hac n). eapply tc_rtc_r; [apply tc_once; exact Hna|exact Haq]. }
    destruct (ancestors_comparable _ _ _ Hclm Hcrm) as [H|H].
    + apply (Hno cl cr); [by left|by right|done|done].
    + apply (Hno cr cl); [by right|by left|done|done].
Qed.

Lemma acyclic_tree_from n : ∃ t, tree_from left right n t.
Proof using Hac Hsp.
  destruct (acyclic_unfolds _ _ Hac n) as [t Ht].
  exists t. split; [done|]. by eapply unfolds_NoDup.
Qed.

End single_parent_facts.

Section recorded.
Context {F : Type} {P : Type}.
Implicit Types (g : globals F P) (e : event) (es : list event).

Lemma invoke_single_parent g e (seen : gset Z) :
  (∀ a b, child (left g) (right g) a b → b ∈ seen) →
  single_parent (left g) (right g) →
  newnode e ∉ seen →
  (∀ a b, child (left (invoke g e)) (right (invoke g e)) a b →
     b ∈ ({[parent e; newnode e]} ∪ seen : gset Z)) ∧
  single_parent (left (invoke g e)) (right (invoke g e)).
Proof.
  intros Hseen Hsp Hnew.
  assert (∀ b k c, side b (invoke g e) !! k = Some c →
    ((k, b) = slot e ∧ c = newnode e) ∨
    ((k, b) ≠ slot e ∧ side b g !! k = Some c)) as Hside.
  { intros b k c. rewrite side_invoke. case_decide; naive_solver. }
  assert (∀ b k c, side b g !! k = Some c → c ∈ seen) as Hseen'.
  { intros b k c Hc. apply (Hseen k). destruct b; [by left|by right]. }
  split.
  - intros a b Hab. apply child_side in Hab as [s Hs].
    destruct (Hside s a b Hs) as [[_ ->]|[_ Hold]]; [set_solver|].
    apply Hseen' in Hold. set_solver.
  - intros c p1 p2 b1 b2 H1 H2.
    destruct (Hside b1 p1 c H1) as [[E1 ->]|[N1 O1]];
      destruct (Hside b2 p2 _ H2) as [[E2 E2']|[N2 O2]].
    + rewrite <-E2 in E1. by injection E1.
    + by apply Hseen' in O2.
    + subst c. by apply Hseen' in O1.
    + by apply (Hsp c).
Qed.

Lemma run_events_single_parent es : ∀ g (seen : gset Z),
  (∀ a b, child (left g) (right g) a b → b ∈ seen) →
  single_parent (left g) (right g) →
  fresh_newnodes seen es →
  single_parent (left (run_events es g)) (right (run_events es g)).
Proof.
  induction es as [|e es IH]; intros g seen Hseen Hsp Hfresh; [done|].
  destruct Hfresh as (Hnew & Hne & Hfresh).
  destruct (invoke_single_parent g e seen Hseen Hsp Hnew) as [Hseen' Hsp'].
  by apply (IH (invoke g e) _ Hseen' Hsp').
Qed.

(** What the callback records from reports with fresh new nodes is a tree
    below every node. *)
Lemma recorded_tree_from es (p0 : P) n :
  fresh_newnodes ∅ es →
  ∃ t, tree_from (left (run_events es (initial (F := F) p0)))
                 (right (run_events es (initial (F := F) p0))) n t.
Proof.
  intros Hfresh. apply acyclic_tree_from.
  - apply (run_events_acyclic es (initial p0) ∅); [|apply initial_acyclic|done].
    intros a b [Hab|Hab]; simpl in Hab; by rewrite lookup_empty in Hab.
  - apply (run_events_single_parent es (initial p0) ∅); [| |done].
    + intros a b [Hab|Hab]; simpl in Hab; by rewrite lookup_empty in Hab.
    + intros c p1 p2 b1 b2 H1 _. destruct b1; simpl in H1;
        by rewrite lookup_empty in H1.
Qed.

End recorded.

(** ** The notebooks as scripts *)

Lemma stmt_nested_ind (P : stmt → Prop) :
  (∀ obj c, P (Call obj c)) →
  (∀ d what obj, P (Output d what obj)) →
  (∀ n body, Forall P body → P (For n body)) →
  (∀ a b, Forall P a → Forall P b → P (If a b)) →
  (∀ a b, Forall P a → Forall P b → P (Try a b)) →
  ∀ s, P s.
Proof.
  intros HCall HOutput HFor HIf HTry.
  refine (fix go (s : stmt) : P s :=
    let go_list := fix go_list (l : list stmt) : Forall P l :=
      match l with
      | [] => @List.Forall_nil _ P
      | x :: l => @List.Forall_cons _ P x l (go x) (go_list l)
      end in
    match s with
    | Call obj c => HCall obj c
    | Output d what obj => HOutput d what obj
    | For n body => HFor n body (go_list body)
    | If a b => HIf a b (go_list a) (go_list b)
    | Try a b => HTry a b (go_list a) (go_list b)
    end).
Qed.

Section propagation.
Context {E : Type}.
Implicit Types (w : solver E) (st : run_state) (r : outcome (E := E)).

Lemma reached_refl w st : reached w st (st, None).
Proof. split; simpl; [lia|]. intros k ?. lia. Qed.

Lemma reached_trans w st st1 r :
  reached w st (st1, None) → reached w st1 r → reached w st r.
Proof.
  intros [H1 H2] [H3 H4]. simpl in *. split; [lia|].
  destruct r.2 as [e|].
  - destruct H4 as (? & ? & H4). split_and!; [lia|done|].
    intros k Hk. destruct (decide (k < ncalls st1)%nat); [apply H2|apply H4]; lia.
  - intros k Hk. destruct (decide (k < ncalls st1)%nat); [apply H2|apply H4]; lia.
Qed.

Lemma reached_seq w (body : script) :
  Forall (λ s, ∀ st, reached w st (exec w s st)) body →
  ∀ st, reached w st (exec_seq (exec w) body st).
Proof.
  induction 1 as [|s body Hs _ IH]; intros st; simpl; [apply reached_refl|].
  specialize (Hs st). destruct (exec w s st) as [st1 [e|]]; [done|].
  eapply reached_trans; [exact Hs|apply IH].
Qed.

Lemma reached_exec w s :
  handler_free s = true → ∀ st, reached w st (exec w s st).
Proof.
  induction s as [obj c|d what obj|n body IH|a b IHa IHb|a b _ _]
    using stmt_nested_ind; intros Hfree st; simpl in *.
  - split; simpl; [lia|]. destruct (raises w (ncalls st)) as [e|] eqn:Hr.
    + split_and!; [lia| |intros k; lia].
      by rewrite Nat.sub_0_r.
    + intros k Hk. replace k with (ncalls st) by lia. done.
  - apply reached_refl.
  - assert (∀ st, reached w st (exec_seq (exec w) body st)) as Hbody.
    { apply reached_seq. rewrite forallb_forall in Hfree.
      rewrite Forall_forall in IH |- *. intros s Hs. apply IH; [done|].
      apply Hfree. by apply list_elem_of_In. }
    rewrite N2Nat.inj_iter. induction (N.to_nat n) as [|k IHk]; simpl.
    { apply reached_refl. }
    destruct (Nat.iter k _ _) as [st1 [e|]]; [done|].
    eapply reached_trans; [exact IHk|apply Hbody].
  - apply andb_prop in Hfree as [Ha Hb].
    assert (∀ (l : script), forallb handler_free l = true →
      Forall (λ s, handler_free s = true → ∀ st, reached w st (exec w s st)) l →
      ∀ st, reached w st (exec_seq (exec w) l st)) as Hseq.
    { intros l Hl IH. apply reached_seq. rewrite forallb_forall in Hl.
      rewrite Forall_forall in IH |- *. intros s Hs. apply IH; [done|].
      apply Hl. by apply list_elem_of_In. }
    set (st' := RunState (ncalls st) (S (ntests st))).
    assert (reached w st (st', None)) as Hst'.
    { split; simpl; [lia|]. intros k ?. lia. }
    destruct (test w (ntests st)); (eapply reached_trans; [exact Hst'|]);
      by apply Hseq.
  - done.
Qed.

Lemma handler_free_propagates (s : script) :
  forallb handler_free s = true → propagates (E := E) s.
Proof.
  intros Hfree w st.
  apply reached_seq. rewrite forallb_forall in Hfree.
  apply Forall_forall. intros x Hx. apply reached_exec, Hfree.
  by apply list_elem_of_In.
Qed.

End propagation.

(** ** The callback and the notebooks: the claims *)

(** C1 (as amended).  A call [storeBBnode(prob, Tree, parent, newnode,
    branch)] sets [left[parent] = newnode] when [branch == 0] and
    [right[parent] = newnode] otherwise, and changes no other key of [left]
    or [right]; hence after a sequence of reports no two of which name the
    same parent and the same side, starting from empty dictionaries, [left]
    and [right] contain exactly one edge per report. *)
Theorem storeBBnode_records_edges {F P : Type} :
  (∀ (prob : P) (Tree : Nx.Graph F) parent newnode branch (g : globals F P),
     (branch = 0 →
        left (storeBBnode prob Tree parent newnode branch g).2 !! parent
          = Some newnode ∧
        (∀ k, k ≠ parent →
           left (storeBBnode prob Tree parent newnode branch g).2 !! k
             = left g !! k) ∧
        right (storeBBnode prob Tree parent newnode branch g).2 = right g) ∧
     (branch ≠ 0 →
        right (storeBBnode prob Tree parent newnode branch g).2 !! parent
          = Some newnode ∧
        (∀ k, k ≠ parent →
           right (storeBBnode prob Tree parent newnode branch g).2 !! k
             = right g !! k) ∧
        left (storeBBnode prob Tree parent newnode branch g).2 = left g)) ∧
  (∀ (es : list event) (p0 : P),
     NoDup (slot <$> es) →
     one_edge_per_event es (run_events es (initial (F := F) p0))).
Proof.
  split.
  - intros prob Tree parent newnode branch g. split; intros Hb.
    + destruct (storeBBnode_left prob Tree parent newnode branch g Hb) as [-> ->].
      split_and!; [apply lookup_insert_eq| |done].
      intros k Hk. by rewrite lookup_insert_ne.
    + destruct (storeBBnode_right prob Tree parent newnode branch g Hb) as [-> ->].
      split_and!; [apply lookup_insert_eq| |done].
      intros k Hk. by rewrite lookup_insert_ne.
  - intros es p0 Hnd.
    destruct (run_events_distinct_slots es (initial (F := F) p0) Hnd)
      as (Hrec & Hsize & _).
    { intros e _. unfold side. by destruct (is_left e). }
    split; [done|]. rewrite Hsize. simpl. by rewrite !map_size_empty.
Qed.

Lemma storeBBnode_records_edges_witness :
  NoDup (slot <$> two_children) ∧ one_edge_per_event two_children g3.
Proof.
  assert (NoDup (slot <$> two_children)) as Hnd.
  { apply (bool_decide_unpack _). vm_compute. exact I. }
  split; [exact Hnd|].
  exact (proj2 (storeBBnode_records_edges (F := Q) (P := unit))
               two_children tt Hnd).
Defined.

(** C1 as stated fails when a parent gets two children on the same side:
    the report with [branch == 2] lands in [right] like the one with
    [branch == 1] and replaces its edge. *)
Lemma storeBBnode_overwrites_edge :
  ¬ one_edge_per_event three_children
      (run_events three_children (initial (F := Q) tt)).
Proof.
  intros [Hrec _]. specialize (Hrec (Event 1 3 1)).
  unfold recorded in Hrec. vm_compute in Hrec.
  assert (Some 4 = Some 3) as Habs; [|discriminate].
  apply Hrec. unfold three_children. set_solver.
Qed.

(** C9 (as amended).  [callback_newnode.ipynb] does keep state of its own
    across callback invocations: the dictionaries [nodes], [left] and
    [right], created once before the solve, are updated by every
    invocation of [storeBBnode] and read by the next.  When the reported new
    nodes are pairwise distinct and differ from the root [1], [nodes] has one
    entry for the root and one per report, and labels the nodes 1, 2, 3, ...
    in the order they were found. *)
Theorem nodes_labels_in_order_found {F P : Type} (es : list event) (p0 : P) :
  NoDup (1 :: (newnode <$> es)) →
  size (nodes (run_events es (initial (F := F) p0))) = S (length es) ∧
  nodes (run_events es (initial (F := F) p0)) !! 1 = Some 1 ∧
  ∀ (i : nat) e, es !! i = Some e →
    nodes (run_events es (initial (F := F) p0)) !! newnode e
      = Some (Z.of_nat i + 2).
Proof.
  intros [H1 Hnd]%NoDup_cons.
  destruct (run_events_labels es (initial (F := F) p0) Hnd)
    as (Hframe & Hsize & Hlab).
  { intros e He. simpl. apply lookup_singleton_ne. intros Heq. apply H1.
    rewrite Heq. apply list_elem_of_fmap. eauto. }
  simpl in *. rewrite map_size_singleton in *. split_and!.
  - rewrite Hsize. lia.
  - rewrite Hframe by done. apply lookup_singleton_eq.
  - intros i e Hi. rewrite (Hlab i e Hi). f_equal. lia.
Qed.

Lemma nodes_labels_in_order_found_witness :
  NoDup (1 :: (newnode <$> two_children)) ∧
  size (nodes g3) = 3%nat ∧ nodes g3 !! 1 = Some 1 ∧
  ∀ (i : nat) e, two_children !! i = Some e →
    nodes g3 !! newnode e = Some (Z.of_nat i + 2).
Proof.
  assert (NoDup (1 :: (newnode <$> two_children))) as Hnd.
  { apply (bool_decide_unpack _). vm_compute. exact I. }
  split; [exact Hnd|].
  exact (nodes_labels_in_order_found (F := Q) two_children tt Hnd).
Defined.

(** C9 as stated fails: an invocation of the callback changes the
    notebook's dictionaries, and the change is still there afterwards. *)
Lemma storeBBnode_state_persists : ¬ nothing_persists (F := Q) (P := unit).
Proof.
  intros H. specialize (H (initial tt) (Event 1 2 0)).
  apply (f_equal (λ g, nodes g !! 2)) in H. vm_compute in H. discriminate.
Qed.

(** C8.  [postorder_count] and [setpos] terminate on every acyclic
    [left]/[right] mapping: a recursion depth above the height of the tree
    below the argument is never exhausted, [postorder_count] returns, and
    so does [setpos] with the cardinalities [postorder_count] computed;
    each recursive call is on a child, whose subtree has fewer nodes.  The
    mapping is acyclic whenever it was recorded by [storeBBnode] from reports
    whose new node differs from the parent it is reported under and from
    every parent and new node reported before. *)
Theorem layout_terminates :
  (∀ (left right : gmap Z Z), acyclic left right →
     (∀ n c, child left right n c →
        ∃ tn tc, unfolds left right (Some n) tn ∧
                 unfolds left right (Some c) tc ∧
                 (tree_size tc < tree_size tn)%nat) ∧
     ∀ (n : Z) (cs0 : gmap Z Z),
       ∃ fuel0 : nat, ∀ fuel : nat, (fuel0 ≤ fuel)%nat →
         (∃ cs, postorder_count left right fuel n cs0 = Ok cs ∧
            ∀ (F : Type) (HF : PyFloat F) (T : Nx.Graph F) curpos st_width depth,
              ∃ T', setpos left right cs fuel T n curpos st_width depth = Ok T') ∧
         (∀ (F : Type) (HF : PyFloat F) (cs : gmap Z Z) (T : Nx.Graph F)
             curpos st_width depth,
            setpos left right cs fuel T n curpos st_width depth
              ≠ Raise RecursionError)) ∧
  (∀ (F P : Type) (es : list event) (p0 : P),
     fresh_newnodes ∅ es →
     acyclic (left (run_events es (initial (F := F) p0)))
             (right (run_events es (initial (F := F) p0)))).
Proof.
  split.
  - intros left right Hac. split.
    + intros n c Hc. destruct (acyclic_unfolds _ _ Hac n) as [tn Htn].
      destruct (acyclic_unfolds _ _ Hac c) as [tc Htc].
      exists tn, tc. split_and!; [done|done|].
      apply unfolds_Some_inv in Htn as (l & r & -> & Hl & Hr).
      apply unfolds_Some_inv in Htc as Hinv. destruct Hinv as (? & ? & Etc & _).
      destruct Hc as [Hc|Hc].
      * rewrite Hc in Hl. rewrite (unfolds_functional _ _ _ _ _ Hl Htc).
        simpl. lia.
      * rewrite Hc in Hr. rewrite (unfolds_functional _ _ _ _ _ Hr Htc).
        simpl. lia.
    + intros n cs0. destruct (acyclic_unfolds _ _ Hac n) as [t Ht].
      exists (tree_height t). intros fuel Hfuel. split.
      * destruct (postorder_count_spec _ _ _ _ fuel cs0 Ht Hfuel)
          as (cs & Ecs & _ & Hcs).
        exists cs. split; [done|]. intros F HF T curpos w depth.
        by eapply setpos_returns.
      * intros F HF cs T curpos w depth. by eapply setpos_no_RecursionError.
  - intros F P es p0 Hfresh.
    apply (run_events_acyclic es (initial p0) ∅); [|apply initial_acyclic|done].
    intros a b [Hab|Hab]; simpl in Hab; by rewrite lookup_empty in Hab.
Qed.

Lemma layout_terminates_witness :
  fresh_newnodes ∅ two_children ∧
  acyclic (left g3) (right g3) ∧
  ∃ fuel0 : nat, ∀ fuel : nat, (fuel0 ≤ fuel)%nat →
    ∃ cs, postorder_count (left g3) (right g3) fuel 1 ∅ = Ok cs.
Proof.
  assert (fresh_newnodes ∅ two_children) as Hfresh.
  { simpl. split_and!; (done || set_solver). }
  pose proof (proj2 layout_terminates Q unit two_children tt Hfresh) as Hac.
  split; [exact Hfresh|]. split; [exact Hac|].
  destruct (proj2 (proj1 layout_terminates (left g3) (right g3) Hac) 1 ∅)
    as [fuel0 H].
  exists fuel0. intros fuel Hfuel.
  destruct (proj1 (H fuel Hfuel)) as (cs & Hcs & _). by exists cs.
Defined.




Section errors.
Context {E : Type}.


(** A handler would make the difference: this script swallows the
    exception of its call. *)
Example try_swallows (e : E) :
  run (Solver (λ _, Some e) (λ _, true)) [Try [Call "p" optimize] []]
    = (RunState 1 0, None).
Proof. reflexivity. Qed.

End errors.

(** ** The sample run *)

Lemma g3_unfolds : unfolds (left g3) (right g3) (Some 1) t3.
Proof.
  assert (∀ n l r ol or,
    left g3 !! n = ol → right g3 !! n = or →
    unfolds (left g3) (right g3) ol l → unfolds (left g3) (right g3) or r →
    unfolds (left g3) (right g3) (Some n) (Node l n r)) as Hnode.
  { intros n l r ol or <- <-. apply unfolds_node. }
  repeat first [eapply Hnode; [vm_compute; reflexivity..| |]
               |apply unfolds_absent].
Qed.

Lemma g3_tree : tree_from (left g3) (right g3) 1 t3.
Proof.
  split; [apply g3_unfolds|].
  apply (bool_decide_unpack _). vm_compute. exact I.
Qed.

Lemma g3_acyclic : acyclic (left g3) (right g3).
Proof.
  apply (run_events_acyclic two_children (initial tt) ∅);
    [|apply initial_acyclic|].
  - intros a b [Hab|Hab]; simpl in Hab; by rewrite lookup_empty in Hab.
  - simpl. split_and!; (done || set_solver).
Qed.

Lemma g3_cards : correct_cards (left g3) (right g3) cards3 1.
Proof.
  intros m Hm. apply (labels_rtc _ _ _ _ _ g3_unfolds) in Hm.
  destruct (unfolds_sub _ _ _ _ g3_unfolds m Hm) as (tm & Htm & _).
  exists tm. split; [done|].
  assert (∀ m' tm', m' ∈ labels t3 → unfolds (left g3) (right g3) (Some m') tm' →
    cards3 !! m' = Some (Z.of_nat (tree_size tm'))) as Hall; [|by apply Hall].
  destruct (postorder_count_spec (left g3) (right g3) 1 t3 2 ∅ g3_unfolds)
    as (cs & Ecs & _ & Hcs); [simpl; lia|].
  rewrite cards3_computed in Ecs. by injection Ecs as <-.
Qed.


Lemma postorder_count_cardinalities_witness :
  acyclic (left g3) (right g3) ∧
  ∃ fuel0 : nat, ∀ fuel : nat, (fuel0 ≤ fuel)%nat →
    ∃ cs', postorder_count (left g3) (right g3) fuel 1 ∅ = Ok cs' ∧
      ∀ m, rtc (child (left g3) (right g3)) 1 m →
        ∃ tm k, unfolds (left g3) (right g3) (Some m) tm ∧
          cs' !! m = Some k ∧
          k = Z.of_nat (length (labels tm)) ∧
          k = 1 + child_card cs' (left g3 !! m) + child_card cs' (right g3 !! m) ∧
          1 ≤ k ∧
          (k = 1 ↔ left g3 !! m = None ∧ right g3 !! m = None).
Proof.
  split; [exact g3_acyclic|].
  exact (postorder_count_cardinalities (left g3) (right g3) 1 ∅ g3_acyclic).
Defined.

Lemma layout_places_tree_witness :
  tree_from (left g3) (right g3) 1 t3 ∧
  ∃ fuel0 : nat, ∀ fuel : nat, (fuel0 ≤ fuel)%nat →
    ∃ g', layout fuel g3 = Ok g' ∧
      Nx.node_attr (T g') !! 1 = Some (Some (lit_0_5, 1)) ∧
      ∀ (d : nat) (m : Z), nsteps (child (left g3) (right g3)) d 1 m →
        (∃ x y, Nx.node_attr (T g') !! m = Some (Some (x, y)) ∧
                pos g' !! m = Some (x, y) ∧
                ((1 ≤ d)%nat → y = 1 - Z.of_nat d)) ∧
        (∀ q, rtc (child (left g3) (right g3)) 1 q →
              child (left g3) (right g3) q m → Nx.has_edge (T g') q m).
Proof.
  split; [exact g3_tree|].
  exact (layout_places_tree g3 t3 g3_tree).
Defined.


(** The layout of the sample run, computed in binary64 as CPython does:
    the root at (0.5, 1), its children at height 0. *)
Example layout_binary64 :
  (g' ← layout 2 (run_events two_children (initial (F := float) tt));
   mret (pos g' !! 1, pos g' !! 2, pos g' !! 3))
  = Ok (Some (0.5%float, 1), Some (0.16849999999999998%float, 0),
        Some (0.8325%float, 0)).
Proof. vm_compute. reflexivity. Qed.

(** The same layout in exact arithmetic: the children at 337/2000 and
    333/400. *)
Example layout_exact :
  match layout 2 g3 with
  | Ok g' =>
      match pos g' !! 2, pos g' !! 3 with
      | Some (x2, y2), Some (x3, y3) =>
          (x2 == 337 # 2000)%Q ∧ y2 = 0 ∧ (x3 == 333 # 400)%Q ∧ y3 = 0
      | _, _ => False
      end
  | Raise _ => False
  end.
Proof. vm_compute. repeat split. Qed.

(** * More on [callback_newnode.ipynb] *)

(** ** More on [postorder_count]: when it returns, and what it raises *)

Section postorder_more.
Variables left right : gmap Z Z.
Local Abbreviation child := (child left right).
Local Abbreviation unfolds := (unfolds left right).
Local Abbreviation postorder_count := (postorder_count left right).

Local Abbreviation visit fuel o card cs :=
  (match o with
   | Some c =>
       card_subtree ← postorder_count fuel c cs;
       k ← getitem card_subtree c;
       mret ((card + k)%Z, card_subtree)
   | None => mret (card, cs)
   end).

Lemma postorder_count_Ok_inv fuel n cs cs' :
  postorder_count (S fuel) n cs = Ok cs' →
  ∃ c1 cs1 c2 cs2,
    visit fuel (left !! n) 0 cs = Ok (c1, cs1) ∧
    visit fuel (right !! n) c1 cs1 = Ok (c2, cs2) ∧
    cs' = <[n := 1 + c2]> cs2.
Proof.
  rewrite postorder_count_S.
  destruct (visit fuel (left !! n) 0 cs) as [[c1 cs1]|e] eqn:E1; [|done].
  py_simpl.
  destruct (visit fuel (right !! n) c1 cs1) as [[c2 cs2]|e] eqn:E2; [|done].
  py_simpl. intros [= <-]. by exists c1, cs1, c2, cs2.
Qed.

Lemma visit_Ok_inv fuel o card cs c' cs1 :
  visit fuel o card cs = Ok (c', cs1) →
  (o = None ∧ c' = card ∧ cs1 = cs) ∨
  (∃ c k, o = Some c ∧ postorder_count fuel c cs = Ok cs1 ∧
          cs1 !! c = Some k ∧ c' = card + k).
Proof.
  destruct o as [c|]; [|intros [= <- <-]; by left].
  destruct (postorder_count fuel c cs) as [cs2|e] eqn:E; [|done]. py_simpl.
  unfold getitem. destruct (cs2 !! c) as [k|] eqn:Ek; [|done]. py_simpl.
  intros [= <- <-]. right. by exists c, k.
Qed.

(** A call that returns has set [card_subtree[node]]. *)
Lemma postorder_count_sets_node fuel n cs cs' :
  postorder_count fuel n cs = Ok cs' → is_Some (cs' !! n).
Proof.
  destruct fuel as [|fuel]; [done|].
  intros (c1 & cs1 & c2 & cs2 & _ & _ & ->)%postorder_count_Ok_inv.
  by rewrite lookup_insert_eq.
Qed.

(** A call that returns has walked a finite tree, no higher than the
    recursion depth it was allowed. *)
Lemma postorder_count_Ok_unfolds fuel : ∀ n cs cs',
  postorder_count fuel n cs = Ok cs' →
  ∃ t, unfolds (Some n) t ∧ (tree_height t ≤ fuel)%nat.
Proof.
  induction fuel as [|fuel IH]; intros n cs cs'; [done|].
  intros (c1 & cs1 & c2 & cs2 & E1 & E2 & _)%postorder_count_Ok_inv.
  assert (∀ o card cs c' cs1, visit fuel o card cs = Ok (c', cs1) →
    ∃ t, unfolds o t ∧ (tree_height t ≤ fuel)%nat) as Hvisit.
  { intros o card cs0 c' cs0' [(-> & _)|(c & k & -> & E & _)]%visit_Ok_inv.
    - exists Leaf. split; [constructor|simpl; lia].
    - by eapply IH. }
  destruct (Hvisit _ _ _ _ _ E1) as (l & Hl & Hhl).
  destruct (Hvisit _ _ _ _ _ E2) as (r & Hr & Hhr).
  exists (Node l n r). split; [by constructor|simpl; lia].
Qed.

Lemma postorder_count_Ok_or_RecursionError fuel : ∀ n cs,
  (∃ cs', postorder_count fuel n cs = Ok cs') ∨
  postorder_count fuel n cs = Raise RecursionError.
Proof.
  induction fuel as [|fuel IH]; intros n cs; [by right|].
  assert (∀ o card cs,
    (∃ c' cs', visit fuel o card cs = Ok (c', cs')) ∨
    visit fuel o card cs = Raise RecursionError) as Hvisit.
  { intros [c|] card cs0; [|left; by eexists _, _].
    destruct (IH c cs0) as [[cs' E]| ->]; [|by right].
    rewrite E. py_simpl.
    destruct (postorder_count_sets_node _ _ _ _ E) as [k Hk].
    unfold getitem. rewrite Hk. py_simpl. left. by eexists _, _. }
  rewrite postorder_count_S.
  destruct (Hvisit (left !! n) 0 cs) as [(c1 & cs1 & ->)| ->]; [|by right].
  py_simpl.
  destruct (Hvisit (right !! n) c1 cs1) as [(c2 & cs2 & ->)| ->]; [|by right].
  py_simpl. left. by eexists.
Qed.

(** In an unfolding, a node below another has a smaller subtree. *)
Lemma unfolds_tc_smaller m m' :
  tc child m m' → ∀ tm, unfolds (Some m) tm →
  ∃ tm', unfolds (Some m') tm' ∧ (tree_size tm' < tree_size tm)%nat.
Proof.
  assert (∀ a b ta, child a b → unfolds (Some a) ta →
    ∃ tb, unfolds (Some b) tb ∧ (tree_size tb < tree_size ta)%nat) as Hstep.
  { intros a b ta Hab (l & r & -> & Hl & Hr)%unfolds_Some_inv.
    destruct Hab as [Hab|Hab].
    - rewrite Hab in Hl. exists l. split; [done|simpl; lia].
    - rewrite Hab in Hr. exists r. split; [done|simpl; lia]. }
  induction 1 as [a b Hab|a b c Hab _ IH]; intros ta Hta.
  - by eapply Hstep.
  - destruct (Hstep _ _ _ Hab Hta) as (tb & Htb & ?).
    destruct (IH _ Htb) as (tc' & ? & ?). exists tc'. split; [done|lia].
Qed.

Lemma unfolds_no_cycle n t m :
  unfolds (Some n) t → rtc child n m → ¬ tc child m m.
Proof.
  intros Ht Hm Hcyc. apply (labels_rtc _ _ _ _ _ Ht) in Hm.
  destruct (unfolds_sub _ _ _ _ Ht m Hm) as (tm & Htm & _).
  destruct (unfolds_tc_smaller _ _ Hcyc _ Htm) as (tm' & Htm' & Hlt).
  rewrite (unfolds_functional _ _ _ _ _ Htm' Htm) in Hlt. lia.
Qed.

Lemma postorder_count_again fuel n cs cs' :
  postorder_count fuel n cs = Ok cs' →
  postorder_count fuel n cs' = Ok cs' ∧
  (∀ m, ¬ rtc child n m → cs' !! m = cs !! m) ∧
  (∀ cs2 cs2', postorder_count fuel n cs2 = Ok cs2' →
     ∀ m, rtc child n m → cs2' !! m = cs' !! m).
Proof.
  intros E. destruct (postorder_count_Ok_unfolds _ _ _ _ E) as (t & Ht & Hfuel).
  destruct (postorder_count_spec _ _ _ _ _ cs Ht Hfuel) as (cs1 & E1 & F1 & S1).
  rewrite E in E1. injection E1 as <-.
  assert (∀ m, m ∈ labels t →
    ∃ tm, unfolds (Some m) tm) as Hsub.
  { intros m Hm. destruct (unfolds_sub _ _ _ _ Ht m Hm) as (tm & ? & _). eauto. }
  split_and!.
  - destruct (postorder_count_spec _ _ _ _ _ cs' Ht Hfuel) as (cs2 & E2 & F2 & S2).
    rewrite E2. f_equal. apply map_eq. intros m.
    destruct (decide (m ∈ labels t)) as [Hm|Hm].
    + destruct (Hsub m Hm) as [tm Htm]. by rewrite (S2 m tm), (S1 m tm).
    + by apply F2.
  - intros m Hm. apply F1. by rewrite (labels_rtc _ _ _ _ _ Ht).
  - intros cs2 cs2' E2 m Hm. apply (labels_rtc _ _ _ _ _ Ht) in Hm.
    destruct (postorder_count_spec _ _ _ _ _ cs2 Ht Hfuel) as (cs3 & E3 & _ & S3).
    rewrite E2 in E3. injection E3 as <-.
    destruct (Hsub m Hm) as [tm Htm]. by rewrite (S3 m tm), (S1 m tm).
Qed.

End postorder_more.

(** X1.  [postorder_count(node)] returns exactly when [left] and [right]
    unfold from [node] into a finite tree no higher than the recursion depth
    allowed; otherwise it ends in [RecursionError].  It raises nothing else:
    the look-ups [card_subtree[left[node]]] and [card_subtree[right[node]]]
    never fail, whatever [card_subtree] held before. *)
Theorem postorder_count_returns_iff (left right : gmap Z Z) (fuel : nat)
    (n : Z) (cs : gmap Z Z) :
  ((∃ cs', postorder_count left right fuel n cs = Ok cs') ↔
   (∃ t, unfolds left right (Some n) t ∧ (tree_height t ≤ fuel)%nat)) ∧
  ((∃ cs', postorder_count left right fuel n cs = Ok cs') ∨
   postorder_count left right fuel n cs = Raise RecursionError).
Proof.
  split; [|apply postorder_count_Ok_or_RecursionError].
  split.
  - intros [cs' E]. by eapply postorder_count_Ok_unfolds.
  - intros (t & Ht & Hfuel).
    destruct (postorder_count_spec _ _ _ _ _ cs Ht Hfuel) as (cs' & E & _).
    by exists cs'.
Qed.

(** X2.  When a node that lies on a cycle of the recorded links can be
    reached from [node], [postorder_count(node)] never returns: whatever the
    recursion limit, it ends in [RecursionError]. *)
Theorem postorder_count_cycle (left right : gmap Z Z) (n m : Z) :
  rtc (child left right) n m → tc (child left right) m m →
  ∀ (fuel : nat) (cs : gmap Z Z),
    postorder_count left right fuel n cs = Raise RecursionError.
Proof.
  intros Hm Hcyc fuel cs.
  destruct (postorder_count_Ok_or_RecursionError left right fuel n cs)
    as [[cs' E]|E]; [|done].
  destruct (postorder_count_Ok_unfolds _ _ _ _ _ _ E) as (t & Ht & _).
  by destruct (unfolds_no_cycle _ _ _ _ _ Ht Hm).
Qed.

Lemma postorder_count_cycle_witness :
  postorder_count {[1 := 2]} {[2 := 1]} 1000 1 ∅ = Raise RecursionError.
Proof.
  apply (postorder_count_cycle {[1 := 2]} {[2 := 1]} 1 1).
  - constructor.
  - apply tc_l with 2; [|apply tc_once]; [left|right]; reflexivity.
Defined.

(** X3.  [postorder_count] can be run again: a second run on the dictionary
    the first one left gives the same dictionary.  A run changes no entry of
    a node that is not below [node], and the entries of the nodes below do
    not depend on what [card_subtree] held before. *)
Theorem postorder_count_idempotent (left right : gmap Z Z) (fuel : nat)
    (n : Z) (cs cs' : gmap Z Z) :
  postorder_count left right fuel n cs = Ok cs' →
  postorder_count left right fuel n cs' = Ok cs' ∧
  (∀ m, ¬ rtc (child left right) n m → cs' !! m = cs !! m) ∧
  (∀ cs2 cs2', postorder_count left right fuel n cs2 = Ok cs2' →
     ∀ m, rtc (child left right) n m → cs2' !! m = cs' !! m).
Proof. apply postorder_count_again. Qed.

Lemma postorder_count_idempotent_witness :
  postorder_count (left g3) (right g3) 2 1 cards3 = Ok cards3 ∧
  (∀ m, ¬ rtc (child (left g3) (right g3)) 1 m → cards3 !! m = (∅ : gmap Z Z) !! m) ∧
  (∀ cs2 cs2', postorder_count (left g3) (right g3) 2 1 cs2 = Ok cs2' →
     ∀ m, rtc (child (left g3) (right g3)) 1 m → cs2' !! m = cards3 !! m).
Proof.
  apply (postorder_count_idempotent (left g3) (right g3) 2 1 ∅ cards3).
  vm_compute. reflexivity.
Defined.

(** ** More on [setpos]: what it needs and what it draws *)

Section nx_more.
Context {F : Type}.
Implicit Types (G : Nx.Graph F) (xy : F * Z).

Lemma elem_of_neighbors_add_edge u v G k x :
  x ∈ Nx.neighbors (Nx.add_edge u v G) k ↔
  x ∈ Nx.neighbors G k ∨ (k = u ∧ x = v) ∨ (k = v ∧ x = u).
Proof.
  unfold Nx.neighbors. simpl. rewrite !neighbors_link.
  repeat case_decide; set_solver.
Qed.

Lemma ensure_node_is_Some n (na : gmap Z (option (F * Z))) k :
  is_Some (Nx.ensure_node n na !! k) ↔ is_Some (na !! k) ∨ k = n.
Proof.
  unfold Nx.ensure_node. destruct (na !! n) eqn:E.
  - split; [by left|]. intros [?| ->]; [done|]. by rewrite E.
  - rewrite lookup_insert_is_Some. destruct (decide (n = k)); naive_solver.
Qed.

Lemma node_attr_add_edge_is_Some u v G k :
  is_Some (Nx.node_attr (Nx.add_edge u v G) !! k) ↔
  is_Some (Nx.node_attr G !! k) ∨ k = u ∨ k = v.
Proof. simpl. rewrite !ensure_node_is_Some. naive_solver. Qed.

Lemma ensure_node_None n (na : gmap Z (option (F * Z))) k :
  Nx.ensure_node n na !! k = Some None →
  na !! k = Some None ∨ (na !! k = None ∧ k = n).
Proof.
  unfold Nx.ensure_node. destruct (na !! n) eqn:E; [by left|].
  destruct (decide (k = n)) as [->|]; [by right|].
  rewrite lookup_insert_ne by done. by left.
Qed.

Lemma node_attr_add_edge_None u v G k :
  Nx.node_attr (Nx.add_edge u v G) !! k = Some None →
  Nx.node_attr G !! k = Some None ∨
  (Nx.node_attr G !! k = None ∧ (k = u ∨ k = v)).
Proof.
  simpl. intros [H|[H ->]]%ensure_node_None.
  - apply ensure_node_None in H as [?|[? ->]]; auto.
  - destruct (decide (v = u)) as [->|Hne].
    + assert (is_Some (Nx.ensure_node u (Nx.node_attr G) !! u)) as [? Hs]
        by (apply ensure_node_is_Some; by right).
      by rewrite Hs in H.
    + rewrite ensure_node_ne in H by done. auto.
Qed.

End nx_more.

Section setpos_more.
Context {F : Type} `{!PyFloat F}.
Variables (left right : gmap Z Z) (cs : gmap Z Z).
Local Abbreviation child := (child left right).
Local Abbreviation unfolds := (unfolds left right).
Local Abbreviation setpos := (setpos left right cs).
Implicit Types (T : Nx.Graph F) (t s : btree).

(** One of the two [if node in ... keys()] blocks of [setpos]. *)
Local Abbreviation place c posf fuel node curpos w depth o T :=
  (match o with
   | Some ch =>
       cc ← getitem cs ch;
       cn ← getitem cs node;
       cw ← child_width c w cc cn;
       setpos fuel
         (Nx.add_edge node ch (Nx.add_node ch (posf curpos w cw, (- depth)%Z) T))
         ch (posf curpos w cw) cw (depth + 1)%Z
   | None => mret T
   end).

Lemma setpos_Ok_inv fuel T T' n curpos w depth :
  setpos (S fuel) T n curpos w depth = Ok T' →
  ∃ T1,
    place lit_0_7 leftpos fuel n curpos w depth (left !! n)
      (if decide (n = 1) then Nx.add_node n (lit_0_5, 1) T else T) = Ok T1 ∧
    place lit_0_5 rightpos fuel n curpos w depth (right !! n) T1 = Ok T'.
Proof.
  rewrite setpos_S.
  destruct (place lit_0_7 leftpos fuel n curpos w depth (left !! n) _)
    as [T1|e] eqn:E1; [|done].
  py_simpl. intros E2. by exists T1.
Qed.

Lemma place_Ok_inv c (posf : F → F → F → F) fuel n curpos w depth o Ta Tb :
  place c posf fuel n curpos w depth o Ta = Ok Tb →
  (o = None ∧ Tb = Ta) ∨
  (∃ ch cc cn cw,
     o = Some ch ∧ cs !! ch = Some cc ∧ cs !! n = Some cn ∧ cn ≠ 0 ∧
     child_width c w cc cn = Ok cw ∧
     setpos fuel
       (Nx.add_edge n ch (Nx.add_node ch (posf curpos w cw, - depth) Ta))
       ch (posf curpos w cw) cw (depth + 1) = Ok Tb).
Proof.
  destruct o as [ch|]; [|intros [= <-]; by left].
  unfold getitem.
  destruct (cs !! ch) as [cc|] eqn:Ecc; [|done].
  destruct (cs !! n) as [cn|] eqn:Ecn; [|done]. py_simpl.
  destruct (child_width c w cc cn) as [cw|] eqn:Ecw; [|done]. py_simpl.
  intros E. right. exists ch, cc, cn, cw. split_and!; try done.
  intros ->. unfold child_width, truediv in Ecw.
  by rewrite decide_True in Ecw.
Qed.

(** What [card_subtree] must hold for [setpos] to get through the nodes of
    [t]: an entry for every child, and a non-zero entry for every node that
    has a child. *)
Local Abbreviation usable t :=
  (∀ p c, p ∈ labels t → child p c →
     is_Some (cs !! c) ∧ ∃ k, cs !! p = Some k ∧ k ≠ 0).

Lemma setpos_Ok_usable t : ∀ n fuel T T' curpos w depth,
  unfolds (Some n) t →
  setpos fuel T n curpos w depth = Ok T' → usable t.
Proof.
  induction t as [|l IHl n' r IHr]; intros n fuel T T' curpos w depth Ht E.
  { by inversion Ht. }
  apply unfolds_Some_inv in Ht as Hinv.
  destruct Hinv as (l' & r' & Heq & Hl & Hr). injection Heq as <- -> <-.
  destruct fuel as [|fuel]; [done|].
  apply setpos_Ok_inv in E as (T1 & E1 & E2).
  assert (∀ c (posf : F → F → F → F) o s Ta Tb,
    unfolds o s →
    (∀ n fuel T T' curpos w depth, unfolds (Some n) s →
       setpos fuel T n curpos w depth = Ok T' → usable s) →
    place c posf fuel n curpos w depth o Ta = Ok Tb →
    usable s ∧
    ∀ ch, o = Some ch → is_Some (cs !! ch) ∧ ∃ k, cs !! n = Some k ∧ k ≠ 0)
    as Hblock.
  { intros c posf o s Ta Tb Hs IH
      [(-> & ->)|(ch & cc & cn & cw & -> & Hcc & Hcn & Hcn0 & _ & E)]%place_Ok_inv.
    - apply unfolds_None_inv in Hs as ->. split; [|done].
      by intros ?? ?%elem_of_nil.
    - split; [by eapply IH|]. intros ? [= <-]. split; [by eexists|].
      by exists cn. }
  destruct (Hblock _ _ _ _ _ _ Hl IHl E1) as [Hul Hnl].
  destruct (Hblock _ _ _ _ _ _ Hr IHr E2) as [Hur Hnr].
  intros p c Hp Hc. simpl in Hp. rewrite elem_of_cons, elem_of_app in Hp.
  destruct Hp as [->|[Hp|Hp]]; [|by apply Hul|by apply Hur].
  destruct Hc as [Hc|Hc]; [by apply Hnl|by apply Hnr].
Qed.

Lemma setpos_usable_Ok t : ∀ n fuel T curpos w depth,
  unfolds (Some n) t → usable t → (tree_height t ≤ fuel)%nat →
  ∃ T', setpos fuel T n curpos w depth = Ok T'.
Proof.
  induction t as [|l IHl n' r IHr]; intros n fuel T curpos w depth Ht Hcs Hfuel.
  { by inversion Ht. }
  apply unfolds_Some_inv in Ht as Hinv.
  destruct Hinv as (l' & r' & Heq & Hl & Hr). injection Heq as <- -> <-.
  destruct fuel as [|fuel]; simpl in Hfuel; [lia|].
  rewrite setpos_S.
  set (T0 := if decide (n = 1) then Nx.add_node n (lit_0_5, 1) T else T).
  clearbody T0.
  assert (∀ c (posf : F → F → F → F) o s Ta,
    unfolds o s → (tree_height s ≤ fuel)%nat →
    labels s ⊆ labels (Node l n r) →
    (∀ ch, o = Some ch → child n ch) →
    (∀ n fuel T curpos w depth,
       unfolds (Some n) s → usable s → (tree_height s ≤ fuel)%nat →
       ∃ T', setpos fuel T n curpos w depth = Ok T') →
    ∃ Tb, place c posf fuel n curpos w depth o Ta = Ok Tb) as Hblock.
  { intros c posf o s Ta Hs Hh Hsub Hch IH.
    destruct Hs as [|ch sl sr Hsl Hsr]; [by eexists|].
    pose proof (unfolds_node _ _ _ _ _ Hsl Hsr) as Hs.
    destruct (Hcs n ch) as ([cc Hcc] & cn & Hcn & Hcn0);
      [simpl; set_solver|by apply Hch|].
    unfold getitem. rewrite Hcc, Hcn. py_simpl.
    unfold child_width, truediv. rewrite decide_False by done. py_simpl.
    apply IH; [done| |done]. intros p' c' Hp'. apply Hcs. by apply Hsub. }
  destruct (Hblock lit_0_7 leftpos _ l T0 Hl) as [T1 ->];
    [lia|simpl; set_solver|by left|done|].
  py_simpl. apply (Hblock lit_0_5 rightpos _ r T1 Hr);
    [lia|simpl; set_solver|by right|done].
Qed.

(** *** The graph [setpos] leaves *)

(** What a call [setpos(T, n, ...)] that returns has done to [T]. *)
Local Abbreviation effect T T' n :=
  ((∀ m, is_Some (Nx.node_attr T' !! m) →
      is_Some (Nx.node_attr T !! m) ∨ m = n ∨ tc child n m) ∧
   (∀ m, Nx.node_attr T' !! m = Some None →
      Nx.node_attr T !! m = Some None ∨
      (m = n ∧ n ≠ 1 ∧ Nx.node_attr T !! n = None)) ∧
   (∀ m, is_Some (Nx.node_attr T !! m) → is_Some (Nx.node_attr T' !! m)) ∧
   (∀ m, tc child n m → is_Some (Nx.node_attr T' !! m)) ∧
   (n = 1 → is_Some (Nx.node_attr T' !! n)) ∧
   (∀ u v, v ∈ Nx.neighbors T' u →
      v ∈ Nx.neighbors T u ∨
      (rtc child n u ∧ child u v) ∨ (rtc child n v ∧ child v u)) ∧
   (∀ u, Nx.neighbors T u ⊆ Nx.neighbors T' u) ∧
   (∀ p c, rtc child n p → child p c →
      c ∈ Nx.neighbors T' p ∧ p ∈ Nx.neighbors T' c)).

Lemma tc_child_inv n m :
  tc child n m → ∃ c, child n c ∧ rtc child c m.
Proof.
  destruct 1 as [a b Hc|a c b Hc Hcm]; [by exists b|].
  exists c. split; [done|]. by apply tc_rtc.
Qed.

Lemma rtc_child_inv n m :
  rtc child n m → m = n ∨ ∃ c, child n c ∧ rtc child c m.
Proof. destruct 1 as [|a c b Hc Hcm]; [by left|right; by exists c]. Qed.

Lemma setpos_effect fuel : ∀ T T' n curpos w depth,
  setpos fuel T n curpos w depth = Ok T' → effect T T' n.
Proof.
  induction fuel as [|fuel IH]; intros T T' n curpos w depth E; [done|].
  apply setpos_Ok_inv in E as (T1 & E1 & E2).
  set (T0 := if decide (n = 1) then Nx.add_node n (lit_0_5, 1) T else T) in *.
  (* the effect of one block, relative to the child [o] it is about *)
  assert (∀ c (posf : F → F → F → F) o Ta Tb,
    (∀ ch, o = Some ch → child n ch) →
    place c posf fuel n curpos w depth o Ta = Ok Tb →
    (∀ m, is_Some (Nx.node_attr Tb !! m) →
       is_Some (Nx.node_attr Ta !! m) ∨ m = n ∨ tc child n m) ∧
    (∀ m, Nx.node_attr Tb !! m = Some None →
       Nx.node_attr Ta !! m = Some None ∨
       (m = n ∧ Nx.node_attr Ta !! n = None)) ∧
    (∀ m, is_Some (Nx.node_attr Ta !! m) → is_Some (Nx.node_attr Tb !! m)) ∧
    (∀ ch m, o = Some ch → rtc child ch m → is_Some (Nx.node_attr Tb !! m)) ∧
    (∀ u v, v ∈ Nx.neighbors Tb u →
       v ∈ Nx.neighbors Ta u ∨
       (rtc child n u ∧ child u v) ∨ (rtc child n v ∧ child v u)) ∧
    (∀ u, Nx.neighbors Ta u ⊆ Nx.neighbors Tb u) ∧
    (∀ ch p c', o = Some ch →
       (p = n ∧ c' = ch) ∨ (rtc child ch p ∧ child p c') →
       c' ∈ Nx.neighbors Tb p ∧ p ∈ Nx.neighbors Tb c')) as Hblock.
  { intros c posf o Ta Tb Hch
      [(-> & ->)|(ch & cc & cn & cw & -> & _ & _ & _ & _ & E)]%place_Ok_inv.
    { split_and!; try done; auto. }
    specialize (Hch ch eq_refl).
    set (Tc := Nx.add_node ch (posf curpos w cw, - depth) Ta) in *.
    set (Te := Nx.add_edge n ch Tc) in *.
    destruct (IH _ _ _ _ _ _ E) as (I1 & I2 & I3 & I4 & _ & I6 & I7 & I8).
    assert (∀ m, is_Some (Nx.node_attr Te !! m) ↔
      is_Some (Nx.node_attr Ta !! m) ∨ m = n ∨ m = ch) as HTe.
    { intros m. unfold Te. rewrite node_attr_add_edge_is_Some.
      unfold Tc. simpl. rewrite lookup_insert_is_Some.
      destruct (decide (ch = m)); naive_solver. }
    assert (Nx.node_attr Te !! ch = Some (Some (posf curpos w cw, - depth)))
      as HTech.
    { unfold Te. rewrite node_attr_add_edge_present;
        unfold Tc; rewrite node_attr_add_node_eq; done. }
    split_and!.
    - intros m [Hm|[->|Hm]]%I1.
      + apply HTe in Hm as [?|[?| ->]]; auto. right. right. by apply tc_once.
      + right. right. by apply tc_once.
      + right. right. by eapply tc_l.
    - intros m [Hm|(-> & _ & Hm)]%I2; [|by rewrite HTech in Hm].
      unfold Te in Hm. apply node_attr_add_edge_None in Hm as [Hm|[Hm [->| ->]]].
      + unfold Tc in Hm. destruct (decide (m = ch)) as [->|].
        * by rewrite node_attr_add_node_eq in Hm.
        * rewrite node_attr_add_node_ne in Hm by done. by left.
      + unfold Tc in Hm. destruct (decide (n = ch)) as [->|].
        * by rewrite node_attr_add_node_eq in Hm.
        * rewrite node_attr_add_node_ne in Hm by done. by right.
      + unfold Tc in Hm. by rewrite node_attr_add_node_eq in Hm.
    - intros m Hm. apply I3, HTe. by left.
    - intros ? m [= <-] [->|(c' & Hc' & Hm)]%rtc_child_inv.
      + apply I3. by rewrite HTech.
      + apply I4. by eapply tc_rtc_r; [apply tc_once|].
    - intros u v [Huv|[[Hu Huv]|[Hv Huv]]]%I6.
      + unfold Te in Huv. apply elem_of_neighbors_add_edge in Huv.
        unfold Tc in Huv. rewrite neighbors_add_node in Huv.
        destruct Huv as [?|[[-> ->]|[-> ->]]]; [by left|..].
        * right. left. by split.
        * right. right. by split.
      + right. left. split; [|done]. by eapply rtc_l.
      + right. right. split; [|done]. by eapply rtc_l.
    - intros u. etrans; [|apply I7]. unfold Te. etrans; [|apply neighbors_add_edge].
      unfold Tc. by rewrite neighbors_add_node.
    - intros ? p c' [= <-] [[-> ->]|[Hp Hc']].
      + split; apply I7; unfold Te; apply elem_of_neighbors_add_edge; auto.
      + by apply I8. }
  destruct (Hblock _ _ _ _ _ ltac:(intros ? ?; by left) E1)
    as (L1 & L2 & L3 & L4 & L6 & L7 & L8).
  destruct (Hblock _ _ _ _ _ ltac:(intros ? ?; by right) E2)
    as (R1 & R2 & R3 & R4 & R6 & R7 & R8).
  assert (∀ m, is_Some (Nx.node_attr T0 !! m) ↔
    is_Some (Nx.node_attr T !! m) ∨ (m = n ∧ n = 1)) as HT0.
  { intros m. unfold T0. case_decide as Hn; [|naive_solver].
    simpl. rewrite lookup_insert_is_Some.
    destruct (decide (n = m)); naive_solver. }
  assert (∀ u, Nx.neighbors T0 u = Nx.neighbors T u) as HN0.
  { intros u. unfold T0. case_decide; [|done]. apply neighbors_add_node. }
  split_and!.
  - intros m [Hm|[?|?]]%R1; auto.
    apply L1 in Hm as [Hm|[?|?]]; auto.
    apply HT0 in Hm as [?|[? ?]]; auto.
  - intros m [Hm|[-> Hm]]%R2.
    + apply L2 in Hm as [Hm|[-> Hm]].
      * unfold T0 in Hm. case_decide as Hn; [|by left].
        destruct (decide (m = n)) as [->|].
        -- by rewrite node_attr_add_node_eq in Hm.
        -- rewrite node_attr_add_node_ne in Hm by done. by left.
      * right. unfold T0 in Hm. case_decide as Hn; [|done].
        by rewrite node_attr_add_node_eq in Hm.
    + destruct (decide (n = 1)) as [Hn|Hn].
      * assert (is_Some (Nx.node_attr T1 !! n)) as [? Habs];
          [|by rewrite Habs in Hm].
        apply L3, HT0. by right.
      * right. split_and!; [done..|].
        destruct (Nx.node_attr T !! n) eqn:ET; [|done].
        assert (is_Some (Nx.node_attr T1 !! n)) as [? Habs];
          [|by rewrite Habs in Hm].
        apply L3, HT0. left. by rewrite ET.
  - intros m Hm. apply R3, L3, HT0. by left.
  - intros m (c' & [Hc'|Hc'] & Hm)%tc_child_inv.
    + by eapply R3, L4.
    + by eapply R4.
  - intros Hn. apply R3, L3, HT0. by right.
  - intros u v [Huv|?]%R6; [|by right].
    apply L6 in Huv as [Huv|?]; [|by right]. left. by rewrite <-HN0.
  - intros u. rewrite <-HN0. etrans; [apply L7|apply R7].
  - intros p c' [->|(ch & [Hch|Hch] & Hp)]%rtc_child_inv Hc'.
    + destruct Hc' as [Hc'|Hc'].
      * destruct (L8 c' n c' Hc') as [? ?]; [by left|]. split; by apply R7.
      * apply (R8 c' n c' Hc'). by left.
    + destruct (L8 ch p c' Hch) as [? ?]; [by right|]. split; by apply R7.
    + apply (R8 ch p c' Hch). by right.
Qed.

End setpos_more.



(** X5.  The graph the layout draws is the recorded tree and nothing else.
    When the last cell runs on an empty graph [T] and returns, the nodes of
    [T] are exactly the nodes that can be reached from the root [1] along
    [left] and [right], every one of them has a position (so [pos] covers
    all the nodes [nx.draw] is asked to draw), and two nodes are joined by
    an edge exactly when one is a recorded child of the other. *)
Theorem layout_draws_the_tree {F : Type} `{!PyFloat F} {P : Type}
    (fuel : nat) (g g' : globals F P) :
  T g = Nx.empty → layout fuel g = Ok g' →
  (∀ m, is_Some (Nx.node_attr (T g') !! m) ↔
        rtc (child (left g) (right g)) 1 m) ∧
  (∀ m, is_Some (pos g' !! m) ↔ rtc (child (left g) (right g)) 1 m) ∧
  (∀ a b, Nx.has_edge (T g') a b ↔
     (rtc (child (left g) (right g)) 1 a ∧ child (left g) (right g) a b) ∨
     (rtc (child (left g) (right g)) 1 b ∧ child (left g) (right g) b a)).
Proof.
  intros HT. unfold layout.
  destruct (postorder_count _ _ _ _ _) as [cs|] eqn:Ecs; [|done]. py_simpl.
  destruct (setpos _ _ _ _ _ _ _ _ _) as [T'|] eqn:ET; [|done]. py_simpl.
  intros [= <-]. cbn [T pos]. rewrite HT in ET.
  destruct (setpos_effect _ _ _ _ _ _ _ _ _ _ ET)
    as (E1 & E2 & _ & E4 & E5 & E6 & _ & E8).
  assert (∀ m, is_Some (Nx.node_attr T' !! m) ↔
    rtc (child (left g) (right g)) 1 m) as Hnodes.
  { intros m. split.
    - intros [Hm|[->|Hm]]%E1; [|done|by apply tc_rtc].
      simpl in Hm. rewrite lookup_empty in Hm. by destruct Hm.
    - intros [->|(c & Hc & Hm)]%rtc_child_inv; [by apply E5|].
      apply E4. by eapply tc_rtc_r; [apply tc_once|]. }
  split_and!; [done| |].
  - intros m. rewrite <-Hnodes. unfold Nx.get_node_attributes_pos.
    rewrite lookup_omap. split.
    + destruct (Nx.node_attr T' !! m); [by eexists|]. by intros [? ?].
    + intros [[xy|] Hm]; rewrite Hm; [by eexists|].
      apply E2 in Hm as [Hm|(_ & ? & _)]; [|done].
      simpl in Hm. by rewrite lookup_empty in Hm.
  - intros a b. split.
    + intros [Hab _]. apply E6 in Hab as [Hab|?]; [|done].
      unfold Nx.neighbors in Hab. simpl in Hab. rewrite lookup_empty in Hab.
      set_solver.
    + intros [[Ha Hab]|[Hb Hba]].
      * destruct (E8 a b Ha Hab). by split.
      * destruct (E8 b a Hb Hba). by split.
Qed.

Lemma layout_draws_the_tree_witness :
  ∃ g', layout 2 g3 = Ok g' ∧
    (∀ m, is_Some (Nx.node_attr (T g') !! m) ↔
          rtc (child (left g3) (right g3)) 1 m) ∧
    (∀ m, is_Some (pos g' !! m) ↔ rtc (child (left g3) (right g3)) 1 m) ∧
    (∀ a b, Nx.has_edge (T g') a b ↔
       (rtc (child (left g3) (right g3)) 1 a ∧
        child (left g3) (right g3) a b) ∨
       (rtc (child (left g3) (right g3)) 1 b ∧
        child (left g3) (right g3) b a)).
Proof.
  destruct (layout 2 g3) as [g'|e] eqn:E; [|vm_compute in E; discriminate].
  exists g'. split; [reflexivity|].
  exact (layout_draws_the_tree 2 g3 g' eq_refl E).
Defined.

(** ** More on the callback: any sequence of reports *)

Section callback_more.
Context {F : Type} `{!PyFloat F} {P : Type}.
Implicit Types (g : globals F P) (e : event) (es : list event).

Lemma run_events_snoc es e g :
  run_events (es ++ [e]) g = invoke (run_events es g) e.
Proof. unfold run_events. by rewrite foldl_app. Qed.

Lemma run_events_last_report es g (b : bool) (k : Z) :
  side b (run_events es g) !! k =
    match last (filter (λ e, slot e = (k, b)) es) with
    | Some e => Some (newnode e)
    | None => side b g !! k
    end.
Proof.
  induction es as [|e es IH] using rev_ind; [done|].
  rewrite run_events_snoc, side_invoke, filter_app.
  rewrite filter_cons, filter_nil. case_decide as Hs.
  - rewrite decide_True by done. by rewrite last_snoc.
  - rewrite decide_False by done. by rewrite app_nil_r.
Qed.

Lemma run_events_nodes_bounds es g :
  (1 ≤ size (nodes g))%nat →
  (∀ k v, nodes g !! k = Some v → 1 ≤ v ≤ Z.of_nat (size (nodes g))) →
  (size (nodes g) ≤ size (nodes (run_events es g))
     ≤ size (nodes g) + length es)%nat ∧
  (∀ k v, nodes (run_events es g) !! k = Some v →
     1 ≤ v ≤ Z.of_nat (size (nodes g) + length es)) ∧
  (∀ k, is_Some (nodes (run_events es g) !! k) ↔
        is_Some (nodes g !! k) ∨ k ∈ newnode <$> es).
Proof.
  intros Hsize Hval.
  induction es as [|e es (IHs & IHv & IHk)] using rev_ind.
  { simpl. split; [lia|split; [|set_solver]].
    intros k v Hk. apply Hval in Hk. lia. }
  rewrite run_events_snoc, nodes_invoke, length_app, fmap_app. simpl.
  set (g1 := run_events es g) in *.
  assert (∀ v : Z, (size (nodes g1) ≤ size (<[newnode e := v]> (nodes g1))
                    ≤ S (size (nodes g1)))%nat) as Hins.
  { intros v. destruct (nodes g1 !! newnode e) as [v0|] eqn:E.
    - erewrite map_size_insert_Some by done. lia.
    - rewrite map_size_insert_None by done. lia. }
  specialize (Hins (Z.of_nat (size (nodes g1)) + 1)).
  split; [|split].
  - lia.
  - intros k v. rewrite lookup_insert_Some. intros [[_ <-]|[_ Hk]].
    + lia.
    + apply IHv in Hk. lia.
  - intros k. rewrite lookup_insert_is_Some, IHk, elem_of_app, list_elem_of_singleton.
    destruct (decide (newnode e = k)); naive_solver.
Qed.

End callback_more.

(** X6.  After any sequence of reports, [left[k]] is the new node of the
    most recent report with parent [k] and [branch == 0], and [right[k]]
    the new node of the most recent report with parent [k] and another
    [branch]; a key with no such report is as it was before, absent when the
    dictionaries started empty. *)
Theorem storeBBnode_last_report_wins {F P : Type} (es : list event)
    (g : globals F P) (k : Z) :
  left (run_events es g) !! k =
    match last (filter (λ e, parent e = k ∧ branch e = 0) es) with
    | Some e => Some (newnode e)
    | None => left g !! k
    end ∧
  right (run_events es g) !! k =
    match last (filter (λ e, parent e = k ∧ branch e ≠ 0) es) with
    | Some e => Some (newnode e)
    | None => right g !! k
    end.
Proof.
  split.
  - rewrite (list_filter_iff _ (λ e, slot e = (k, true))).
    + apply (run_events_last_report es g true k).
    + intros e. unfold slot, is_left. case_bool_decide; naive_solver.
  - rewrite (list_filter_iff _ (λ e, slot e = (k, false))).
    + apply (run_events_last_report es g false k).
    + intros e. unfold slot, is_left. case_bool_decide; naive_solver.
Qed.

(** X7.  The labels in [nodes], for any sequence of reports whatever:
    [nodes] has the root and the reported new nodes as its keys, at most one
    entry more than there were reports, and every label lies between 1 and
    the number of reports plus one. *)
Theorem nodes_labels_bounded {F P : Type} (es : list event) (p0 : P) :
  (∀ k, is_Some (nodes (run_events es (initial (F := F) p0)) !! k) ↔
        k = 1 ∨ k ∈ newnode <$> es) ∧
  (1 ≤ size (nodes (run_events es (initial (F := F) p0))) ≤ S (length es))%nat ∧
  (∀ k v, nodes (run_events es (initial (F := F) p0)) !! k = Some v →
     1 ≤ v ≤ Z.of_nat (length es) + 1).
Proof.
  destruct (run_events_nodes_bounds es (initial (F := F) p0))
    as (Hs & Hv & Hk).
  { simpl. by rewrite map_size_singleton. }
  { simpl. intros k v [_ <-]%lookup_singleton_Some.
    rewrite map_size_singleton. lia. }
  simpl in *. rewrite map_size_singleton in *. split; [|split].
  - intros k. rewrite Hk, lookup_singleton_is_Some. naive_solver.
  - lia.
  - intros k v Hkv. apply Hv in Hkv. lia.
Qed.

(** Labels can repeat when a node is reported twice, or the root is reported
    as new: here the nodes 1 and 5 both end with the label 2. *)
Example nodes_labels_can_repeat :
  let g := run_events [Event 1 1 0; Event 1 5 1] (initial (F := Q) tt) in
  nodes g !! 1 = Some 2 ∧ nodes g !! 5 = Some 2.
Proof. vm_compute. split; reflexivity. Qed.

(** ** More on the geometry: siblings *)

Section siblings.
Variables (left right : gmap Z Z) (cs : gmap Z Z).
Local Abbreviation child := (child left right).
Local Abbreviation called := (called (F := Q) left right cs).
Hypothesis Hcs : correct_cards left right cs 1.

(** With both children present the cardinalities add up. *)
Lemma cards_sum n l r cl cr cn :
  rtc child 1 n → left !! n = Some l → right !! n = Some r →
  cs !! l = Some cl → cs !! r = Some cr → cs !! n = Some cn →
  1 ≤ cl ∧ 1 ≤ cr ∧ cn = 1 + cl + cr.
Proof using Hcs.
  intros Hn Hl Hr Hcl Hcr Hcn.
  destruct (Hcs n Hn) as (tn & Htn & En).
  destruct (Hcs l) as (tl & Htl & El); [eapply rtc_r; [done|by left]|].
  destruct (Hcs r) as (tr & Htr & Er); [eapply rtc_r; [done|by right]|].
  rewrite Hcl in El. rewrite Hcr in Er. rewrite Hcn in En.
  injection El as ->. injection Er as ->. injection En as ->.
  apply unfolds_Some_inv in Htn as (l' & r' & -> & Hl' & Hr').
  rewrite Hl in Hl'. rewrite Hr in Hr'.
  rewrite (unfolds_functional _ _ _ _ _ Hl' Htl).
  rewrite (unfolds_functional _ _ _ _ _ Hr' Htr).
  apply unfolds_Some_inv in Htl as (? & ? & -> & _).
  apply unfolds_Some_inv in Htr as (? & ? & -> & _).
  simpl. lia.
Qed.

Local Open Scope Q_scope.

Lemma siblings_geometry n curpos w l r cl cr cn lw rw :
  called n curpos w →
  left !! n = Some l → right !! n = Some r →
  cs !! l = Some cl → cs !! r = Some cr → cs !! n = Some cn →
  child_width (F := Q) lit_0_7 w cl cn = Ok lw →
  child_width (F := Q) lit_0_5 w cr cn = Ok rw →
  leftpos curpos w lw < curpos ∧ curpos < rightpos curpos w rw ∧
  ((cn ≤ 495)%Z ↔
   band_hi (leftpos curpos w lw) lw <= band_lo (rightpos curpos w rw) rw).
Proof using Hcs.
  intros Hcall Hl Hr Hcl Hcr Hcn Elw Erw.
  pose proof (called_reachable _ _ _ _ _ _ Hcall) as Hn.
  destruct (called_band _ _ _ Hcs _ _ _ Hcall) as (Hw & _).
  destruct (cards_sum _ _ _ _ _ _ Hn Hl Hr Hcl Hcr Hcn) as (H1l & H1r & ->).
  rewrite child_width_exact in Elw, Erw by lia.
  injection Elw as <-. injection Erw as <-.
  unfold leftpos, rightpos, band_hi, band_lo.
  cbn [fsub fadd fdiv fmul float_of_int lit_0_7 lit_0_5 exact].
  change (inject_Z 2) with 2. change (inject_Z 1) with 1.
  unfold Qdiv. change (/ 2) with (1 # 2).
  set (q := inject_Z (1 + cl + cr)).
  set (L := inject_Z cl). set (R := inject_Z cr).
  assert (q == 1 + L + R) as Hq.
  { unfold q, L, R. rewrite !inject_Z_plus. reflexivity. }
  assert (1 <= L) as HL by (unfold L, Qle; simpl; lia).
  assert (1 <= R) as HR by (unfold R, Qle; simpl; lia).
  assert (0 < q) as Hq0 by lra.
  set (x := / q).
  assert (q * x == 1) as Hx by (apply Qmult_inv_r; lra).
  assert (0 < x) as Hx0 by (apply Qinv_lt_0_compat; lra).
  assert (L * x + R * x == 1 - x) as Hsum by nra.
  assert (0 < L * x) as HLx by nra.
  assert (0 < R * x) as HRx by nra.
  assert ((1 + cl + cr ≤ 495)%Z ↔ q <= 495) as ->.
  { unfold q, Qle. simpl. lia. }
  split_and!.
  - nra.
  - nra.
  - split.
    + intros Hle. assert (2 # 1000 <= (99 # 100) * x) as Hx2 by nra. nra.
    + intros Hb. assert (2 # 1000 <= (99 # 100) * x) as Hx2 by nra. nra.
Qed.

End siblings.



(** A subtree of 496 nodes is too big: with 247 nodes on the left and 248
    on the right, the two bands overlap. *)
Example siblings_overlap_at_496 :
  ∃ lw rw : Q,
    child_width (F := Q) lit_0_7 (float_of_int 1) 247 496 = Ok lw ∧
    child_width (F := Q) lit_0_5 (float_of_int 1) 248 496 = Ok rw ∧
    (band_lo (rightpos lit_0_5 (float_of_int 1) rw) rw
     < band_hi (leftpos lit_0_5 (float_of_int 1) lw) lw)%Q.
Proof. eexists _, _. split_and!; [reflexivity..|]. vm_compute. reflexivity. Qed.

(** * Properties of the other notebooks *)

(** ** Ranges, indexing and loops *)

Section python_facts.
Import Python.

Lemma elem_of_range a b k : k ∈ range a b ↔ a ≤ k < b.
Proof. unfold range. rewrite elem_of_seqZ. lia. Qed.

Lemma NoDup_range a b : NoDup (range a b).
Proof. apply NoDup_seqZ. Qed.

Lemma length_range a b : length (range a b) = Z.to_nat (b - a).
Proof. apply length_seqZ. Qed.

Lemma range_empty a b : b ≤ a → range a b = [].
Proof.
  intros. unfold range. apply length_zero_iff_nil. rewrite length_seqZ. lia.
Qed.

Lemma range_snoc a b : a ≤ b → range a (b + 1) = range a b ++ [b].
Proof.
  intros. unfold range. replace (b + 1 - a) with ((b - a) + 1) by lia.
  rewrite seqZ_app by lia. f_equal. replace (a + (b - a)) with b by lia.
  done.
Qed.

Lemma range_cons a b : a < b → range a b = a :: range (a + 1) b.
Proof.
  intros. unfold range. rewrite seqZ_cons by lia. f_equal.
  f_equal; lia.
Qed.

Lemma position_Some {A} (l : list A) (i : Z) :
  0 ≤ i < Z.of_nat (length l) → position l i = Some (Z.to_nat i).
Proof.
  intros. unfold position. destruct (decide (i < 0)); [lia|].
  by rewrite decide_True by lia.
Qed.

Lemma item_Val {A} (l : list A) (i : Z) x :
  0 ≤ i → l !! Z.to_nat i = Some x → item l i = Val x.
Proof.
  intros Hi Hx. unfold item. rewrite position_Some.
  - by rewrite Hx.
  - apply lookup_lt_Some in Hx. lia.
Qed.

Lemma item_Val_inv {A} (l : list A) (i : Z) x :
  0 ≤ i → item l i = Val x → l !! Z.to_nat i = Some x.
Proof.
  intros Hi. unfold item, position. destruct (decide (i < 0)); [lia|].
  case_decide; [|done]. by destruct (l !! Z.to_nat i); intros [= ->].
Qed.

Lemma item_beyond {A} (l : list A) (i : Z) :
  Z.of_nat (length l) ≤ i → item l i = Exc IndexError.
Proof.
  intros. unfold item, position. destruct (decide (i < 0)); [lia|].
  by rewrite decide_False by lia.
Qed.

Lemma setitem_Val {A} (l : list A) (i : Z) x :
  0 ≤ i < Z.of_nat (length l) → setitem l i x = Val (<[Z.to_nat i := x]> l).
Proof. intros. unfold setitem. by rewrite position_Some. Qed.

Lemma max_of_Val l x : x ∈ l → ∃ m, max_of l = Val m ∧ x ≤ m ∧ m ∈ l.
Proof.
  destruct l as [|y l]; [by intros ?%elem_of_nil|]. intros Hx.
  exists (foldr Z.max y l). split; [done|].
  clear -Hx. revert x Hx. induction l as [|z l IH]; intros x Hx; simpl.
  - apply list_elem_of_singleton in Hx as ->. split; [lia|set_solver].
  - assert (∀ x, x ∈ y :: l → x ≤ foldr Z.max y l) as Hle
      by (intros ? ?; by apply IH).
    destruct (IH y) as [_ Hin]; [set_solver|].
    split.
    + apply elem_of_cons in Hx as [->|[->|Hx]%elem_of_cons].
      * assert (y ≤ foldr Z.max y l) by (apply Hle; set_solver). lia.
      * lia.
      * assert (x ≤ foldr Z.max y l) by (apply Hle; set_solver). lia.
    + destruct (Z.max_spec z (foldr Z.max y l)) as [[_ ->]|[_ ->]];
        set_solver.
Qed.

Lemma for_each_nil {A S} (body : S → A → res S) s :
  for_each body [] s = Val s.
Proof. done. Qed.

Lemma for_each_snoc {A S} (body : S → A → res S) l x s :
  for_each body (l ++ [x]) s = (s' ← for_each body l s; body s' x).
Proof. unfold for_each. by rewrite foldl_app. Qed.

Lemma for_each_Exc {A S} (body : S → A → res S) l e :
  foldl (λ r x, s ← r; body s x) (Exc e) l = Exc e.
Proof. induction l as [|x l IH]; [done|]. simpl. apply IH. Qed.

Lemma for_each_cons {A S} (body : S → A → res S) l x s :
  for_each body (x :: l) s = (s' ← body s x; for_each body l s').
Proof.
  unfold for_each. simpl. destruct (body s x) as [s'|e]; [done|].
  apply for_each_Exc.
Qed.

End python_facts.

(** ** [n_queens.ipynb]: the model *)

Section queens.
Import Python NQueens.

Lemma at_most_one_iff (queen : placement) (cells : list (Z * Z)) :
  NoDup cells →
  at_most_one queen cells ↔
  ∀ a b, a ∈ cells → b ∈ cells → queen a = true → queen b = true → a = b.
Proof.
  intros Hnd. unfold at_most_one.
  pose proof (NoDup_filter (λ c, queen c = true) _ Hnd) as Hndf.
  assert (∀ c, c ∈ filter (λ c, queen c = true) cells ↔
               c ∈ cells ∧ queen c = true) as Hin.
  { intros c. by rewrite list_elem_of_filter, (comm and). }
  destruct (filter (λ c, queen c = true) cells) as [|x [|y l]] eqn:E.
  - split; [|simpl; lia]. intros _ a b Ha _ Hqa _.
    assert (a ∈ @nil (Z * Z)) as ?%elem_of_nil by (by apply Hin). done.
  - split; [|simpl; lia]. intros _ a b Ha Hb Hqa Hqb.
    assert (a ∈ [x]) as ->%list_elem_of_singleton by (by apply Hin).
    assert (b ∈ [x]) as ->%list_elem_of_singleton by (by apply Hin).
    done.
  - split; [simpl; lia|]. intros Hall. exfalso.
    apply NoDup_cons in Hndf as [Hx _]. apply Hx.
    assert (x = y) as ->; [|set_solver].
    destruct (proj1 (Hin x)) as [? ?]; [set_solver|].
    destruct (proj1 (Hin y)) as [? ?]; [set_solver|].
    by apply Hall.
Qed.

Lemma NoDup_cells (f : Z → Z * Z) a b :
  (∀ j1 j2, f j1 = f j2 → j1 = j2) → NoDup (f <$> range a b).
Proof.
  intros Hinj. apply NoDup_fmap_2_strong; [|apply NoDup_range].
  intros j1 j2 _ _. apply Hinj.
Qed.

(** The cells of each family of constraints. *)
Lemma elem_of_rows n cells :
  cells ∈ rows n ↔
  ∃ i, 0 ≤ i < n ∧ cells = (λ j, (i, j)) <$> range 0 n.
Proof.
  unfold rows. rewrite list_elem_of_fmap.
  setoid_rewrite elem_of_range. naive_solver.
Qed.

Lemma elem_of_columns n cells :
  cells ∈ columns n ↔
  ∃ j, 0 ≤ j < n ∧ cells = (λ i, (i, j)) <$> range 0 n.
Proof.
  unfold columns. rewrite list_elem_of_fmap.
  setoid_rewrite elem_of_range. naive_solver.
Qed.

Lemma elem_of_diagonal1 n cells :
  cells ∈ diagonal1 n ↔
  ∃ k, 1 ≤ k < 2 * n - 2 ∧
       cells = (λ j, (k - j, j)) <$> range (Z.max 0 (k - n + 1)) (Z.min (k + 1) n).
Proof.
  unfold diagonal1. rewrite list_elem_of_fmap.
  setoid_rewrite elem_of_range. naive_solver.
Qed.

Lemma elem_of_diagonal2 n cells :
  cells ∈ diagonal2 n ↔
  ∃ k, 2 - n ≤ k < n - 1 ∧
       cells = (λ j, (k + j, j)) <$> range (Z.max 0 (- k)) (Z.min (n - k) n).
Proof.
  unfold diagonal2. rewrite list_elem_of_fmap.
  setoid_rewrite elem_of_range. naive_solver.
Qed.

Lemma elem_of_row n (i : Z) (c : Z * Z) :
  c ∈ (λ j, (i, j)) <$> range 0 n ↔ c.1 = i ∧ 0 ≤ c.2 < n.
Proof.
  rewrite list_elem_of_fmap. setoid_rewrite elem_of_range.
  destruct c as [ci cj]. simpl. naive_solver.
Qed.

Lemma elem_of_column n (j : Z) (c : Z * Z) :
  c ∈ (λ i, (i, j)) <$> range 0 n ↔ c.2 = j ∧ 0 ≤ c.1 < n.
Proof.
  rewrite list_elem_of_fmap. setoid_rewrite elem_of_range.
  destruct c as [ci cj]. simpl. naive_solver.
Qed.

Lemma elem_of_diag1 n k (c : Z * Z) :
  c ∈ (λ j, (k - j, j)) <$> range (Z.max 0 (k - n + 1)) (Z.min (k + 1) n) ↔
  c.1 + c.2 = k ∧ on_board n c.
Proof.
  rewrite list_elem_of_fmap. setoid_rewrite elem_of_range.
  destruct c as [ci cj]. unfold on_board. simpl. split.
  - intros (j & [= -> ->] & Hj). lia.
  - intros (Hk & Hi & Hj). exists cj. split; [f_equal; lia|lia].
Qed.

Lemma elem_of_diag2 n k (c : Z * Z) :
  c ∈ (λ j, (k + j, j)) <$> range (Z.max 0 (- k)) (Z.min (n - k) n) ↔
  c.1 - c.2 = k ∧ on_board n c.
Proof.
  rewrite list_elem_of_fmap. setoid_rewrite elem_of_range.
  destruct c as [ci cj]. unfold on_board. simpl. split.
  - intros (j & [= -> ->] & Hj). lia.
  - intros (Hk & Hi & Hj). exists cj. split; [f_equal; lia|lia].
Qed.

Lemma constraint_cells n cells :
  cells ∈ constraints n →
  NoDup cells ∧
  (∀ c, c ∈ cells → on_board n c) ∧
  (∀ a b, a ∈ cells → b ∈ cells → attack a b).
Proof.
  unfold constraints. rewrite !elem_of_app.
  intros [(i & Hi & ->)%elem_of_rows
         |[(j & Hj & ->)%elem_of_columns
          |[(k & Hk & ->)%elem_of_diagonal1
           |(k & Hk & ->)%elem_of_diagonal2]]].
  - split_and!.
    + apply NoDup_cells. by intros ?? [= ->].
    + intros c [? ?]%elem_of_row. unfold on_board. lia.
    + intros a b [? ?]%elem_of_row [? ?]%elem_of_row. left. congruence.
  - split_and!.
    + apply NoDup_cells. by intros ?? [= ->].
    + intros c [? ?]%elem_of_column. unfold on_board. lia.
    + intros a b [? ?]%elem_of_column [? ?]%elem_of_column.
      right. left. congruence.
  - split_and!.
    + apply NoDup_cells. by intros ?? [= _ ->].
    + by intros c [? ?]%elem_of_diag1.
    + intros a b [? ?]%elem_of_diag1 [? ?]%elem_of_diag1.
      right. right. left. congruence.
  - split_and!.
    + apply NoDup_cells. by intros ?? [= _ ->].
    + by intros c [? ?]%elem_of_diag2.
    + intros a b [? ?]%elem_of_diag2 [? ?]%elem_of_diag2.
      right. right. right. congruence.
Qed.

(** Two different cells of the board that attack each other are summed
    together by one of the constraints. *)
Lemma attack_covered n a b :
  on_board n a → on_board n b → a ≠ b → attack a b →
  ∃ cells, cells ∈ constraints n ∧ a ∈ cells ∧ b ∈ cells.
Proof.
  destruct a as [ai aj], b as [bi bj]. unfold on_board, attack, constraints.
  simpl. intros Ha Hb Hne [Hi|[Hj|[Hs|Hd]]].
  - exists ((λ j, (ai, j)) <$> range 0 n). rewrite !elem_of_app.
    split_and!; [left; apply elem_of_rows; exists ai; split; [lia|done]|..];
      apply elem_of_row; simpl; lia.
  - exists ((λ i, (i, aj)) <$> range 0 n). rewrite !elem_of_app.
    split_and!;
      [right; left; apply elem_of_columns; exists aj; split; [lia|done]|..];
      apply elem_of_column; simpl; lia.
  - assert (ai ≠ bi) by (intros ->; apply Hne; f_equal; lia).
    exists ((λ j, (ai + aj - j, j)) <$>
              range (Z.max 0 (ai + aj - n + 1)) (Z.min (ai + aj + 1) n)).
    rewrite !elem_of_app.
    split_and!;
      [right; right; left; apply elem_of_diagonal1; exists (ai + aj);
       split; [lia|done]|..];
      apply elem_of_diag1; unfold on_board; simpl; lia.
  - assert (ai ≠ bi) by (intros ->; apply Hne; f_equal; lia).
    exists ((λ j, (ai - aj + j, j)) <$>
              range (Z.max 0 (- (ai - aj))) (Z.min (n - (ai - aj)) n)).
    rewrite !elem_of_app.
    split_and!;
      [right; right; right; apply elem_of_diagonal2; exists (ai - aj);
       split; [lia|done]|..];
      apply elem_of_diag2; unfold on_board; simpl; lia.
Qed.

End queens.



(** X10.  The n-queens model says what it should.  A placement of queens on
    the board satisfies all the constraints the notebook adds exactly when
    no two queens attack each other: no two on a row, on a column or on a
    diagonal of either direction. *)
Theorem n_queens_model_correct (n : Z) (queen : NQueens.placement) :
  (∀ cells, cells ∈ NQueens.constraints n → NQueens.at_most_one queen cells) ↔
  (∀ a b, NQueens.on_board n a → NQueens.on_board n b →
     queen a = true → queen b = true → a ≠ b → ¬ NQueens.attack a b).
Proof.
  split.
  - intros Hsat a b Ha Hb Hqa Hqb Hne Hatt.
    destruct (attack_covered n a b Ha Hb Hne Hatt) as (cells & Hc & Hac & Hbc).
    destruct (constraint_cells n cells Hc) as (Hnd & _ & _).
    apply Hne. by apply (proj1 (at_most_one_iff queen cells Hnd) (Hsat _ Hc)).
  - intros Hsafe cells Hc.
    destruct (constraint_cells n cells Hc) as (Hnd & Hboard & Hatt).
    apply (at_most_one_iff queen cells Hnd). intros a b Ha Hb Hqa Hqb.
    destruct (decide (a = b)) as [|Hne]; [done|].
    destruct (Hsafe a b); auto.
Qed.

(** ** [max_flow.ipynb]: arcs and paths *)

Section max_flow.
Import Python MaxFlow.

Lemma arcs_flat_map base_arcs :
  arcs base_arcs = flat_map (λ '(u, v), [(u, v); (v, u)]) base_arcs.
Proof.
  unfold arcs. induction base_arcs as [|[u v] l IH] using rev_ind; [done|].
  rewrite foldl_app, flat_map_app, IH. simpl. by rewrite <-app_assoc.
Qed.

Context (NODES : list Z) (SINK : Z) (sol : gmap (Z * Z) float).
Local Abbreviation follow fuel := (follow fuel NODES SINK sol).
Local Abbreviation trail := (trail NODES SINK sol).

Lemma next_node_Some curr m :
  next_node NODES sol curr = Some m →
  m ∈ NODES ∧ carries sol curr m = true.
Proof.
  unfold next_node. intros Hm.
  assert (m ∈ filter (λ m, carries sol curr m = true) NODES) as Hin.
  { destruct (filter _ NODES) as [|x l]; [done|]. injection Hm as ->.
    set_solver. }
  by apply list_elem_of_filter in Hin as [? ?].
Qed.

Lemma follow_trail fuel : ∀ path curr p,
  follow fuel path curr = Some p ↔
  ∃ ms, p = path ++ ms ∧ trail curr ms ∧ (length ms ≤ fuel)%nat.
Proof.
  induction fuel as [|fuel IH]; intros path curr p; simpl.
  - case_decide as Hc.
    + split.
      * intros [= <-]. exists []. rewrite app_nil_r. subst.
        split_and!; [done|constructor|done].
      * intros (ms & -> & _ & Hlen). destruct ms; [|simpl in Hlen; lia].
        by rewrite app_nil_r.
    + split; [done|]. intros (ms & _ & Ht & Hlen).
      destruct Ht; [done|simpl in Hlen; lia].
  - case_decide as Hc.
    + split.
      * intros [= <-]. exists []. rewrite app_nil_r. subst.
        split_and!; [done|constructor|simpl; lia].
      * intros (ms & -> & Ht & _). destruct Ht as [|curr m ms ? _ _]; [|done].
        by rewrite app_nil_r.
    + destruct (next_node NODES sol curr) as [m|] eqn:Hn.
      * rewrite IH. split.
        -- intros (ms & -> & Ht & Hlen). exists (m :: ms).
           rewrite <-app_assoc. split_and!; [done| |simpl; lia].
           by constructor.
        -- intros (ms & -> & Ht & Hlen).
           destruct Ht as [|curr m' ms ? Hn' Ht]; [done|].
           rewrite Hn in Hn'. injection Hn' as <-.
           exists ms. rewrite <-app_assoc. split_and!; [done..|].
           simpl in Hlen. lia.
      * rewrite IH. split.
        -- intros (ms & _ & Ht & _). destruct Ht; congruence.
        -- intros (ms & _ & Ht & _). destruct Ht; congruence.
Qed.

(** A trail follows arcs with flow through [NODES], meets [SINK] at its end
    and nowhere before. *)
Lemma trail_path curr ms :
  trail curr ms →
  last (curr :: ms) = Some SINK ∧
  Forall (λ m, m ∈ NODES) ms ∧
  (∀ (i : nat) a b, (curr :: ms) !! i = Some a → ms !! i = Some b →
     a ≠ SINK ∧ carries sol a b = true).
Proof.
  induction 1 as [|curr m ms Hc Hn Ht (IHl & IHn & IHc)].
  - split_and!; [done|constructor|]. intros i a b _ Hb.
    by rewrite lookup_nil in Hb.
  - apply next_node_Some in Hn as [Hm Hcar]. split_and!.
    + by rewrite last_cons_cons.
    + by constructor.
    + intros [|i] a b; simpl.
      * by intros [= <-] [= <-].
      * apply IHc.
Qed.

Lemma trail_unique curr ms1 ms2 : trail curr ms1 → trail curr ms2 → ms1 = ms2.
Proof.
  intros H1. revert ms2.
  induction H1 as [|curr m ms Hc Hn _ IH]; intros ms2 H2.
  - by inversion H2.
  - inversion H2 as [|? m' ms' _ Hn' H2']; subst; [done|].
    rewrite Hn in Hn'. injection Hn' as <-. f_equal. by apply IH.
Qed.

End max_flow.

(** X11.  The arcs of the max-flow model come in pairs: the loop over
    [base_arcs] puts each base arc and its reverse, in this order, into
    [ARCS], so [ARCS] has twice as many entries and contains an arc exactly
    when it contains the reverse arc. *)
Theorem max_flow_arcs_bidirectional (base_arcs : list (Z * Z)) :
  MaxFlow.arcs base_arcs = flat_map (λ '(u, v), [(u, v); (v, u)]) base_arcs ∧
  length (MaxFlow.arcs base_arcs) = (2 * length base_arcs)%nat ∧
  (∀ u v, (u, v) ∈ MaxFlow.arcs base_arcs ↔
          (u, v) ∈ base_arcs ∨ (v, u) ∈ base_arcs) ∧
  (∀ u v, (u, v) ∈ MaxFlow.arcs base_arcs → (v, u) ∈ MaxFlow.arcs base_arcs).
Proof.
  assert (∀ u v, (u, v) ∈ MaxFlow.arcs base_arcs ↔
                 (u, v) ∈ base_arcs ∨ (v, u) ∈ base_arcs) as Hin.
  { intros u v. rewrite arcs_flat_map, list_elem_of_In, in_flat_map.
    setoid_rewrite <-list_elem_of_In. split.
    - intros ([a b] & Hab & Huv). set_solver.
    - intros [H|H]; [exists (u, v)|exists (v, u)]; set_solver. }
  split_and!; [apply arcs_flat_map| |done|].
  - rewrite arcs_flat_map. clear Hin.
    induction base_arcs as [|[u v] l IH]; [done|]. simpl. rewrite IH. lia.
  - intros u v. rewrite !Hin. tauto.
Qed.

(** X12.  Reading a path off the solution.  The [while] loop that follows
    the flow from a node returns within [fuel] iterations exactly when the
    walk that always takes the first node of [NODES] an arc with flow leads
    to reaches [SINK] in at most that many steps; the path it returns then
    goes along arcs whose value is above 0.5, through nodes of [NODES], and
    ends at [SINK], which it does not meet before. *)
Theorem max_flow_path_follows_flow (fuel : nat) (NODES : list Z) (SINK : Z)
    (sol : gmap (Z * Z) float) (path : list Z) (curr : Z) (p : list Z) :
  (MaxFlow.follow fuel NODES SINK sol path curr = Some p ↔
   ∃ ms, p = path ++ ms ∧ MaxFlow.trail NODES SINK sol curr ms ∧
         (length ms ≤ fuel)%nat) ∧
  (∀ ms, MaxFlow.trail NODES SINK sol curr ms →
     last (curr :: ms) = Some SINK ∧
     Forall (λ m, m ∈ NODES) ms ∧
     (∀ (i : nat) a b, (curr :: ms) !! i = Some a → ms !! i = Some b →
        a ≠ SINK ∧ MaxFlow.carries sol a b = true)).
Proof. split; [apply follow_trail|apply trail_path]. Qed.

(** X13.  The same loop never ends when the walk gets to a node other than
    [SINK] from which no arc with flow leads on: the [for] loop then finds
    nothing, [curr] stays what it is, and the [while] loop goes round for
    ever.  So the cell hangs on a solution in which the flow out of the
    source does not arrive at the sink. *)
Theorem max_flow_path_stuck (NODES : list Z) (SINK : Z)
    (sol : gmap (Z * Z) float) (curr stuck : Z) (ms : list Z) :
  MaxFlow.trail NODES stuck sol curr ms →
  Forall (λ m, m ≠ SINK) (curr :: ms) →
  MaxFlow.next_node NODES sol stuck = None →
  ∀ (fuel : nat) (path : list Z),
    MaxFlow.follow fuel NODES SINK sol path curr = None.
Proof.
  intros Ht Hns Hstuck fuel. revert curr ms Ht Hns.
  induction fuel as [|fuel IH]; intros curr ms Ht Hns path; simpl.
  - apply Forall_cons in Hns as [Hc _]. by rewrite decide_False.
  - apply Forall_cons in Hns as [Hc Hns]. rewrite decide_False by done.
    destruct Ht as [|curr m ms Hcs Hn Ht].
    + rewrite Hstuck. apply (IH stuck []); [constructor|by constructor].
    + rewrite Hn. by apply (IH m ms).
Qed.

Lemma max_flow_path_stuck_witness :
  MaxFlow.follow 1000 [1; 2; 3] 3 {[(1, 2) := 1%float]} [1] 1 = None.
Proof.
  apply (max_flow_path_stuck [1; 2; 3] 3 {[(1, 2) := 1%float]} 1 2 [2]).
  - apply MaxFlow.trail_step; [done|reflexivity|constructor].
  - repeat constructor; done.
  - reflexivity.
Defined.

(** A solution that is a path 10 - 3 - 11 is read off as such. *)
Example max_flow_one_path :
  MaxFlow.extract_paths 5 [1; 2; 3; 10; 11] 10 11
    {[(10, 3) := 1%float; (3, 11) := 1%float; (3, 10) := 0%float]}
  = Some [[10; 3; 11]].
Proof. vm_compute. reflexivity. Qed.

(** ** [facility_location.ipynb]: the colours of the nodes *)

Section float_order.

Lemma SFcompare_Lt_asym a b :
  SFcompare a b = Some Lt → SFcompare b a = Some Gt.
Proof.
  destruct a as [sa|sa| |sa ma ea], b as [sb|sb| |sb mb eb]; simpl;
    try discriminate;
    try (destruct sa; try destruct sb; simpl; intros H;
         try discriminate H; reflexivity).
  destruct sa, sb; simpl; try discriminate; try reflexivity.
  - rewrite (Z.compare_antisym ea eb).
    destruct (ea ?= eb)%Z; simpl; intros H; try discriminate H;
      try reflexivity.
    rewrite Pos.compare_cont_antisym. simpl.
    destruct (Pos.compare_cont Eq ma mb); simpl in *; try discriminate H.
    reflexivity.
  - rewrite (Z.compare_antisym ea eb).
    destruct (ea ?= eb)%Z; simpl; intros H; try discriminate H;
      try reflexivity.
    change (Pos.compare_cont Eq mb ma)
      with (Pos.compare_cont (CompOpp Eq) mb ma).
    rewrite <-(Pos.compare_cont_antisym ma mb Eq).
    injection H as ->. reflexivity.
Qed.

(** In binary64, [x < y] excludes [y < x]. *)
Lemma ltb_asym x y : PrimFloat.ltb x y = true → PrimFloat.ltb y x = false.
Proof.
  rewrite !ltb_spec. unfold SFltb.
  destruct (SFcompare (Prim2SF x) (Prim2SF y)) as [[]|] eqn:E;
    try discriminate.
  intros _. by rewrite (SFcompare_Lt_asym _ _ E).
Qed.

End float_order.

Section comprehensions.
Import Python FacilityLocation.
Context {A : Type}.

(** A dictionary comprehension whose keys do not repeat has exactly the
    entries of the elements that pass the condition. *)
Lemma dict_of_Val (js : list Z) (entry : Z → res (option (Z * A)))
    (g : Z → option (Z * A)) :
  (∀ j, j ∈ js → entry j = Val (g j)) →
  (∀ j1 j2 k a1 a2, j1 ∈ js → j2 ∈ js →
     g j1 = Some (k, a1) → g j2 = Some (k, a2) → j1 = j2) →
  ∃ d, dict_of js entry = Val d ∧
       ∀ k a, d !! k = Some a ↔ ∃ j, j ∈ js ∧ g j = Some (k, a).
Proof.
  intros Hentry Hinj. unfold dict_of.
  induction js as [|j js IH] using rev_ind.
  { exists ∅. split; [done|]. intros k a. rewrite lookup_empty.
    split; [done|]. by intros (? & ?%elem_of_nil & _). }
  destruct IH as (d & E & Hd).
  { intros j' Hj'. apply Hentry. set_solver. }
  { intros j1 j2 k a1 a2 H1 H2. apply Hinj; set_solver. }
  rewrite for_each_snoc, E. cbn [mbind res_bind].
  rewrite Hentry by set_solver. cbn [mbind res_bind].
  eexists. split; [done|]. intros k a.
  setoid_rewrite elem_of_app. setoid_rewrite list_elem_of_singleton.
  destruct (g j) as [[kj aj]|] eqn:Eg.
  - rewrite lookup_insert_Some, Hd. split.
    + intros [[<- <-]|[_ (j' & Hj' & Hg)]]; [by exists j; auto|].
      exists j'. auto.
    + intros (j' & [Hj'| ->] & Hg).
      * destruct (decide (kj = k)) as [<-|Hne]; [|right; split; eauto].
        left. split; [done|]. assert (j' = j) as ->; [|congruence].
        by eapply (Hinj j' j kj a aj); [set_solver..| |].
      * rewrite Eg in Hg. injection Hg as <- <-. by left.
  - rewrite Hd. split.
    + intros (j' & Hj' & Hg). exists j'. auto.
    + intros (j' & [Hj'| ->] & Hg); [by exists j'|congruence].
Qed.

Lemma list_of_Val (js : list Z) (f : Z → res A) (g : Z → A) :
  (∀ j, j ∈ js → f j = Val (g j)) → list_of js f = Val (g <$> js).
Proof.
  intros Hf. unfold list_of. induction js as [|j js IH] using rev_ind; [done|].
  rewrite for_each_snoc, IH by (intros; apply Hf; set_solver).
  cbn [mbind res_bind]. rewrite Hf by set_solver. cbn [mbind res_bind].
  by rewrite fmap_app.
Qed.

(** A list comprehension over look-ups ends in the exception of the first
    look-up that fails. *)
Lemma list_of_Exc (js : list Z) (f : Z → res A) e :
  (∀ j, j ∈ js → (∃ a, f j = Val a) ∨ f j = Exc e) →
  (∃ j, j ∈ js ∧ f j = Exc e) →
  list_of js f = Exc e.
Proof.
  unfold list_of.
  enough (∀ l, (∀ j, j ∈ js → (∃ a, f j = Val a) ∨ f j = Exc e) →
               (∃ j, j ∈ js ∧ f j = Exc e) →
               for_each (λ l j, a ← f j; Val (l ++ [a])) js l = Exc e) by auto.
  induction js as [|j js IH]; intros l Hf (j' & Hj' & Hexc).
  { by apply elem_of_nil in Hj'. }
  rewrite for_each_cons.
  destruct (Hf j) as [[a Ha]|Ha]; [set_solver| |by rewrite Ha].
  rewrite Ha. cbn [mbind res_bind]. apply IH.
  - intros; apply Hf; set_solver.
  - apply elem_of_cons in Hj' as [->|?]; [congruence|]. by exists j'.
Qed.

End comprehensions.

Section node_colours.
Import Python FacilityLocation.
Variables (n m : Z) (s : solution).
Hypothesis Hn : 0 ≤ n.
Hypothesis Hm : 0 ≤ m.
Hypothesis Hy : ∀ j, 0 ≤ j < m → is_Some (ysol s !! j).

Lemma node_col_dict :
  ∃ dS dA1 dA0,
    node_colS n = Val dS ∧ node_colA1 m n (Some s) = Val dA1 ∧
    node_colA0 m n (Some s) = Val dA0 ∧
    (∀ i, 0 ≤ i < n → (dA0 ∪ dA1 ∪ dS) !! i = Some Blue) ∧
    (∀ j v, 0 ≤ j < m → ysol s !! j = Some v →
       (dA0 ∪ dA1 ∪ dS) !! (n + j) = site_colour v).
Proof using Hn Hm Hy.
  destruct (dict_of_Val (SCHOOLS n) (λ i, Val (Some (i, Blue)))
              (λ i, Some (i, Blue))) as (dS & ES & HS);
    [done|by intros; simplify_eq/=|].
  destruct (dict_of_Val (SITES m)
              (λ j, v ← lookup_key (ysol s) j;
                    Val (if PrimFloat.ltb 0.5 v then Some (n + j, Red) else None))
              (λ j, match ysol s !! j with
                    | Some v => if PrimFloat.ltb 0.5 v
                                then Some (n + j, Red) else None
                    | None => None
                    end)) as (dA1 & EA1 & HA1).
  { intros j Hj%elem_of_range. destruct (Hy j) as [v Hv]; [lia|].
    unfold lookup_key. by rewrite Hv. }
  { intros j1 j2 k a1 a2 _ _ H1 H2. repeat case_match; simplify_eq. lia. }
  destruct (dict_of_Val (SITES m)
              (λ j, v ← lookup_key (ysol s) j;
                    Val (if PrimFloat.ltb v 0.5 then Some (n + j, Grey) else None))
              (λ j, match ysol s !! j with
                    | Some v => if PrimFloat.ltb v 0.5
                                then Some (n + j, Grey) else None
                    | None => None
                    end)) as (dA0 & EA0 & HA0).
  { intros j Hj%elem_of_range. destruct (Hy j) as [v Hv]; [lia|].
    unfold lookup_key. by rewrite Hv. }
  { intros j1 j2 k a1 a2 _ _ H1 H2. repeat case_match; simplify_eq. lia. }
  exists dS, dA1, dA0. split_and!; [done..| |].
  - intros i Hi.
    assert (dA0 !! i = None) as H0.
    { apply eq_None_not_Some. intros [a Ha]. apply HA0 in Ha as (j & Hj & Hg).
      apply elem_of_range in Hj. repeat case_match; simplify_eq. lia. }
    assert (dA1 !! i = None) as H1.
    { apply eq_None_not_Some. intros [a Ha]. apply HA1 in Ha as (j & Hj & Hg).
      apply elem_of_range in Hj. repeat case_match; simplify_eq. lia. }
    rewrite !lookup_union, H0, H1. rewrite (left_id None _).
    rewrite (left_id None _). apply HS. exists i. split; [|done].
    by apply elem_of_range.
  - intros j v Hj Hv. unfold site_colour.
    assert (dS !! (n + j) = None) as HSn.
    { apply eq_None_not_Some. intros [a Ha]. apply HS in Ha as (i & Hi & Hg).
      apply elem_of_range in Hi. simplify_eq. lia. }
    assert (∀ a, dA0 !! (n + j) = Some a ↔
                 PrimFloat.ltb v 0.5 = true ∧ a = Grey) as H0.
    { intros a. rewrite HA0. split.
      - intros (j' & Hj' & Hg). destruct (ysol s !! j') as [v'|] eqn:Ev'; [|done].
        destruct (PrimFloat.ltb v' 0.5) eqn:El; [|done].
        injection Hg as Hk <-. assert (j' = j) as -> by lia.
        rewrite Hv in Ev'. injection Ev' as <-. done.
      - intros [Hl ->]. exists j. split; [by apply elem_of_range|].
        by rewrite Hv, Hl. }
    assert (∀ a, dA1 !! (n + j) = Some a ↔
                 PrimFloat.ltb 0.5 v = true ∧ a = Red) as H1.
    { intros a. rewrite HA1. split.
      - intros (j' & Hj' & Hg). destruct (ysol s !! j') as [v'|] eqn:Ev'; [|done].
        destruct (PrimFloat.ltb 0.5 v') eqn:El; [|done].
        injection Hg as Hk <-. assert (j' = j) as -> by lia.
        rewrite Hv in Ev'. injection Ev' as <-. done.
      - intros [Hl ->]. exists j. split; [by apply elem_of_range|].
        by rewrite Hv, Hl. }
    rewrite !lookup_union, HSn. rewrite (right_id None _).
    destruct (PrimFloat.ltb v 0.5) eqn:El0.
    + rewrite (proj2 (H0 Grey)) by done. by destruct (dA1 !! (n + j)).
    + assert (dA0 !! (n + j) = None) as ->.
      { apply eq_None_not_Some. intros [a [? _]%H0]. done. }
      rewrite (left_id None _). destruct (PrimFloat.ltb 0.5 v) eqn:El1.
      * by apply H1.
      * apply eq_None_not_Some. intros [a [? _]%H1]. done.
Qed.

End node_colours.



(** Before a solve, [draw_sol(n, m)] colours every site grey. *)
Example draw_sol_before_solve :
  FacilityLocation.node_col 2 3 2 3 None
  = Python.Val [FacilityLocation.Blue; FacilityLocation.Blue;
                FacilityLocation.Grey; FacilityLocation.Grey;
                FacilityLocation.Grey] ∧
  FacilityLocation.E 2 3 2 None = Python.Val [].
Proof. vm_compute. split; reflexivity. Qed.

(** ** [load_problem.ipynb]: the two ways of building the model agree *)

Section load_problem.
Import Python LoadProblem.
Context {Var : Type}.
Implicit Types (expr : list (linexpr Var)) (x : list Var).

Lemma row_terms_app r (es1 es2 : list (Z * (Z * Var))) :
  row_terms r (es1 ++ es2) = row_terms r es1 ++ row_terms r es2.
Proof. unfold row_terms. by rewrite filter_app, fmap_app. Qed.

Lemma row_terms_cons r (e : Z * (Z * Var)) es :
  row_terms r (e :: es) =
    (if decide (e.1 = r) then [e.2] else []) ++ row_terms r es.
Proof.
  unfold row_terms. rewrite filter_cons. by case_decide.
Qed.

(** The inner loop: the entries at the positions [ps] are appended to their
    rows. *)
Lemma add_entries rowind rowcoef x (cnt : nat) v (C : Z) : ∀ (ps : list Z) expr,
  x !! cnt = Some v →
  Z.of_nat (length expr) = C →
  (∀ i, i ∈ ps →
     0 ≤ i ∧ ∃ r k, rowind !! Z.to_nat i = Some r ∧
                    rowcoef !! Z.to_nat i = Some k ∧ 0 ≤ r < C) →
  ∃ expr',
    for_each (add_entry rowind rowcoef x (Z.of_nat cnt)) ps expr = Val expr' ∧
    length expr' = length expr ∧
    ∀ r : nat, expr' !! r =
      (λ e, e ++ row_terms (Z.of_nat r) (omap (entry rowind rowcoef v) ps))
        <$> expr !! r.
Proof.
  intros ps. induction ps as [|i ps IH]; intros expr Hv HC His.
  { exists expr. split_and!; [done..|]. intros r. simpl.
    destruct (expr !! r); simpl; [|done]. by rewrite app_nil_r. }
  destruct (His i) as (Hi & r & k & Hr & Hk & HrC); [set_solver|].
  destruct (lookup_lt_is_Some_2 expr (Z.to_nat r)) as [e He]; [lia|].
  assert (add_entry rowind rowcoef x (Z.of_nat cnt) expr i
          = Val (<[Z.to_nat r := e ++ [(k, v)]]> expr)) as Estep.
  { unfold add_entry.
    rewrite (item_Val rowind i r) by done. cbn [mbind res_bind].
    rewrite (item_Val expr r e) by (done || lia). cbn [mbind res_bind].
    rewrite (item_Val rowcoef i k) by done. cbn [mbind res_bind].
    rewrite (item_Val x (Z.of_nat cnt) v); [|lia|by rewrite Nat2Z.id].
    cbn [mbind res_bind]. by rewrite setitem_Val by lia. }
  rewrite for_each_cons, Estep. cbn [mbind res_bind].
  destruct (IH (<[Z.to_nat r := e ++ [(k, v)]]> expr)) as (expr' & E & Hlen & Hrows).
  { done. }
  { by rewrite length_insert. }
  { intros i' Hi'. apply His. set_solver. }
  exists expr'. split_and!; [done|by rewrite Hlen, length_insert|].
  intros r'. rewrite Hrows. simpl. unfold entry at 2.
  rewrite Hr, Hk. simpl. rewrite row_terms_cons. simpl.
  destruct (decide (r' = Z.to_nat r)) as [->|Hne].
  - rewrite list_lookup_insert_eq by lia. rewrite He. simpl.
    rewrite decide_True by lia. by rewrite <-app_assoc.
  - rewrite list_lookup_insert_ne by done.
    rewrite decide_False by lia. done.
Qed.

(** The outer loop, from column [c0] on.  Only the number of the elements of
    [js] matters: the loop does not use [j]. *)
Lemma add_columns C start rowind rowcoef x :
  well_formed C start rowind rowcoef x →
  ∀ (js : list Z) (c0 : nat) expr,
    (c0 + length js ≤ length x)%nat →
    Z.of_nat (length expr) = C →
    ∃ expr',
      for_each (add_column start rowind rowcoef x) js (expr, Z.of_nat c0)
        = Val (expr', Z.of_nat (c0 + length js)) ∧
      length expr' = length expr ∧
      ∀ r : nat, expr' !! r =
        (λ e, e ++ row_terms (Z.of_nat r)
                     (flat_map (column_entries start rowind rowcoef x)
                               (seq c0 (length js))))
          <$> expr !! r.
Proof.
  intros [Hlen Hwf] js. induction js as [|j js IH]; intros c0 expr Hc0 HC.
  { exists expr. rewrite Nat.add_0_r. split_and!; [done..|]. intros r. simpl.
    destruct (expr !! r); simpl; [|done]. by rewrite app_nil_r. }
  simpl in Hc0.
  destruct (lookup_lt_is_Some_2 start c0) as [lo Hlo]; [lia|].
  destruct (lookup_lt_is_Some_2 start (S c0)) as [hi Hhi]; [lia|].
  destruct (lookup_lt_is_Some_2 x c0) as [v Hv]; [lia|].
  destruct (add_entries rowind rowcoef x c0 v C (range lo hi) expr Hv HC)
    as (expr1 & E1 & Hlen1 & Hrows1).
  { intros i Hi%elem_of_range. exact (Hwf c0 lo hi i Hlo Hhi Hi). }
  assert (add_column start rowind rowcoef x (expr, Z.of_nat c0) j
          = Val (expr1, Z.of_nat (S c0))) as Estep.
  { unfold add_column.
    rewrite (item_Val start (Z.of_nat c0) lo); [|lia|by rewrite Nat2Z.id].
    cbn [mbind res_bind].
    rewrite (item_Val start (Z.of_nat c0 + 1) hi);
      [|lia|by replace (Z.to_nat (Z.of_nat c0 + 1)) with (S c0) by lia].
    cbn [mbind res_bind]. rewrite E1. cbn [mbind res_bind].
    do 2 f_equal. lia. }
  rewrite for_each_cons, Estep. cbn [mbind res_bind].
  destruct (IH (S c0) expr1) as (expr' & E & Hlen' & Hrows); [lia|lia|].
  exists expr'. rewrite E. split_and!.
  - do 2 f_equal. simpl. lia.
  - lia.
  - intros r. rewrite Hrows, Hrows1. simpl.
    unfold column_entries at 2. rewrite Hlo, Hhi, Hv.
    rewrite row_terms_app. destruct (expr !! r); simpl; [|done].
    by rewrite <-app_assoc.
Qed.

End load_problem.



(** The rows of that matrix: [x1 + x2], [x1 + x3], [x2 + x3] and
    [x1 + x2 + x3]. *)
Example loadlp_rows :
  LoadProblem.build_rows 4 [0; 3; 6; 9] [0; 1; 3; 0; 2; 3; 1; 2; 3]
    [1; 1; 1; 1; 1; 1; 1; 1; 1] ["x1"; "x2"; "x3"]%string
  = Python.Val [ [(1, "x1"); (1, "x2")]; [(1, "x1"); (1, "x3")];
                 [(1, "x2"); (1, "x3")];
                 [(1, "x1"); (1, "x2"); (1, "x3")] ]%string.
Proof. vm_compute. reflexivity. Qed.

(** A position beyond the arrays ends the loops with [IndexError]. *)
Example load_problem_short_rowind :
  LoadProblem.build_rows 2 [0; 2] [0] [5; 7] ["x"]%string
  = Python.Exc Python.IndexError.
Proof. vm_compute. reflexivity. Qed.

(** ** [unitcommitment_indicators.ipynb]: every unit has its type *)

Section unit_commitment.
Import Python UnitCommitment.

Lemma total_app l1 l2 : total (l1 ++ l2) = total l1 + total l2.
Proof. unfold total. induction l1 as [|a l1 IH]; simpl; lia. Qed.

Lemma total_nonneg l : Forall (λ a, 0 ≤ a) l → 0 ≤ total l.
Proof. unfold total. induction 1; simpl; lia. Qed.

(** The types computed from the first [k] entries of [AVAIL]. *)
Lemma unit_types_prefix AVAIL (k : nat) :
  (k ≤ length AVAIL)%nat →
  Forall (λ a, 0 ≤ a) AVAIL →
  ∃ TYPE,
    for_each (λ TYPE i, a ← item AVAIL i;
                        Val (TYPE ++ replicate (Z.to_nat a) i))
             (range 0 (Z.of_nat k)) [] = Val TYPE ∧
    Z.of_nat (length TYPE) = total (take k AVAIL) ∧
    ∀ (u : nat) t, TYPE !! u = Some t ↔
      0 ≤ t < Z.of_nat k ∧
      total (take (Z.to_nat t) AVAIL) ≤ Z.of_nat u
        < total (take (S (Z.to_nat t)) AVAIL).
Proof.
  intros Hk Hpos. induction k as [|k IH].
  { exists []. split_and!; [done..|]. intros u t. rewrite lookup_nil.
    split; [done|lia]. }
  destruct IH as (TYPE & E & Hlen & Hty); [lia|].
  destruct (lookup_lt_is_Some_2 AVAIL k) as [a Ha]; [lia|].
  assert (0 ≤ a) as Ha0.
  { rewrite Forall_forall in Hpos. apply Hpos. by eapply list_elem_of_lookup_2. }
  exists (TYPE ++ replicate (Z.to_nat a) (Z.of_nat k)).
  replace (Z.of_nat (S k)) with (Z.of_nat k + 1) by lia.
  rewrite range_snoc by lia. rewrite for_each_snoc, E. cbn [mbind res_bind].
  rewrite (item_Val AVAIL (Z.of_nat k) a); [|lia|by rewrite Nat2Z.id].
  cbn [mbind res_bind].
  assert (total (take (S k) AVAIL) = total (take k AVAIL) + a) as Hsum.
  { rewrite (take_S_r _ _ _ Ha), total_app. change (total [a]) with (a + 0). lia. }
  split_and!; [done| |].
  - rewrite length_app, length_replicate, Hsum. lia.
  - intros u t. destruct (decide (u < length TYPE)%nat) as [Hu|Hu].
    + rewrite lookup_app_l by done. rewrite Hty. split.
      * intros (? & ?). split; [lia|done].
      * intros (Ht & Hut). split; [|done].
        destruct (decide (t = Z.of_nat k)) as [->|]; [|lia].
        rewrite Nat2Z.id in Hut. lia.
    + rewrite lookup_app_r by lia. rewrite lookup_replicate. split.
      * intros (-> & Hlt). rewrite Nat2Z.id. lia.
      * intros (Ht & Hut). destruct (decide (t = Z.of_nat k)) as [->|Hne].
        { rewrite Nat2Z.id in Hut. split; [done|]. lia. }
        exfalso. assert (Z.to_nat t < k)%nat as Htk by lia.
        assert (total (take (S (Z.to_nat t)) AVAIL) ≤ total (take k AVAIL)).
        { rewrite <-(take_drop (S (Z.to_nat t)) (take k AVAIL)).
          rewrite take_take, total_app.
          replace (S (Z.to_nat t) `min` k)%nat with (S (Z.to_nat t)) by lia.
          assert (0 ≤ total (drop (S (Z.to_nat t)) (take k AVAIL))); [|lia].
          apply total_nonneg, Forall_drop, Forall_take, Hpos. }
        lia.
Qed.

End unit_commitment.

(** X15.  Units and their types in the unit-commitment model.  When [AVAIL]
    gives a number of units, not negative, for each of the [ntypes] types,
    the list [TYPE] has one entry per unit of [UNITS = range(sum(AVAIL))],
    so [TYPE[u]] raises nothing for a unit [u] and is a valid index into the
    per-type tables; and unit [u] is of type [t] exactly when [u] lies in
    the [t]-th block: at or after the number of units of the types before
    [t], and before that number plus [AVAIL[t]]. *)
Theorem unit_types_blocks (AVAIL : list Z) :
  Forall (λ a, 0 ≤ a) AVAIL →
  ∃ TYPE,
    UnitCommitment.unit_types (Z.of_nat (length AVAIL)) AVAIL
      = Python.Val TYPE ∧
    Z.of_nat (length TYPE) = UnitCommitment.total AVAIL ∧
    (∀ u, u ∈ UnitCommitment.units AVAIL →
       ∃ t, Python.item TYPE u = Python.Val t ∧
            0 ≤ t < Z.of_nat (length AVAIL)) ∧
    (∀ u t, 0 ≤ u →
       Python.item TYPE u = Python.Val t ↔
       0 ≤ t < Z.of_nat (length AVAIL) ∧
       UnitCommitment.total (take (Z.to_nat t) AVAIL) ≤ u
         < UnitCommitment.total (take (S (Z.to_nat t)) AVAIL)).
Proof.
  intros Hpos.
  destruct (unit_types_prefix AVAIL (length AVAIL)) as (TYPE & E & Hlen & Hty);
    [done..|].
  rewrite firstn_all in Hlen.
  assert (∀ u t, 0 ≤ u →
    Python.item TYPE u = Python.Val t ↔ TYPE !! Z.to_nat u = Some t) as Hitem.
  { intros u t Hu. split.
    - unfold Python.item, Python.position.
      destruct (decide (u < 0)); [lia|]. case_decide; [|done].
      by destruct (TYPE !! Z.to_nat u); intros [= ->].
    - by apply item_Val. }
  exists TYPE. split_and!; [done|done| |].
  - intros u Hu%elem_of_range.
    destruct (lookup_lt_is_Some_2 TYPE (Z.to_nat u)) as [t Ht]; [lia|].
    exists t. split; [apply Hitem; [lia|done]|]. by apply Hty in Ht as [? _].
  - intros u t Hu. rewrite Hitem, Hty by done. by rewrite Z2Nat.id by lia.
Qed.

Lemma unit_types_blocks_witness :
  ∃ TYPE,
    UnitCommitment.unit_types 4 [10; 4; 8; 3] = Python.Val TYPE ∧
    Z.of_nat (length TYPE) = UnitCommitment.total [10; 4; 8; 3] ∧
    (∀ u, u ∈ UnitCommitment.units [10; 4; 8; 3] →
       ∃ t, Python.item TYPE u = Python.Val t ∧ 0 ≤ t < 4) ∧
    (∀ u t, 0 ≤ u →
       Python.item TYPE u = Python.Val t ↔
       0 ≤ t < 4 ∧
       UnitCommitment.total (take (Z.to_nat t) [10; 4; 8; 3]) ≤ u
         < UnitCommitment.total (take (S (Z.to_nat t)) [10; 4; 8; 3])).
Proof.
  apply (unit_types_blocks [10; 4; 8; 3]).
  repeat constructor; lia.
Defined.

(** A negative entry in [AVAIL] contributes no unit to [TYPE] but lowers
    [sum(AVAIL)]: [TYPE] is then longer than [UNITS]. *)
Example unit_types_negative :
  UnitCommitment.unit_types 2 [3; -1] = Python.Val [0; 0; 0] ∧
  UnitCommitment.units [3; -1] = [0; 1].
Proof. vm_compute. split; reflexivity. Qed.

(** ** [pairwise_distance.ipynb]: from the solution dictionary to points *)

Section pairwise_distance.
Import Python PairwiseDistance.
Context {V : Type}.
Implicit Types (xsol : list ((Z * Z) * V)) (points : gmap Z (list (option V))).

(** What the loop has built after the items [done_]: a row of [M] entries
    for every point met, holding the values met. *)
Local Abbreviation built M done_ points :=
  ((∀ i, is_Some (points !! i) ↔ ∃ d v, ((i, d), v) ∈ done_) ∧
   (∀ i row, points !! i = Some row →
      length row = M ∧
      ∀ (d : nat) v, row !! d = Some (Some v) ↔ ((i, Z.of_nat d), v) ∈ done_)).

Lemma place_built xsol (m : Z) done_ points i d v :
  max_dim xsol = Val (m + 1) → 0 ≤ d ≤ m →
  (i, d) ∉ done_.*1 →
  built (Z.to_nat (m + 1)) done_ points →
  ∃ points', place xsol points ((i, d), v) = Val points' ∧
             built (Z.to_nat (m + 1)) (done_ ++ [((i, d), v)]) points'.
Proof.
  intros Hmax Hd Hnew [Hdom Hrows]. unfold place.
  set (points1 := if decide (is_Some (points !! i)) then points
                  else <[i := replicate (Z.to_nat (m + 1)) None]> points).
  assert ((if decide (is_Some (points !! i)) then Val points
           else max_dim ← max_dim xsol;
                Val (<[i := replicate (Z.to_nat max_dim) None]> points))
          = Val points1) as ->.
  { unfold points1. case_decide; [done|]. by rewrite Hmax. }
  cbn [mbind res_bind].
  assert (∃ row, points1 !! i = Some row ∧ length row = Z.to_nat (m + 1) ∧
    ∀ (d' : nat) v', row !! d' = Some (Some v') ↔
                     ((i, Z.of_nat d'), v') ∈ done_) as (row & Hrow & Hlen & Hvals).
  { unfold points1. case_decide as Hi.
    - destruct Hi as [row Hrow]. exists row. split; [done|]. by apply Hrows.
    - eexists. rewrite lookup_insert_eq. split; [done|].
      rewrite length_replicate. split; [done|]. intros d' v'. split.
      + by intros [[=] _]%lookup_replicate.
      + intros Hin. destruct Hi. apply Hdom. eauto. }
  unfold lookup_key. rewrite Hrow. cbn [from_option mbind res_bind].
  rewrite setitem_Val by lia. cbn [mbind res_bind].
  eexists. split; [done|]. split.
  - intros i'. rewrite lookup_insert_is_Some.
    setoid_rewrite elem_of_app. setoid_rewrite list_elem_of_singleton.
    destruct (decide (i = i')) as [<-|Hne].
    + split; [|by left]. intros _. exists d, v. by right.
    + assert (is_Some (points1 !! i') ↔ is_Some (points !! i')) as ->.
      { unfold points1. case_decide; [done|]. by rewrite lookup_insert_ne. }
      rewrite Hdom. naive_solver.
  - intros i' row'. rewrite lookup_insert_Some.
    setoid_rewrite elem_of_app. setoid_rewrite list_elem_of_singleton.
    intros [[<- <-]|[Hne Hrow']].
    + rewrite length_insert. split; [done|]. intros d' v'.
      destruct (decide (d' = Z.to_nat d)) as [->|Hd'].
      * rewrite list_lookup_insert_eq by lia. rewrite Z2Nat.id by lia. split.
        -- intros [= ->]. by right.
        -- intros [Hin|[= ->]]; [|done]. destruct Hnew.
           apply list_elem_of_fmap. by exists ((i, d), v').
      * rewrite list_lookup_insert_ne by done. rewrite Hvals. split; [by left|].
        intros [?|[= Heq _]]; [done|]. lia.
    + assert (points !! i' = Some row') as Hrow0.
      { unfold points1 in Hrow'. case_decide; [done|].
        by rewrite lookup_insert_ne in Hrow'. }
      destruct (Hrows _ _ Hrow0) as [? Hv]. split; [done|]. intros d' v'.
      rewrite Hv. split; [by left|]. intros [?|[=]]; [done|]. done.
Qed.

Lemma regroup_built xsol (m : Z) :
  max_dim xsol = Val (m + 1) →
  ∀ done_ rest, xsol = done_ ++ rest → ∀ points,
    NoDup (rest.*1) → (∀ k, k ∈ rest.*1 → k ∉ done_.*1) →
    (∀ i d v, ((i, d), v) ∈ rest → 0 ≤ d ≤ m) →
    built (Z.to_nat (m + 1)) done_ points →
    ∃ points', for_each (place xsol) rest points = Val points' ∧
               built (Z.to_nat (m + 1)) xsol points'.
Proof.
  intros Hmax done_ rest. revert done_.
  induction rest as [|[[i d] v] rest IH];
    intros done_ -> points Hnd Hfresh Hdims Hbuilt.
  { exists points. by rewrite app_nil_r. }
  rewrite fmap_cons in Hnd. apply NoDup_cons in Hnd as [Hk Hnd].
  destruct (place_built (done_ ++ ((i, d), v) :: rest) m done_ points i d v)
    as (points1 & E1 & Hbuilt1); [done| | |done|].
  { eapply Hdims. by left. }
  { apply Hfresh. rewrite fmap_cons. by left. }
  rewrite for_each_cons, E1. cbn [mbind res_bind].
  apply (IH (done_ ++ [((i, d), v)])); [by rewrite <-app_assoc|done| | |done].
  - intros k Hkin. rewrite fmap_app. simpl.
    rewrite elem_of_app, list_elem_of_singleton. intros [Hin| ->]; [|done].
    apply (Hfresh k); [|done]. rewrite fmap_cons. by right.
  - intros i' d' v' Hin. eapply Hdims. by right.
Qed.

End pairwise_distance.

(** X16.  From the solution dictionary to the points of
    [pairwise_distance.ipynb].  When no dimension in the keys of [xsol] is
    negative, the loop raises nothing, [points] gets one list per point
    identifier that occurs in a key, every list has as many entries as the
    largest dimension plus one, and [points[i][d]] is the value [xsol] has
    for the key [(i, d)], and [None] exactly when [xsol] has no such key. *)
Theorem points_regrouped {V : Type} (xsol : list ((Z * Z) * V)) :
  NoDup (xsol.*1) →
  (∀ i d v, ((i, d), v) ∈ xsol → 0 ≤ d) →
  ∃ points,
    PairwiseDistance.regroup xsol = Python.Val points ∧
    (∀ i, is_Some (points !! i) ↔ ∃ d v, ((i, d), v) ∈ xsol) ∧
    (∀ i row, points !! i = Some row →
       Python.max_of ((λ kv, kv.1.2) <$> xsol)
         = Python.Val (Z.of_nat (length row) - 1) ∧
       ∀ (d : nat) v, row !! d = Some (Some v) ↔
                      ((i, Z.of_nat d), v) ∈ xsol).
Proof.
  intros Hnd Hdims. destruct xsol as [|[[i0 d0] v0] xsol0] eqn:Exsol.
  { exists ∅. split_and!; [done| |].
    - intros i. rewrite lookup_empty. split; [by intros [? ?]|].
      by intros (? & ? & ?%elem_of_nil).
    - intros i row. by rewrite lookup_empty. }
  rewrite <-Exsol in *.
  destruct (max_of_Val ((λ kv, kv.1.2) <$> xsol) d0) as (m & Hm & Hd0 & Hmin).
  { rewrite Exsol. simpl. by left. }
  assert (0 ≤ m) as Hm0.
  { assert (0 ≤ d0); [|lia]. apply (Hdims i0 d0 v0). rewrite Exsol. by left. }
  assert (PairwiseDistance.max_dim xsol = Python.Val (m + 1)) as Hmax.
  { unfold PairwiseDistance.max_dim. by rewrite Hm. }
  destruct (regroup_built xsol m Hmax [] xsol eq_refl ∅)
    as (points & E & Hdom & Hrows).
  { done. }
  { intros k _ ?%elem_of_nil. done. }
  { intros i d v Hin. split; [by eapply Hdims|].
    destruct (max_of_Val ((λ kv, kv.1.2) <$> xsol) d) as (m' & Hm' & Hd & _).
    - apply list_elem_of_fmap. by exists ((i, d), v).
    - rewrite Hm in Hm'. injection Hm' as <-. done. }
  { split.
    - intros i. rewrite lookup_empty. split; [by intros [? ?]|].
      by intros (? & ? & ?%elem_of_nil).
    - intros i row. by rewrite lookup_empty. }
  exists points. split_and!; [done|done|].
  intros i row Hrow. destruct (Hrows i row Hrow) as [Hlen Hvals].
  split; [|done]. rewrite Hm, Hlen. f_equal. lia.
Qed.

Lemma points_regrouped_witness :
  ∃ points,
    PairwiseDistance.regroup
      [((0, 0), 1%float); ((0, 1), 2%float); ((1, 0), 3%float)]
      = Python.Val points ∧
    (∀ i, is_Some (points !! i) ↔
          ∃ d v, ((i, d), v) ∈
                 [((0, 0), 1%float); ((0, 1), 2%float); ((1, 0), 3%float)]) ∧
    (∀ i row, points !! i = Some row →
       Python.max_of ((λ kv, kv.1.2) <$>
          [((0, 0), 1%float); ((0, 1), 2%float); ((1, 0), 3%float)])
         = Python.Val (Z.of_nat (length row) - 1) ∧
       ∀ (d : nat) v, row !! d = Some (Some v) ↔
          ((i, Z.of_nat d), v) ∈
          [((0, 0), 1%float); ((0, 1), 2%float); ((1, 0), 3%float)]).
Proof.
  apply (points_regrouped
           [((0, 0), 1%float); ((0, 1), 2%float); ((1, 0), 3%float)]).
  - apply (bool_decide_unpack _). vm_compute. exact I.
  - intros i d v Hin. rewrite !elem_of_cons, elem_of_nil in Hin.
    destruct Hin as [[= _ -> _]|[[= _ -> _]|[[= _ -> _]|[]]]]; lia.
Defined.

(** A negative dimension is an index from the end: the value for the key
    [(0, -1)] lands in the last coordinate, over the value that was there. *)
Example points_negative_dimension :
  PairwiseDistance.regroup [((0, 1), 5); ((0, -1), 7)]
  = Python.Val {[0 := [None; Some 7]]}.
Proof. vm_compute. reflexivity. Qed.

(** ** [sudoku.ipynb]: the model *)

Section counting.
Import Python.

(** An injective map from [m] things into [range(m)] reaches every number. *)
Lemma pigeonhole {A} (l : list A) (f : A → Z) (m : Z) :
  NoDup l → length l = Z.to_nat m →
  (∀ x, x ∈ l → 0 ≤ f x < m) →
  (∀ x y, x ∈ l → y ∈ l → f x = f y → x = y) →
  ∀ k, 0 ≤ k < m → ∃ x, x ∈ l ∧ f x = k.
Proof.
  intros Hnd Hlen Hran Hinj k Hk.
  assert (f <$> l ≡ₚ range 0 m) as Hperm.
  { apply submseteq_length_Permutation.
    - apply NoDup_submseteq; [by apply NoDup_fmap_2_strong|].
      intros y (x & -> & Hx)%list_elem_of_fmap. apply elem_of_range. auto.
    - rewrite length_fmap, length_range. lia. }
  assert (k ∈ f <$> l) as (x & -> & Hx)%list_elem_of_fmap.
  { rewrite Hperm. by apply elem_of_range. }
  by exists x.
Qed.

Lemma length_bind_const {A B} (f : A → list B) (l : list A) (m : nat) :
  (∀ x, x ∈ l → length (f x) = m) → length (l ≫= f) = (length l * m)%nat.
Proof.
  induction l as [|x l IH]; intros Hf; [done|].
  rewrite bind_cons, length_app, Hf, IH by set_solver. simpl. lia.
Qed.

(** A loop that only appends. *)
Lemma for_each_extend {A B} (body : list B → A → res (list B))
    (f : A → list B) (l : list A) :
  (∀ x, x ∈ l → ∀ s, body s x = Val (s ++ f x)) →
  ∀ s, for_each body l s = Val (s ++ (l ≫= f)).
Proof.
  induction l as [|x l IH]; intros Hbody s.
  { by rewrite for_each_nil, app_nil_r. }
  rewrite for_each_cons, Hbody by set_solver. cbn [mbind res_bind].
  rewrite IH by (intros; apply Hbody; set_solver).
  by rewrite bind_cons, (assoc_L (++)).
Qed.

(** A loop in which a failing step is met fails, when no step fails in any
    other way. *)
Lemma for_each_fails {A S} (body : S → A → res S) (l : list A) e :
  (∀ x s, x ∈ l → (∃ s', body s x = Val s') ∨ body s x = Exc e) →
  (∃ x, x ∈ l ∧ ∀ s, body s x = Exc e) →
  ∀ s, for_each body l s = Exc e.
Proof.
  induction l as [|x l IH]; intros Hbody (y & Hy & Hfail) s.
  { by apply elem_of_nil in Hy. }
  rewrite for_each_cons.
  destruct (Hbody x s) as [[s' E]|E]; [set_solver| |by rewrite E].
  rewrite E. cbn [mbind res_bind].
  apply elem_of_cons in Hy as [->|Hy].
  { rewrite Hfail in E. done. }
  apply IH; [intros; apply Hbody; set_solver|by exists y].
Qed.

End counting.

Section sudoku.
Import Python Sudoku.
Variable q : Z.

Local Abbreviation n := (Sudoku.n q).

Lemma n_square : n = q * q.
Proof. unfold Sudoku.n. lia. Qed.

Lemma elem_of_N i : i ∈ N q ↔ 0 ≤ i < n.
Proof. unfold N. apply elem_of_range. Qed.

Lemma elem_of_Q i : i ∈ Q q ↔ 0 ≤ i < q.
Proof. unfold Q. apply elem_of_range. Qed.

Lemma length_N : length (N q) = Z.to_nat n.
Proof. unfold N. rewrite length_range. f_equal. lia. Qed.

(** *** The clues *)

Local Abbreviation clue_body grid i := (λ cs j,
  row ← item grid i;
  g ← item row j;
  if decide (g > 0)
  then v ← assign q (i, j, g - 1); Val (cs ++ [[v]])
  else Val cs).

Lemma clue_item grid i j g :
  0 ≤ i → 0 ≤ j →
  clue grid i j = Some g ↔ (row ← item grid i; item row j) = Val g.
Proof.
  intros Hi Hj. unfold clue. split.
  - destruct (grid !! Z.to_nat i) as [row|] eqn:Er; [|done]. simpl.
    intros Hg. rewrite (item_Val grid i row) by done. cbn [mbind res_bind].
    by apply item_Val.
  - destruct (item grid i) as [row|] eqn:Er; [|done].
    apply item_Val_inv in Er; [|done]. rewrite Er. cbn [mbind res_bind].
    simpl. by apply item_Val_inv.
Qed.

Lemma clue_body_Val grid i j g cs :
  0 ≤ i < n → 0 ≤ j < n → clue grid i j = Some g → g ≤ n →
  clue_body grid i cs j
  = Val (cs ++ if decide (g > 0) then [[(i, j, g - 1)]] else []).
Proof.
  intros Hi Hj Hg Hle. apply clue_item in Hg; [|lia..].
  destruct (item grid i) as [row|]; [|done]. cbn [mbind res_bind] in *.
  rewrite Hg. cbn [mbind res_bind].
  case_decide; [|by rewrite app_nil_r].
  unfold assign. rewrite decide_True; [done|].
  rewrite !elem_of_N. simpl. lia.
Qed.

Lemma clue_body_inv grid i j cs cs' :
  0 ≤ i < n → 0 ≤ j < n →
  clue_body grid i cs j = Val cs' →
  ∃ g, clue grid i j = Some g ∧ g ≤ n.
Proof.
  intros Hi Hj E.
  destruct (row ← item grid i; item row j) as [g|] eqn:Eg.
  - exists g. split; [apply clue_item; [lia..|done]|].
    destruct (item grid i) as [row|]; [|done]. cbn [mbind res_bind] in *.
    rewrite Eg in E. cbn [mbind res_bind] in E.
    case_decide; [|lia]. unfold assign in E.
    case_decide as Hin; [|done]. rewrite !elem_of_N in Hin. simpl in Hin. lia.
  - destruct (item grid i) as [row|]; [|done]. cbn [mbind res_bind] in *.
    by rewrite Eg in E.
Qed.

Lemma clue_body_KeyError grid i j g cs :
  0 ≤ i → 0 ≤ j → clue grid i j = Some g → g > n →
  clue_body grid i cs j = Exc KeyError.
Proof.
  intros Hi Hj Hg Hgt. apply clue_item in Hg; [|lia..].
  destruct (item grid i) as [row|]; [|done]. cbn [mbind res_bind] in *.
  rewrite Hg. cbn [mbind res_bind].
  pose proof n_square. rewrite decide_True by nia.
  unfold assign. rewrite decide_False; [done|].
  rewrite !elem_of_N. simpl. lia.
Qed.

Lemma for_each_Val_inv {A S} (body : S → A → res S) (l : list A) s s' :
  for_each body l s = Val s' →
  ∀ x, x ∈ l → ∃ s1 s2, body s1 x = Val s2.
Proof.
  revert s. induction l as [|y l IH]; intros s E x Hx.
  { by apply elem_of_nil in Hx. }
  rewrite for_each_cons in E. destruct (body s y) as [s1|] eqn:Ey; [|done].
  cbn [mbind res_bind] in E.
  apply elem_of_cons in Hx as [->|Hx]; [by exists s, s1|]. by eapply IH.
Qed.

Lemma for_each_Val_or {A S} (body : S → A → res S) (l : list A) e :
  (∀ x s, x ∈ l → (∃ s', body s x = Val s') ∨ body s x = Exc e) →
  ∀ s, (∃ s', for_each body l s = Val s') ∨ for_each body l s = Exc e.
Proof.
  induction l as [|x l IH]; intros Hbody s; [left; by exists s|].
  rewrite for_each_cons.
  destruct (Hbody x s) as [[s' ->]| ->]; [set_solver| |by right].
  cbn [mbind res_bind]. apply IH. intros; apply Hbody; set_solver.
Qed.

(** The grid has the entries the constraints read, none above [n]. *)
Local Abbreviation readable grid :=
  (∀ i j, 0 ≤ i < n → 0 ≤ j < n → ∃ g, clue grid i j = Some g ∧ g ≤ n).

Lemma clue_constraints_Val grid :
  readable grid →
  ∃ clues, clue_constraints q grid = Val clues ∧
    ∀ cells, cells ∈ clues ↔
      ∃ i j g, 0 ≤ i < n ∧ 0 ≤ j < n ∧ clue grid i j = Some g ∧ g > 0 ∧
               cells = [(i, j, g - 1)].
Proof.
  intros Hgrid. unfold clue_constraints.
  pose (f := λ i j, match clue grid i j with
                    | Some g => if decide (g > 0) then [[(i, j, g - 1)]] else []
                    | None => []
                    end).
  rewrite (for_each_extend _ (λ i, N q ≫= f i)).
  - eexists. split; [done|]. intros cells. rewrite app_nil_l.
    rewrite list_elem_of_bind. setoid_rewrite list_elem_of_bind.
    setoid_rewrite elem_of_N. unfold f. split.
    + intros (i & (j & Hc & Hj) & Hi).
      destruct (clue grid i j) as [g|] eqn:Eg; [|by apply elem_of_nil in Hc].
      case_decide; [|by apply elem_of_nil in Hc].
      apply list_elem_of_singleton in Hc. by exists i, j, g.
    + intros (i & j & g & Hi & Hj & Hg & Hpos & ->).
      exists i. split; [|done]. exists j. split; [|done].
      rewrite Hg, decide_True by done. by apply list_elem_of_singleton.
  - intros i Hi%elem_of_N cs. apply (for_each_extend _ (f i)).
    intros j Hj%elem_of_N cs'. destruct (Hgrid i j) as (g & Hg & Hle); [done..|].
    rewrite (clue_body_Val grid i j g) by done. unfold f. by rewrite Hg.
Qed.

Lemma clue_constraints_Val_inv grid clues :
  clue_constraints q grid = Val clues → readable grid.
Proof.
  intros E i j Hi Hj. unfold clue_constraints in E.
  destruct (for_each_Val_inv _ _ _ _ E i) as (cs1 & cs2 & E1);
    [by apply elem_of_N|].
  destruct (for_each_Val_inv _ _ _ _ E1 j) as (cs3 & cs4 & E2);
    [by apply elem_of_N|].
  by eapply clue_body_inv.
Qed.

Lemma clue_constraints_KeyError grid :
  (∀ i j, 0 ≤ i < n → 0 ≤ j < n → is_Some (clue grid i j)) →
  (∃ i j g, 0 ≤ i < n ∧ 0 ≤ j < n ∧ clue grid i j = Some g ∧ g > n) →
  clue_constraints q grid = Exc KeyError.
Proof.
  intros Hgrid (i & j & g & Hi & Hj & Hg & Hgt). unfold clue_constraints.
  assert (∀ i' j' cs, i' ∈ N q → j' ∈ N q →
    (∃ cs', clue_body grid i' cs j' = Val cs')
    ∨ clue_body grid i' cs j' = Exc KeyError) as Hstep.
  { intros i' j' cs Hi'%elem_of_N Hj'%elem_of_N.
    destruct (Hgrid i' j') as [g' Hg']; [done..|].
    destruct (decide (g' ≤ n)).
    - left. eexists. by apply (clue_body_Val grid i' j' g').
    - right. apply (clue_body_KeyError grid i' j' g'); [lia..|done|lia]. }
  apply for_each_fails.
  - intros i' cs Hi'. apply for_each_Val_or. intros j' cs' Hj'.
    by apply Hstep.
  - exists i. split; [by apply elem_of_N|]. intros cs. apply for_each_fails.
    + intros j' cs' Hj'. apply Hstep; [by apply elem_of_N|done].
    + exists j. split; [by apply elem_of_N|]. intros cs'.
      apply (clue_body_KeyError grid i j g); [lia..|done|done].
Qed.

(** *** The blocks *)

Hypothesis Hq : 0 < q.

(** Rows and blocks: [i + q*h] for [i] in [Q] are the rows [r] of the grid
    with [r / q = h]. *)
Lemma block_index r h :
  0 ≤ h < q →
  (∃ i, 0 ≤ i < q ∧ r = i + q * h) ↔ 0 ≤ r < n ∧ r / q = h.
Proof using Hq.
  intros Hh. rewrite n_square. split.
  - intros (i & Hi & ->).
    assert ((i + q * h) / q = h) as E.
    { rewrite (Z.mul_comm q h), Z.div_add, Z.div_small by lia. lia. }
    split; [nia|done].
  - intros [Hr <-]. exists (r mod q).
    pose proof (Z.mod_pos_bound r q Hq). pose proof (Z.div_mod r q).
    split; [lia|lia].
Qed.

Lemma block_of r : 0 ≤ r < n → 0 ≤ r / q < q.
Proof using Hq.
  rewrite n_square. intros Hr. split; [apply Z.div_pos; lia|].
  apply Z.div_lt_upper_bound; lia.
Qed.

Lemma elem_of_block h l k (c : key) :
  0 ≤ h < q → 0 ≤ l < q →
  c ∈ block q h l k ↔
  c.2 = k ∧ (0 ≤ c.1.1 < n ∧ c.1.1 / q = h) ∧ (0 ≤ c.1.2 < n ∧ c.1.2 / q = l).
Proof using Hq.
  intros Hh Hl. rewrite <-!block_index by done. unfold block.
  rewrite list_elem_of_bind. setoid_rewrite list_elem_of_bind.
  setoid_rewrite list_elem_of_singleton. setoid_rewrite elem_of_Q.
  destruct c as [[r c] k']. simpl. split.
  - intros (i & (j & [= -> -> ->] & Hj) & Hi). eauto 10.
  - intros (-> & (i & Hi & ->) & (j & Hj & ->)). eauto 10.
Qed.

Lemma NoDup_block h l k : NoDup (block q h l k).
Proof.
  unfold block. apply NoDup_bind; [| |apply NoDup_range].
  - intros i1 i2 c _ _.
    intros (j1 & ->%list_elem_of_singleton & _)%list_elem_of_bind.
    intros (j2 & [= ? ?]%list_elem_of_singleton & _)%list_elem_of_bind. lia.
  - intros i _. apply NoDup_bind; [| |apply NoDup_range].
    + intros j1 j2 c _ _ ->%list_elem_of_singleton
        [= ?]%list_elem_of_singleton. lia.
    + intros j _. apply NoDup_singleton.
Qed.

Lemma length_block h l k : length (block q h l k) = Z.to_nat n.
Proof using Hq.
  unfold block.
  rewrite (length_bind_const _ _ (Z.to_nat q)).
  - unfold Q. rewrite length_range, n_square. nia.
  - intros i _. rewrite (length_bind_const _ _ 1%nat) by done.
    unfold Q. rewrite length_range. lia.
Qed.

(** The four families of sums. *)
Lemma elem_of_cell_constraints cells :
  cells ∈ cell_constraints q ↔
  ∃ i j, 0 ≤ i < n ∧ 0 ≤ j < n ∧ cells = (λ k, (i, j, k)) <$> N q.
Proof.
  unfold cell_constraints. rewrite list_elem_of_bind.
  setoid_rewrite list_elem_of_bind. setoid_rewrite list_elem_of_singleton.
  setoid_rewrite elem_of_N. split.
  - intros (x & (y & -> & Hy) & Hx). by exists x, y.
  - intros (x & y & Hx & Hy & ->). exists x. split; [|done]. by exists y.
Qed.

Lemma elem_of_row_constraints cells :
  cells ∈ row_constraints q ↔
  ∃ i k, 0 ≤ i < n ∧ 0 ≤ k < n ∧ cells = (λ j, (i, j, k)) <$> N q.
Proof.
  unfold row_constraints. rewrite list_elem_of_bind.
  setoid_rewrite list_elem_of_bind. setoid_rewrite list_elem_of_singleton.
  setoid_rewrite elem_of_N. split.
  - intros (x & (y & -> & Hy) & Hx). by exists x, y.
  - intros (x & y & Hx & Hy & ->). exists x. split; [|done]. by exists y.
Qed.

Lemma elem_of_column_constraints cells :
  cells ∈ column_constraints q ↔
  ∃ j k, 0 ≤ j < n ∧ 0 ≤ k < n ∧ cells = (λ i, (i, j, k)) <$> N q.
Proof.
  unfold column_constraints. rewrite list_elem_of_bind.
  setoid_rewrite list_elem_of_bind. setoid_rewrite list_elem_of_singleton.
  setoid_rewrite elem_of_N. split.
  - intros (x & (y & -> & Hy) & Hx). by exists x, y.
  - intros (x & y & Hx & Hy & ->). exists x. split; [|done]. by exists y.
Qed.

Lemma elem_of_block_constraints cells :
  cells ∈ block_constraints q ↔
  ∃ h l k, 0 ≤ h < q ∧ 0 ≤ l < q ∧ 0 ≤ k < n ∧ cells = block q h l k.
Proof.
  unfold block_constraints. rewrite list_elem_of_bind.
  setoid_rewrite list_elem_of_bind. setoid_rewrite list_elem_of_bind.
  setoid_rewrite list_elem_of_singleton.
  setoid_rewrite elem_of_N. setoid_rewrite elem_of_Q. split.
  - intros (x & (y & (z & -> & Hz) & Hy) & Hx). by exists x, y, z.
  - intros (x & y & z & Hx & Hy & Hz & ->). exists x. split; [|done].
    exists y. split; [|done]. by exists z.
Qed.

(** A sum of distinct binary variables is 1 when one of them is 1 and no
    other is. *)
Lemma exactly_one_iff (a : key → bool) (cells : list key) :
  NoDup cells →
  exactly_one a cells ↔
  ∃ c, c ∈ cells ∧ a c = true ∧ ∀ c', c' ∈ cells → a c' = true → c' = c.
Proof using Hq.
  intros Hnd. unfold exactly_one.
  pose proof (NoDup_filter (λ c, a c = true) _ Hnd) as Hndf.
  assert (∀ c, c ∈ filter (λ c, a c = true) cells ↔
               c ∈ cells ∧ a c = true) as Hin.
  { intros c. by rewrite list_elem_of_filter, (comm and). }
  destruct (filter (λ c, a c = true) cells) as [|x [|y l]] eqn:E.
  - split; [done|]. intros (c & Hc & Hac & _).
    assert (c ∈ @nil key) as ?%elem_of_nil by (by apply Hin). done.
  - split; [|done]. intros _. exists x.
    destruct (proj1 (Hin x)) as [? ?]; [set_solver|]. split_and!; [done..|].
    intros c' ? ?. assert (c' ∈ [x]) as ?%list_elem_of_singleton; [|done].
    by apply Hin.
  - split; [done|]. intros (c & _ & _ & Huniq). exfalso.
    apply NoDup_cons in Hndf as [Hx _]. apply Hx.
    destruct (proj1 (Hin x)) as [? ?]; [set_solver|].
    destruct (proj1 (Hin y)) as [? ?]; [set_solver|].
    assert (x = y) as ->; [|set_solver].
    rewrite (Huniq x), (Huniq y); done.
Qed.

Lemma exactly_one_singleton (a : key → bool) (c : key) :
  exactly_one a [c] ↔ a c = true.
Proof.
  unfold exactly_one. rewrite filter_cons, filter_nil.
  destruct (decide (a c = true)) as [->|Hne]; [done|].
  split; [done|]. intros ?. done.
Qed.

(** The sum over a line of the grid: the cells [f k] for [k] in [N]. *)
Lemma exactly_one_line (a : key → bool) (f : Z → key) :
  (∀ k1 k2, f k1 = f k2 → k1 = k2) →
  exactly_one a (f <$> N q) ↔
  ∃ k, 0 ≤ k < n ∧ a (f k) = true ∧
       ∀ k', 0 ≤ k' < n → a (f k') = true → k' = k.
Proof using Hq.
  intros Hinj. rewrite exactly_one_iff.
  2:{ apply NoDup_fmap_2_strong; [auto|apply NoDup_range]. }
  split.
  - intros (c & (k & -> & Hk%elem_of_N)%list_elem_of_fmap & Hc & Huniq).
    exists k. split_and!; [lia|lia|done|]. intros k' Hk' Hak'. apply Hinj.
    apply Huniq; [|done]. apply list_elem_of_fmap. exists k'.
    by rewrite elem_of_N.
  - intros (k & Hk & Hak & Huniq). exists (f k). split_and!; [|done|].
    + apply list_elem_of_fmap. exists k. by rewrite elem_of_N.
    + intros c' (k' & -> & Hk'%elem_of_N)%list_elem_of_fmap Hak'.
      f_equal. by apply Huniq.
Qed.

(** *** The sums and the rules of the puzzle *)

Section solutions.
Variable a : key → bool.

Lemma cells_sum :
  Forall (exactly_one a) (cell_constraints q) ↔
  ∀ i j, 0 ≤ i < n → 0 ≤ j < n →
    ∃ k, 0 ≤ k < n ∧ a (i, j, k) = true ∧
         ∀ k', 0 ≤ k' < n → a (i, j, k') = true → k' = k.
Proof using Hq.
  rewrite Forall_forall. setoid_rewrite elem_of_cell_constraints. split.
  - intros H i j Hi Hj.
    apply (exactly_one_line a (λ k, (i, j, k))); [congruence|].
    apply H. by exists i, j.
  - intros H cells (i & j & Hi & Hj & ->).
    apply (exactly_one_line a (λ k, (i, j, k))); [congruence|]. by apply H.
Qed.

Lemma rows_sum :
  Forall (exactly_one a) (row_constraints q) ↔
  ∀ i k, 0 ≤ i < n → 0 ≤ k < n →
    ∃ j, 0 ≤ j < n ∧ a (i, j, k) = true ∧
         ∀ j', 0 ≤ j' < n → a (i, j', k) = true → j' = j.
Proof using Hq.
  rewrite Forall_forall. setoid_rewrite elem_of_row_constraints. split.
  - intros H i k Hi Hk.
    apply (exactly_one_line a (λ j, (i, j, k))); [congruence|].
    apply H. by exists i, k.
  - intros H cells (i & k & Hi & Hk & ->).
    apply (exactly_one_line a (λ j, (i, j, k))); [congruence|]. by apply H.
Qed.

Lemma columns_sum :
  Forall (exactly_one a) (column_constraints q) ↔
  ∀ j k, 0 ≤ j < n → 0 ≤ k < n →
    ∃ i, 0 ≤ i < n ∧ a (i, j, k) = true ∧
         ∀ i', 0 ≤ i' < n → a (i', j, k) = true → i' = i.
Proof using Hq.
  rewrite Forall_forall. setoid_rewrite elem_of_column_constraints. split.
  - intros H j k Hj Hk.
    apply (exactly_one_line a (λ i, (i, j, k))); [congruence|].
    apply H. by exists j, k.
  - intros H cells (j & k & Hj & Hk & ->).
    apply (exactly_one_line a (λ i, (i, j, k))); [congruence|]. by apply H.
Qed.

Lemma blocks_sum :
  Forall (exactly_one a) (block_constraints q) ↔
  ∀ h l k, 0 ≤ h < q → 0 ≤ l < q → 0 ≤ k < n →
    ∃ c, c ∈ block q h l k ∧ a c = true ∧
         ∀ c', c' ∈ block q h l k → a c' = true → c' = c.
Proof using Hq.
  rewrite Forall_forall. setoid_rewrite elem_of_block_constraints. split.
  - intros H h l k Hh Hl Hk. apply exactly_one_iff; [apply NoDup_block|].
    apply H. by exists h, l, k.
  - intros H cells (h & l & k & Hh & Hl & Hk & ->).
    apply exactly_one_iff; [apply NoDup_block|]. by apply H.
Qed.

Lemma clues_sum grid clues :
  (∀ cells, cells ∈ clues ↔
      ∃ i j g, 0 ≤ i < n ∧ 0 ≤ j < n ∧ clue grid i j = Some g ∧ g > 0 ∧
               cells = [(i, j, g - 1)]) →
  Forall (exactly_one a) clues ↔
  ∀ i j g, 0 ≤ i < n → 0 ≤ j < n → clue grid i j = Some g → g > 0 →
           a (i, j, g - 1) = true.
Proof.
  intros Hclues. rewrite Forall_forall. setoid_rewrite Hclues. split.
  - intros H i j g Hi Hj Hg Hpos. apply exactly_one_singleton.
    apply H. by exists i, j, g.
  - intros H cells (i & j & g & Hi & Hj & Hg & Hpos & ->).
    apply exactly_one_singleton. by eapply H.
Qed.

(** The number a value of the variables puts in each cell. *)
Lemma cell_number :
  (∀ i j, 0 ≤ i < n → 0 ≤ j < n →
     ∃ k, 0 ≤ k < n ∧ a (i, j, k) = true ∧
          ∀ k', 0 ≤ k' < n → a (i, j, k') = true → k' = k) →
  ∃ number : Z → Z → Z, ∀ i j, 0 ≤ i < n → 0 ≤ j < n →
    1 ≤ number i j ≤ n ∧
    ∀ k, 0 ≤ k < n → a (i, j, k) = true ↔ number i j = k + 1.
Proof.
  intros H.
  exists (λ i j, 1 + default 0 (head (filter (λ k, a (i, j, k) = true) (N q)))).
  intros i j Hi Hj. destruct (H i j) as (k & Hk & Hak & Huniq); [done..|].
  assert (head (filter (λ k, a (i, j, k) = true) (N q)) = Some k) as ->.
  { destruct (filter (λ k, a (i, j, k) = true) (N q)) as [|k1 l] eqn:E.
    - assert (k ∈ filter (λ k, a (i, j, k) = true) (N q)) as Hin.
      { apply list_elem_of_filter. by rewrite elem_of_N. }
      rewrite E in Hin. by apply elem_of_nil in Hin.
    - simpl. f_equal.
      assert (k1 ∈ filter (λ k, a (i, j, k) = true) (N q)) as Hin
        by (rewrite E; by left).
      apply list_elem_of_filter in Hin as [? ?%elem_of_N]. by apply Huniq. }
  simpl. split; [lia|]. intros k' Hk'. split.
  - intros Hak'. rewrite (Huniq k'); [lia|done..].
  - intros ?. by replace k' with k by lia.
Qed.

Lemma model_correct grid cs :
  all_constraints q grid = Val cs →
  Forall (exactly_one a) cs ↔
  ∃ number, solves q grid number ∧
    ∀ i j k, 0 ≤ i < n → 0 ≤ j < n → 0 ≤ k < n →
      a (i, j, k) = true ↔ number i j = k + 1.
Proof using Hq.
  unfold all_constraints. destruct (clue_constraints q grid) as [clues|] eqn:E;
    [|done].
  intros [= <-]. pose proof (clue_constraints_Val_inv _ _ E) as Hgrid.
  destruct (clue_constraints_Val grid Hgrid) as (clues' & E' & Hclues).
  rewrite E in E'. injection E' as <-.
  rewrite !Forall_app, cells_sum, (clues_sum grid clues Hclues), rows_sum,
    columns_sum, blocks_sum.
  split.
  - intros (Hcell & Hclue & Hrow & Hcol & Hblock).
    destruct (cell_number Hcell) as (number & Hnum).
    assert (∀ i j k, 0 ≤ i < n → 0 ≤ j < n → 0 ≤ k < n →
      a (i, j, k) = true ↔ number i j = k + 1) as Ha.
    { intros i j k Hi Hj. by apply Hnum. }
    exists number. split; [|done]. split_and!.
    + intros i j Hi Hj. by apply Hnum.
    + intros i j g Hi Hj Hg Hpos.
      destruct (Hgrid i j) as (g' & Hg' & Hle); [done..|].
      assert (g' = g) as -> by congruence.
      pose proof (Hclue i j g Hi Hj Hg Hpos) as Hag.
      apply Ha in Hag; lia.
    + intros i j j' Hi Hj Hj' Heq.
      destruct (Hnum i j Hi Hj) as [Hran _].
      destruct (Hrow i (number i j - 1)) as (j0 & _ & _ & Huniq); [lia..|].
      rewrite (Huniq j), (Huniq j'); [done|done|apply Ha; lia|done|apply Ha; lia].
    + intros i i' j Hi Hi' Hj Heq.
      destruct (Hnum i j Hi Hj) as [Hran _].
      destruct (Hcol j (number i j - 1)) as (i0 & _ & _ & Huniq); [lia..|].
      rewrite (Huniq i), (Huniq i'); [done|done|apply Ha; lia|done|apply Ha; lia].
    + intros i j i' j' Hi Hj Hi' Hj' Hbi Hbj Heq.
      destruct (Hnum i j Hi Hj) as [Hran _].
      destruct (Hblock (i / q) (j / q) (number i j - 1))
        as (c0 & _ & _ & Huniq); [by apply block_of..|lia|].
      assert ((i, j, number i j - 1) = c0) as E1.
      { apply Huniq; [|apply Ha; lia].
        apply elem_of_block; [by apply block_of..|]. simpl. done. }
      assert ((i', j', number i j - 1) = c0) as E2.
      { apply Huniq; [|apply Ha; lia].
        apply elem_of_block; [by apply block_of..|]. simpl. done. }
      rewrite <-E2 in E1. by injection E1.
  - intros (number & (Hran & Hgiven & Hrow & Hcol & Hblock) & Ha).
    split_and!.
    + intros i j Hi Hj. specialize (Hran i j Hi Hj).
      exists (number i j - 1). split_and!; [lia|lia|apply Ha; lia|].
      intros k' Hk' Hak'. apply Ha in Hak'; lia.
    + intros i j g Hi Hj Hg Hpos.
      destruct (Hgrid i j) as (g' & Hg' & Hle); [done..|].
      assert (g' = g) as -> by congruence.
      apply Ha; [lia..|]. rewrite (Hgiven i j g); [lia|done..].
    + intros i k Hi Hk.
      assert (∃ j, j ∈ N q ∧ number i j - 1 = k) as (j & Hj & Hjk).
      { apply (pigeonhole (N q) (λ j, number i j - 1) n);
          [apply NoDup_range|apply length_N| | |done].
        - intros j Hj%elem_of_N. specialize (Hran i j Hi Hj). lia.
        - intros j j' Hj%elem_of_N Hj'%elem_of_N ?.
          apply (Hrow i); [done..|lia]. }
      apply elem_of_N in Hj. exists j. split_and!; [lia|lia|apply Ha; lia|].
      intros j' Hj' Hak'. apply Ha in Hak'; [|done..].
      apply (Hrow i); [done..|lia].
    + intros j k Hj Hk.
      assert (∃ i, i ∈ N q ∧ number i j - 1 = k) as (i & Hi & Hik).
      { apply (pigeonhole (N q) (λ i, number i j - 1) n);
          [apply NoDup_range|apply length_N| | |done].
        - intros i Hi%elem_of_N. specialize (Hran i j Hi Hj). lia.
        - intros i i' Hi%elem_of_N Hi'%elem_of_N ?.
          apply (Hcol i i' j); [done..|lia]. }
      apply elem_of_N in Hi. exists i. split_and!; [lia|lia|apply Ha; lia|].
      intros i' Hi' Hak'. apply Ha in Hak'; [|done..].
      apply (Hcol i' i j); [done..|lia].
    + intros h l k Hh Hl Hk.
      assert (∃ c, c ∈ block q h l 0 ∧ number c.1.1 c.1.2 - 1 = k)
        as (c & Hc & Hck).
      { apply (pigeonhole (block q h l 0) (λ c, number c.1.1 c.1.2 - 1) n);
          [apply NoDup_block|apply length_block| | |done].
        - intros [[r c] k'] (_ & [Hr _] & [Hc _])%elem_of_block; [|done..].
          simpl in *. specialize (Hran r c Hr Hc). lia.
        - intros [[r1 c1] k1] [[r2 c2] k2].
          intros (Hk1 & [Hr1 Hh1] & [Hc1 Hl1])%elem_of_block; [|done..].
          intros (Hk2 & [Hr2 Hh2] & [Hc2 Hl2])%elem_of_block; [|done..].
          simpl in *. intros Heq.
          destruct (Hblock r1 c1 r2 c2) as [-> ->]; [done..|lia|lia|lia|].
          by rewrite Hk1, Hk2. }
      destruct c as [[r c] k'].
      apply elem_of_block in Hc as (_ & [Hr Hrh] & [Hc Hcl]); [|done..].
      simpl in *. exists (r, c, k). split_and!.
      * apply elem_of_block; [done..|]. simpl. done.
      * apply Ha; [done..|lia].
      * intros [[r' c'] k''].
        intros (Hk'' & [Hr' Hh'] & [Hc' Hl'])%elem_of_block; [|done..].
        simpl in *. subst k''. intros Hak'. apply Ha in Hak'; [|done..].
        destruct (Hblock r' c' r c) as [-> ->]; [done..|lia|lia|lia|done].
Qed.

End solutions.

End sudoku.

(** X18.  The sudoku model is right.  For a block size [q > 0] and a grid
    from which the constraints can be built, a value of the binary variables
    satisfies every constraint the notebook adds exactly when it encodes a
    solution of the puzzle: there is a filling of the [n] by [n] grid with
    numbers from 1 to [n = q**2] that keeps every given number, repeats no
    number in a row, in a column or in a [q] by [q] block, and
    [assign[i,j,k]] is 1 exactly for the number [k + 1] of the cell
    [(i, j)]. *)
Theorem sudoku_model_correct (q : Z) (grid : list (list Z))
    (cs : list (list Sudoku.key)) (a : Sudoku.key → bool) :
  0 < q →
  Sudoku.all_constraints q grid = Python.Val cs →
  Forall (Sudoku.exactly_one a) cs ↔
  ∃ number, Sudoku.solves q grid number ∧
    ∀ i j k, 0 ≤ i < Sudoku.n q → 0 ≤ j < Sudoku.n q → 0 ≤ k < Sudoku.n q →
      a (i, j, k) = true ↔ number i j = k + 1.
Proof. intros Hq. by apply model_correct. Qed.

Lemma sudoku_model_correct_witness :
  ∃ cs, Sudoku.all_constraints 3 Sudoku.grid3x3 = Python.Val cs ∧
    ∀ a, Forall (Sudoku.exactly_one a) cs ↔
      ∃ number, Sudoku.solves 3 Sudoku.grid3x3 number ∧
        ∀ i j k, 0 ≤ i < Sudoku.n 3 → 0 ≤ j < Sudoku.n 3 →
                 0 ≤ k < Sudoku.n 3 →
          a (i, j, k) = true ↔ number i j = k + 1.
Proof.
  eexists. split; [vm_compute; reflexivity|]. intros a.
  apply (sudoku_model_correct 3 Sudoku.grid3x3); [lia|].
  vm_compute. reflexivity.
Defined.


(** The 16 by 16 grid with the block size left at 3 has numbers above 9;
    the 9 by 9 grid with the block size 4 is too short. *)
Example sudoku_grid_and_block_size :
  Sudoku.all_constraints 3 Sudoku.grid4x4 = Python.Exc Python.KeyError ∧
  Sudoku.all_constraints 4 Sudoku.grid3x3 = Python.Exc Python.IndexError.
Proof. split; vm_compute; reflexivity. Qed.
